(** * Pattern Recall: the path generator and the round state

    A shallow embedding of the game logic of the repository.  The repository
    holds two revisions of that logic:

    - [src/unnamed/part_000], the responsive revision (attempt budget 200,
      backtrack budget 1000, interior start cell, top-three selection),
      embedded in [Module Responsive];
    - [src/game.js], the first revision (attempt budget 100, no backtrack
      budget, start anywhere, top-half selection), embedded in
      [Module Classic].

    Both share the grid arithmetic, the loop check, the neighbour scan, the
    snake fallback and the round state, which are embedded once.  The
    listeners of the page ([startGame], [handleTileClick], [winGame],
    [loseGame], [resetGame], [handleResize], ...) are embedded in
    [Module Game], with what differs between the revisions in
    [Module ResponsiveGame] and [Module ClassicGame].

    Modelling conventions.
    - Cell indices and coordinates are [Z]; [index % GRID_WIDTH] is [Z.rem]
      and [Math.floor(index / GRID_WIDTH)] is [Z.div].
    - A JS array is a [list] in source order: [push] appends at the end,
      [pop] removes the last element, [path[path.length - 1]] is the last.
    - A JS [Set] of numbers is a [gset Z].
    - [Math.random()] is an oracle: a sequence of exact fractions in [0,1)
      read through a cursor, and [Math.floor(u * n)] is the floor of the
      exact product.  The rounding of the floating-point product is not
      modelled: it keeps the result below [n], so every index the program
      can draw is the exact floor for some fraction, and each draw is used
      for one index only.
    - A [while] loop is a step function iterated under fuel; running out of
      fuel is the outcome [None], and the theorems show that the fuel the
      definitions pass is never exhausted. *)

From Stdlib Require Import ZArith List Lia Bool.
From stdpp Require Import base gmap sets list.

Local Open Scope Z_scope.

(** ** The random source *)

(** One output of [Math.random()]: the fraction [numer / (numer + gap + 1)],
    which ranges over exactly the rationals of [0,1). *)
Record sample : Type := Sample { numer : nat; gap : nat }.

Definition denom (u : sample) : Z := Z.of_nat (numer u) + Z.of_nat (gap u) + 1.

(** [Math.floor(u * n)]. *)
Definition floorMul (u : sample) (n : Z) : Z := (Z.of_nat (numer u) * n) / denom u.

(** The sequence of outputs of the generator; the [k]-th call reads [rng k]. *)
Definition source : Type := nat -> sample.

(** [arr[Math.floor(Math.random() * arr.length)]], reading one output.
    [undefinedCell] stands for JS [undefined], what indexing an empty array
    gives; the search loops only index arrays that are not empty. *)
Definition undefinedCell : Z := -1.

Definition pick {A : Type} (d : A) (arr : list A) (u : sample) : A :=
  nth (Z.to_nat (floorMul u (Z.of_nat (length arr)))) arr d.

(** ** Loops *)

(** One iteration of a [while] loop either goes on with a new state or
    leaves the function with its return value ([None] is JS [null]) and the
    cursor of the random source. *)
Inductive step (St : Type) : Type :=
| Next (s : St)
| Return (r : option (list Z)) (k : nat).

Arguments Next {St} s.
Arguments Return {St} r k.

Section Loops.

Context {St : Type}.
Variable body : St -> step St.

Fixpoint runLoop (fuel : nat) (s : St) : option (option (list Z) * nat) :=
  match fuel with
  | O => None
  | S fuel' =>
      match body s with
      | Next s' => runLoop fuel' s'
      | Return r k => Some (r, k)
      end
  end.

(** The state at the head of the [n]-th iteration, while the loop runs. *)
Fixpoint stateAt (n : nat) (s : St) : option St :=
  match n with
  | O => Some s
  | S n' =>
      match body s with
      | Next s' => stateAt n' s'
      | Return _ _ => None
      end
  end.

End Loops.

(** ** Grid arithmetic, loop check and neighbour scan (both revisions) *)

Section Grid.

Variables GRID_WIDTH GRID_HEIGHT : Z.
Variable PATH_LENGTH : nat.

Definition colOf (index : Z) : Z := Z.rem index GRID_WIDTH.
Definition rowOf (index : Z) : Z := index / GRID_WIDTH.

(** [(dx === 1 && dy === 0) || (dx === 0 && dy === 1)] for the two cells. *)
Definition touches (newIndex pathIndex : Z) : bool :=
  let dx := Z.abs (colOf newIndex - colOf pathIndex) in
  let dy := Z.abs (rowOf newIndex - rowOf pathIndex) in
  ((dx =? 1) && (dy =? 0)) || ((dx =? 0) && (dy =? 1)).

(** [wouldCreateLoop]; the responsive revision passes the current
    coordinates too and never reads them. *)
Definition wouldCreateLoop (newIndex currentX currentY : Z) (path : list Z) : bool :=
  if (length path <? 3)%nat then false
  else existsb (touches newIndex) (take (length path - 1) path).

Definition directions : list (Z * Z) := [(0, -1); (0, 1); (-1, 0); (1, 0)].

(** The body of the [for (const {dx, dy} of directions)] loop: the cells it
    pushes for one direction. *)
Definition scanDirection (x y : Z) (visited : gset Z) (path : list Z)
    (d : Z * Z) : list Z :=
  let nx := x + fst d in
  let ny := y + snd d in
  if (0 <=? nx) && (nx <? GRID_WIDTH) && (0 <=? ny) && (ny <? GRID_HEIGHT) then
    let neighborIndex := ny * GRID_WIDTH + nx in
    if bool_decide (neighborIndex ∈ visited) then []
    else if wouldCreateLoop neighborIndex x y path then []
    else [neighborIndex]
  else [].

(** [getValidNeighbors] of part_000, [getUnvisitedNeighbors] of game.js. *)
Definition getValidNeighbors (index : Z) (visited : gset Z) (path : list Z) : list Z :=
  let x := colOf index in
  let y := rowOf index in
  flat_map (scanDirection x y visited path) directions.

(** [path[path.length - 1]]. *)
Definition lastCell (path : list Z) : Z := List.last path undefinedCell.

(** ** The snake fallback (both revisions) *)

Fixpoint snakeLoop (fuel : nat) (path : list Z) (x y direction : Z) : option (list Z) :=
  match fuel with
  | O => None
  | S fuel' =>
      if (length path <? PATH_LENGTH)%nat then
        let index := y * GRID_WIDTH + x in
        let path := path ++ [index] in
        let nextX := x + direction in
        if (0 <=? nextX) && (nextX <? GRID_WIDTH) && (length path <? PATH_LENGTH)%nat
        then snakeLoop fuel' path nextX y direction
        else
          let y := y + 1 in
          if GRID_HEIGHT <=? y then Some path
          else snakeLoop fuel' path x y (direction * -1)
      else Some path
  end.

Definition generateSnakePath : option (list Z) :=
  snakeLoop (S PATH_LENGTH) [] 0 0 1.

(** ** Scored candidates and the descending sort *)

Record scoredTile : Type := Scored { index : Z; score : nat }.

(** [Array.prototype.sort] with the comparator [b.score - a.score]: a stable
    sort by descending score (of at most four candidates).  Every stable
    sort returns the same array, so insertion from the right stands for the
    engine's algorithm. *)
Fixpoint insertByScore (s : scoredTile) (l : list scoredTile) : list scoredTile :=
  match l with
  | [] => [s]
  | t :: r =>
      if (score s <? score t)%nat then t :: insertByScore s r
      else s :: t :: r
  end.

Definition sortByScore (l : list scoredTile) : list scoredTile :=
  foldr insertByScore [] l.

Definition undefinedTile : scoredTile := Scored undefinedCell 0.

(** The retry loop of [generatePath]: [attemptsLeft] is
    [maxAttempts - attempts].  The result comes with the final value of
    [attempts]. *)
Fixpoint retryLoop (attempt : nat -> option (option (list Z) * nat))
    (attemptsLeft attempts : nat) (k : nat) : option (list Z * nat) :=
  match attemptsLeft with
  | O => p ← generateSnakePath; Some (p, attempts)
  | S rest =>
      match attempt k with
      | None => None
      | Some (Some p, k') =>
          if (length p =? PATH_LENGTH)%nat then Some (p, attempts)
          else retryLoop attempt rest (S attempts) k'
      | Some (None, k') => retryLoop attempt rest (S attempts) k'
      end
  end.

End Grid.

(** ** The responsive revision: src/unnamed/part_000 *)

Module Responsive.

Record search : Type := Search {
  path : list Z;
  visited : gset Z;
  backtrackCount : nat;
  cursor : nat
}.

Section Generator.

Variables GRID_WIDTH GRID_HEIGHT : Z.
Variable PATH_LENGTH : nat.

Definition maxAttempts : nat := 200.
Definition maxBacktracks : nat := 1000.

(** The [map] callback of [chooseNextTile]: the candidate with the number of
    valid neighbours it would have once added. *)
Definition scoreOf (visited : gset Z) (path : list Z) (n : Z) : scoredTile :=
  let futureVisited := {[ n ]} ∪ visited in
  let futurePath := path ++ [n] in
  let futureNeighbors := getValidNeighbors GRID_WIDTH GRID_HEIGHT n futureVisited futurePath in
  Scored n (length futureNeighbors).

Definition isViable (path : list Z) (s : scoredTile) : bool :=
  let remainingTiles := Z.of_nat PATH_LENGTH - Z.of_nat (length path) in
  (0 <? score s)%nat || (remainingTiles <=? 2).

(** [chooseNextTile]: the chosen cell and the cursor of the random source
    after the call. *)
Definition chooseNextTile (neighbors : list Z) (visited : gset Z) (path : list Z)
    (rng : source) (k : nat) : Z * nat :=
  if (length neighbors =? 1)%nat then (nth 0 neighbors undefinedCell, k)
  else
    let scored := map (scoreOf visited path) neighbors in
    let viable := List.filter (isViable path) scored in
    if (length viable =? 0)%nat then (pick undefinedCell neighbors (rng k), S k)
    else
      let sorted := sortByScore viable in
      let topCount := Nat.min 3 (length sorted) in
      let topOptions := take topCount sorted in
      (index (pick undefinedTile topOptions (rng k)), S k).

(** The state after [path.push(startIndex); visited.add(startIndex)]. *)
Definition startState (rng : source) (k : nat) : search :=
  let startX := 1 + floorMul (rng k) (GRID_WIDTH - 2) in
  let startY := 1 + floorMul (rng (S k)) (GRID_HEIGHT - 2) in
  let startIndex := startY * GRID_WIDTH + startX in
  Search [startIndex] ({[ startIndex ]} ∪ ∅) 0 (S (S k)).

(** One evaluation of the [while] condition and, when it holds, of the
    loop body; when it fails, of the final [return]. *)
Definition attemptStep (rng : source) (s : search) : step search :=
  if (length (path s) <? PATH_LENGTH)%nat && (backtrackCount s <? maxBacktracks)%nat then
    let current := lastCell (path s) in
    let neighbors := getValidNeighbors GRID_WIDTH GRID_HEIGHT current (visited s) (path s) in
    if (length neighbors =? 0)%nat then
      if (length (path s) <=? 1)%nat then Return None (cursor s)
      else
        let removed := lastCell (path s) in
        Next (Search (removelast (path s)) (visited s ∖ {[ removed ]})
                     (S (backtrackCount s)) (cursor s))
    else
      let '(next, k') := chooseNextTile neighbors (visited s) (path s) rng (cursor s) in
      Next (Search (path s ++ [next]) ({[ next ]} ∪ visited s) (backtrackCount s) k')
  else
    Return (if (length (path s) =? PATH_LENGTH)%nat then Some (path s) else None)
           (cursor s).

(** Each iteration pops (at most [maxBacktracks] times) or pushes. *)
Definition attemptFuel : nat := 2 * maxBacktracks + PATH_LENGTH + 1.

Definition attemptPathGeneration (rng : source) (k : nat)
    : option (option (list Z) * nat) :=
  runLoop (attemptStep rng) attemptFuel (startState rng k).

(** [generatePath] with the number of failed attempts before it returned. *)
Definition generateLoop (rng : source) : option (list Z * nat) :=
  retryLoop GRID_WIDTH GRID_HEIGHT PATH_LENGTH (attemptPathGeneration rng) maxAttempts 0 0.

Definition generatePath (rng : source) : option (list Z) :=
  fst <$> generateLoop rng.

End Generator.

End Responsive.

(** ** The first revision: src/game.js *)

Module Classic.

(** This revision keeps no backtrack counter. *)
Record search : Type := Search {
  path : list Z;
  visited : gset Z;
  cursor : nat
}.

Section Generator.

Variables GRID_WIDTH GRID_HEIGHT : Z.
Variable PATH_LENGTH : nat.

Definition maxAttempts : nat := 100.

(** The [map] callback of [chooseNextTile]: the lookahead scans from the
    candidate against the path as it is, without the candidate. *)
Definition scoreOf (visited : gset Z) (path : list Z) (n : Z) : scoredTile :=
  Scored n (length (getValidNeighbors GRID_WIDTH GRID_HEIGHT n ({[ n ]} ∪ visited) path)).

Definition chooseNextTile (neighbors : list Z) (visited : gset Z) (path : list Z)
    (rng : source) (k : nat) : Z * nat :=
  let scored := sortByScore (map (scoreOf visited path) neighbors) in
  let topHalf := take (Nat.div2 (S (length scored))) scored in
  (index (pick undefinedTile topHalf (rng k)), S k).

Definition startState (rng : source) (k : nat) : search :=
  let startX := floorMul (rng k) GRID_WIDTH in
  let startY := floorMul (rng (S k)) GRID_HEIGHT in
  let startIndex := startY * GRID_WIDTH + startX in
  Search [startIndex] ({[ startIndex ]} ∪ ∅) (S (S k)).

(** One iteration of [while (path.length < PATH_LENGTH)]. *)
Definition attemptStep (rng : source) (s : search) : step search :=
  if (length (path s) <? PATH_LENGTH)%nat then
    let current := lastCell (path s) in
    let neighbors := getValidNeighbors GRID_WIDTH GRID_HEIGHT current (visited s) (path s) in
    if (length neighbors =? 0)%nat then
      if (length (path s) <=? 1)%nat then Return None (cursor s)
      else Next (Search (removelast (path s)) (visited s) (cursor s))
    else
      let '(next, k') := chooseNextTile neighbors (visited s) (path s) rng (cursor s) in
      Next (Search (path s ++ [next]) ({[ next ]} ∪ visited s) k')
  else Return (Some (path s)) (cursor s).

(** Every push marks a cell of the grid that was not marked and no cell is
    ever unmarked, so the loop runs at most twice the number of cells plus
    a constant. *)
Definition attemptFuel : nat := 2 * Z.to_nat (GRID_WIDTH * GRID_HEIGHT) + 4.

Definition attemptPathGeneration (rng : source) (k : nat)
    : option (option (list Z) * nat) :=
  runLoop (attemptStep rng) attemptFuel (startState rng k).

Definition generateLoop (rng : source) : option (list Z * nat) :=
  retryLoop GRID_WIDTH GRID_HEIGHT PATH_LENGTH (attemptPathGeneration rng) maxAttempts 0 0.

Definition generatePath (rng : source) : option (list Z) :=
  fst <$> generateLoop rng.

End Generator.

End Classic.

(** ** The round state (both revisions) *)

Inductive gameMode : Type := IDLE | MEMORIZE | RECALL.

(** [gameState]; [peekCount] is a JS number that only ever counts up from 0
    by one, modelled as [nat]. *)
Record gameState : Type := GameState {
  pattern : list Z;
  userSelected : list Z;
  mode : gameMode;
  timerInterval : option nat;
  startTime : option Z;
  peekCount : nat
}.

Definition mode_eqb (a b : gameMode) : bool :=
  match a, b with
  | IDLE, IDLE | MEMORIZE, MEMORIZE | RECALL, RECALL => true
  | _, _ => false
  end.

(** [showPattern]: the calls to [updateStatus], [updateProgress] and
    [displayPattern] only write to the page and leave [gameState] alone. *)
Definition showPattern (g : gameState) : gameState :=
  let g1 :=
    if mode_eqb (mode g) RECALL
    then GameState (pattern g) (userSelected g) (mode g)
                   (timerInterval g) (startTime g) (S (peekCount g))
    else g in
  let g2 := GameState (pattern g1) (userSelected g1) MEMORIZE
                      (timerInterval g1) (startTime g1) (peekCount g1) in
  GameState (pattern g2) [] (mode g2)
            (timerInterval g2) (startTime g2) (peekCount g2).

(** [startRecall]. *)
Definition startRecall (g : gameState) : gameState :=
  GameState (pattern g) (userSelected g) RECALL
            (timerInterval g) (startTime g) (peekCount g).

(** ** Properties of paths *)

Section PathProperties.

Variable GRID_WIDTH : Z.

(** Manhattan distance between two cells, on the coordinates the program
    itself decodes. *)
Definition manhattan (a b : Z) : Z :=
  Z.abs (colOf GRID_WIDTH a - colOf GRID_WIDTH b)
  + Z.abs (rowOf GRID_WIDTH a - rowOf GRID_WIDTH b).

(** Every consecutive pair is 4-directionally adjacent. *)
Definition chained (p : list Z) : Prop :=
  ∀ (i : nat) (a b : Z), p !! i = Some a → p !! S i = Some b → manhattan a b = 1.

(** No two cells further apart in the sequence are 4-directionally
    adjacent. *)
Definition apart (p : list Z) : Prop :=
  ∀ (i j : nat) (a b : Z),
    p !! i = Some a → p !! j = Some b → (i + 1 < j)%nat → manhattan a b ≠ 1.

Definition untouched (p : list Z) : Prop :=
  ∀ (i j : nat) (a b : Z),
    p !! i = Some a → p !! j = Some b → (i + 1 < j ∨ j + 1 < i)%nat →
    manhattan a b ≠ 1.

End PathProperties.

(** The invariant of the walk that both search loops maintain. *)
Record walkOk (W : Z) (p : list Z) (v : gset Z) : Prop := WalkOk {
  walk_nonempty : p ≠ [];
  walk_marked : ∀ c, c ∈ p → c ∈ v;
  walk_nodup : NoDup p;
  walk_chained : chained W p;
  walk_apart : apart W p
}.

(** The scores never increase along the array. *)
Definition descending (l : list scoredTile) : Prop :=
  ∀ (i j : nat) (a b : scoredTile),
    l !! i = Some a → l !! j = Some b → (i < j)%nat → (score b ≤ score a)%nat.

(** Every cell is a cell of the grid. *)
Definition inGrid (W H : Z) (p : list Z) : Prop := ∀ c, In c p → 0 ≤ c < W * H.

(** ** Invariants and measures of the search loops *)

(** part_000: the visited set is the set of the cells of the path. *)
Definition lockstep (s : Responsive.search) : Prop :=
  NoDup (Responsive.path s) ∧
  Responsive.visited s = list_to_set (Responsive.path s).

(** part_000: twice the backtracks left plus the cells still to push; it
    decreases at every iteration. *)
Definition responsiveMeasure (L : nat) (s : Responsive.search) : nat :=
  2 * (Responsive.maxBacktracks - Responsive.backtrackCount s)
  + (L - length (Responsive.path s)).

(** part_000, at the head of iteration [n]: the iterations so far are pushes
    plus pops, the pops are the backtrack counter, and the path holds the
    start, plus the pushes, minus the pops. *)
Definition responsiveCount (L : nat) (n : nat) (s : Responsive.search) : Prop :=
  (n + 1 = length (Responsive.path s) + 2 * Responsive.backtrackCount s)%nat ∧
  (Responsive.backtrackCount s ≤ Responsive.maxBacktracks)%nat ∧
  (1 ≤ length (Responsive.path s))%nat ∧
  (length (Responsive.path s) ≤ Nat.max 1 L)%nat.

(** game.js: the cells of the grid not yet marked; twice their number plus
    the length of the path decreases at every iteration. *)
Definition gridCells (W H : Z) : list Z := map Z.of_nat (seq 0 (Z.to_nat (W * H))).

Definition unmarked (W H : Z) (v : gset Z) : nat :=
  length (List.filter (fun c => negb (bool_decide (c ∈ v))) (gridCells W H)).

Definition classicMeasure (W H : Z) (s : Classic.search) : nat :=
  2 * unmarked W H (Classic.visited s) + length (Classic.path s).

(** ** The outputs of the random source a run reads *)

(** Two sources give the same first [n] outputs. *)
Definition agreeBelow (rng1 rng2 : source) (n : nat) : Prop :=
  ∀ k, (k < n)%nat → rng1 k = rng2 k.

(** part_000: the outputs an attempt in state [s] can still read: one for
    each cell still to push, and one more for each backtrack still
    allowed. *)
Definition responsiveDrawsLeft (L : nat) (s : Responsive.search) : nat :=
  (L - length (Responsive.path s))
  + (Responsive.maxBacktracks - Responsive.backtrackCount s).

(** part_000: two outputs for the start cell and at most one for each
    push. *)
Definition responsiveAttemptDraws (L : nat) : nat :=
  2 + L + Responsive.maxBacktracks.

(** game.js: two outputs for the start cell and one for each push, which
    marks a cell of the grid not marked before. *)
Definition classicAttemptDraws (W H : Z) : nat := 2 + Z.to_nat (W * H).

(** The outputs a call of [generatePath] can read, in either revision. *)
Definition drawBudget (W H : Z) (L : nat) : nat :=
  Nat.max (Responsive.maxAttempts * responsiveAttemptDraws L)
          (Classic.maxAttempts * classicAttemptDraws W H).

(** ** The selection as the specification words it *)

Section Selection.

Variables GRID_WIDTH GRID_HEIGHT : Z.
Variable PATH_LENGTH : nat.

(** "Count of valid neighbors a candidate cell would have after being
    added." *)
Definition lookaheadScore (visited : gset Z) (path : list Z) (n : Z) : nat :=
  length (getValidNeighbors GRID_WIDTH GRID_HEIGHT n ({[ n ]} ∪ visited) (path ++ [n])).

(** "Discard candidates whose lookahead score is 0 unless the path is
    within 2 cells of the target length." *)
Definition specSurvivors (neighbors : list Z) (visited : gset Z) (path : list Z)
    : list scoredTile :=
  List.filter
    (fun s => negb (score s =? 0)%nat
              || (Z.of_nat PATH_LENGTH - Z.of_nat (length path) <=? 2))
    (map (fun n => Scored n (lookaheadScore visited path n)) neighbors).

(** "Among surviving candidates, sort descending by score, and choose
    uniformly at random among the top-K (K = min(3, survivor count)).  If a
    single neighbor exists, take it directly without scoring."  The cells
    the choice is made among, in the order the draw indexes them. *)
Definition specChoices (neighbors : list Z) (visited : gset Z) (path : list Z)
    : list Z :=
  match neighbors with
  | [n] => [n]
  | _ =>
      let survivors := specSurvivors neighbors visited path in
      map index (take (Nat.min 3 (length survivors)) (sortByScore survivors))
  end.

(** What [chooseNextTile] of game.js draws from: every candidate is scored
    against the path as it is, none is discarded, and the top half (rounded
    up) of the descending order is kept. *)
Definition classicChoices (neighbors : list Z) (visited : gset Z) (path : list Z)
    : list Z :=
  let scored :=
    sortByScore
      (map (fun n => Scored n (length (getValidNeighbors GRID_WIDTH GRID_HEIGHT n
                                         ({[ n ]} ∪ visited) path)))
           neighbors) in
  map index (take (Nat.div2 (S (length neighbors))) scored).

End Selection.

(** ** Concrete random sources *)

(** [Math.random()] returning 0 at every call. *)
Definition zeroSource : source := fun _ => Sample 0 0.

(** The draws 0, 0, ... up to the draw budget of the 12 x 8 grid with 36
    cells, and 1/2 at every later call. *)
Definition lateSource : source :=
  fun k => if (k <? drawBudget 12 8 36)%nat then Sample 0 0 else Sample 1 0.

(** The draws 0, 1/2, 0, 0, ...: [zeroSource] but for the second output. *)
Definition secondDrawSource : source :=
  fun k =>
    match k with
    | 1%nat => Sample 1 0
    | _ => Sample 0 0
    end.

(** The draws 0, 0, 1/2, 0, 0, ...: [zeroSource] but for the third output. *)
Definition thirdDrawSource : source :=
  fun k =>
    match k with
    | 2%nat => Sample 1 0
    | _ => Sample 0 0
    end.

(** The draws 1/4, 0, 0, 1/2, 0, 0, ...: in part_000 they lead the walk
    from cell 15 to cell 1 on the top row, next to the top-left corner. *)
Definition pocketSource : source :=
  fun k =>
    match k with
    | 0%nat => Sample 1 2
    | 3%nat => Sample 1 0
    | _ => Sample 0 0
    end.

(** The draws 3/16, 3/16, 1/2, 1/2, 0, 0, ...: in game.js they lead the
    walk from cell 14 into the corner cell 0, a dead end. *)
Definition backtrackSource : source :=
  fun k =>
    match k with
    | 0%nat | 1%nat => Sample 3 12
    | 2%nat | 3%nat => Sample 1 0
    | _ => Sample 0 0
    end.

(** ** The snake in closed form *)

(** The [i]-th cell of the boustrophedon order on rows of [W] cells: even
    rows run left to right, odd rows right to left. *)
Definition snakeCell (W : Z) (i : nat) : Z :=
  let r := Z.of_nat i / W in
  let c := Z.of_nat i mod W in
  r * W + (if Z.even r then c else W - 1 - c).

Definition snakeCells (W : Z) (k : nat) : list Z := map (snakeCell W) (seq 0 k).

(** The variables of the loop of [generateSnakePath] when [k] cells are
    pushed and more are wanted. *)
Definition snakeState (W H : Z) (k : nat) (x y d : Z) : Prop :=
  y = Z.of_nat k / W ∧
  x = (if Z.even y then Z.of_nat k mod W else W - 1 - Z.of_nat k mod W) ∧
  d = (if Z.even y then 1 else -1) ∧
  y < H.

(** ** The page: round state, grid and timers

    What the event handlers read and write besides [gameState]: the grid
    dimensions ([let] variables in part_000, constants 12 and 8 in game.js),
    the [disabled] class of every tile, and the interval timers that are
    running.  [setInterval] is the browser's: it returns a handle that no
    running timer has, a positive integer; [nextInterval] stands for the
    browser's supply of handles, and all the proofs use of a new handle is
    that it is positive.  The other classes of the tiles ([green], [wrong],
    [user-selected]), the texts, the buttons and the modals are written and
    never read by the program, and the callbacks of [setInterval] and
    [setTimeout] only write them; they are left out.  A disabled button
    sends no click: the sequences of events the theorems range over include
    all those the page allows. *)

Module Game.

Definition PATH_LENGTH : nat := 36.

Record page : Type := Page {
  state : gameState;
  GRID_WIDTH : Z;
  GRID_HEIGHT : Z;
  (** the [disabled] class of the tiles of [grid], in document order *)
  tiles : list bool;
  (** the handles of the running interval timers *)
  intervals : gset nat;
  (** the handle the next [setInterval] returns *)
  nextInterval : nat
}.

Definition withState (p : page) (g : gameState) : page :=
  Page g (GRID_WIDTH p) (GRID_HEIGHT p) (tiles p) (intervals p) (nextInterval p).

Definition withTiles (p : page) (t : list bool) : page :=
  Page (state p) (GRID_WIDTH p) (GRID_HEIGHT p) t (intervals p) (nextInterval p).

(** [createGrid]: [GRID_WIDTH * GRID_HEIGHT] tiles of class [tile disabled];
    tile [i] carries [dataset.index = i]. *)
Definition createGrid (p : page) : page :=
  let totalTiles := GRID_WIDTH p * GRID_HEIGHT p in
  withTiles p (repeat true (Z.to_nat totalTiles)).

Definition enableTiles (p : page) : page :=
  withTiles p (map (fun _ => false) (tiles p)).

Definition disableTiles (p : page) : page :=
  withTiles p (map (fun _ => true) (tiles p)).

(** [clearInterval(handle)]; [null] and the handles of no running timer are
    ignored. *)
Definition clearInterval (handle : option nat) (p : page) : page :=
  match handle with
  | Some h =>
      Page (state p) (GRID_WIDTH p) (GRID_HEIGHT p) (tiles p)
           (intervals p ∖ {[ h ]}) (nextInterval p)
  | None => p
  end.

(** [if (gameState.timerInterval)]: [null] and 0 are falsy. *)
Definition truthy (handle : option nat) : bool :=
  match handle with
  | Some (S _) => true
  | _ => false
  end.

(** [startTimer]. *)
Definition startTimer (p : page) : page :=
  let g := state p in
  let h := nextInterval p in
  Page (GameState (pattern g) (userSelected g) (mode g) (Some h) (startTime g) (peekCount g))
       (GRID_WIDTH p) (GRID_HEIGHT p) (tiles p) ({[ h ]} ∪ intervals p) (S h).

(** [winGame]. *)
Definition winGame (p : page) : page :=
  let g := state p in
  let p := withState p (GameState (pattern g) (userSelected g) IDLE
                                  (timerInterval g) (startTime g) (peekCount g)) in
  clearInterval (timerInterval (state p)) p.

(** [loseGame]. *)
Definition loseGame (p : page) : page :=
  let g := state p in
  let p := withState p (GameState (pattern g) (userSelected g) IDLE
                                  (timerInterval g) (startTime g) (peekCount g)) in
  let p := clearInterval (timerInterval (state p)) p in
  disableTiles p.

(** [resetGame]. *)
Definition resetGame (p : page) : page :=
  let g := state p in
  let p := withState p (GameState [] [] IDLE (timerInterval g) (startTime g) 0) in
  let p := if truthy (timerInterval (state p))
           then clearInterval (timerInterval (state p)) p else p in
  disableTiles p.

(** [showPattern] and [startRecall] on the page. *)
Definition showPattern (p : page) : page := withState p (showPattern (state p)).

Definition startRecall (p : page) : page :=
  enableTiles (withState p (startRecall (state p))).

(** [handleTileClick].  [target] is the position in the grid of the tile the
    event falls on ([e.target.closest('.tile')] in part_000, [e.target]
    itself when it has the class [tile] in game.js; the tiles have no
    children), [None] when it falls on no tile; [parseInt] of that tile's
    [dataset.index] is its position. *)
Definition handleTileClick (target : option nat) (p : page) : page :=
  match target with
  | None => p
  | Some i =>
      match (tiles p !! i : option bool) with
      | None => p
      | Some disabled =>
          if negb (mode_eqb (mode (state p)) RECALL) then p
          else if disabled then p
          else
            let index := Z.of_nat i in
            if bool_decide (index ∈ userSelected (state p)) then p
            else if bool_decide (index ∈ pattern (state p)) then
              let g := state p in
              let p := withState p (GameState (pattern g) (userSelected g ++ [index]) (mode g)
                                              (timerInterval g) (startTime g) (peekCount g)) in
              if (length (userSelected (state p)) =? PATH_LENGTH)%nat then winGame p else p
            else loseGame p
      end
  end.

(** What the listeners of [bindEvents] and [init] are called with: the
    button and the tile clicks, and the (debounced) resize of the window.
    [mobile] is what [isMobileView()] answers during the call, [rng] the
    outputs [Math.random()] gives from the call on, [now] the value of
    [Date.now()]. *)
Inductive event : Type :=
| StartGame (mobile : bool) (rng : source) (now : Z)
| ShowPattern
| StartRecall
| TileClick (target : option nat)
| ResetGame
| Resize (mobile : bool).

Fixpoint run (handle : event → page → option page) (events : list event) (p : page)
    : option page :=
  match events with
  | [] => Some p
  | e :: rest => p' ← handle e p; run handle rest p'
  end.

(** The page before [init]: [gameState] as declared, no tile, no timer. *)
Definition blank : page :=
  Page (GameState [] [] IDLE None None 0) 12 8 [] ∅ 1.

End Game.

(** part_000. *)
Module ResponsiveGame.

Import Game.

Definition setGridDimensions (mobile : bool) (p : page) : page :=
  if mobile
  then Page (state p) 8 12 (tiles p) (intervals p) (nextInterval p)
  else Page (state p) 12 8 (tiles p) (intervals p) (nextInterval p).

Definition handleResize (shouldBeMobile : bool) (p : page) : page :=
  let currentlyMobile := GRID_WIDTH p =? 8 in
  if negb (Bool.eqb currentlyMobile shouldBeMobile) && mode_eqb (mode (state p)) IDLE
  then createGrid (setGridDimensions shouldBeMobile p)
  else p.

Definition startGame (mobile : bool) (rng : source) (now : Z) (p : page) : option page :=
  let p := setGridDimensions mobile p in
  let p := createGrid p in
  generated ← Responsive.generatePath (GRID_WIDTH p) (GRID_HEIGHT p) PATH_LENGTH rng;
  let g := state p in
  let p := withState p (GameState generated [] MEMORIZE (timerInterval g) (startTime g) 0) in
  let p := if truthy (timerInterval (state p))
           then clearInterval (timerInterval (state p)) p else p in
  let g := state p in
  let p := withState p (GameState (pattern g) (userSelected g) (mode g)
                                  (timerInterval g) (Some now) (peekCount g)) in
  let p := startTimer p in
  Some (enableTiles p).

Definition init (mobile : bool) : page := createGrid (setGridDimensions mobile blank).

Definition handle (e : event) (p : page) : option page :=
  match e with
  | StartGame mobile rng now => startGame mobile rng now p
  | ShowPattern => Some (showPattern p)
  | StartRecall => Some (startRecall p)
  | TileClick target => Some (handleTileClick target p)
  | ResetGame => Some (resetGame p)
  | Resize mobile => Some (handleResize mobile p)
  end.

End ResponsiveGame.

(** game.js: the grid is 12 x 8 for good, and nothing listens to the
    resize of the window. *)
Module ClassicGame.

Import Game.

Definition startGame (rng : source) (now : Z) (p : page) : option page :=
  generated ← Classic.generatePath 12 8 PATH_LENGTH rng;
  let g := state p in
  let p := withState p (GameState generated [] MEMORIZE (timerInterval g) (startTime g) 0) in
  let p := if truthy (timerInterval (state p))
           then clearInterval (timerInterval (state p)) p else p in
  let g := state p in
  let p := withState p (GameState (pattern g) (userSelected g) (mode g)
                                  (timerInterval g) (Some now) (peekCount g)) in
  let p := startTimer p in
  Some (enableTiles p).

Definition init : page := createGrid blank.

Definition handle (e : event) (p : page) : option page :=
  match e with
  | StartGame _ rng now => startGame rng now p
  | ShowPattern => Some (showPattern p)
  | StartRecall => Some (startRecall p)
  | TileClick target => Some (handleTileClick target p)
  | ResetGame => Some (resetGame p)
  | Resize _ => Some p
  end.

End ClassicGame.

(** ** The invariant of the page *)

(** What holds of the page after [init] and after every listener: the
    selection is a part of the pattern without repetition, the pattern is
    empty or [PATH_LENGTH] different tiles of the grid, the grid has 96
    tiles in one of its two shapes, and the only timer that can be running
    is the one [gameState.timerInterval] names, and none runs when the mode
    is IDLE. *)
Record pageOk (p : Game.page) : Prop := PageOk {
  ok_selected_nodup : NoDup (userSelected (Game.state p));
  ok_selected_pattern :
    ∀ c, c ∈ userSelected (Game.state p) → c ∈ pattern (Game.state p);
  ok_pattern :
    pattern (Game.state p) = [] ∨
    (length (pattern (Game.state p)) = Game.PATH_LENGTH ∧ NoDup (pattern (Game.state p)));
  ok_pattern_tiles :
    ∀ c, c ∈ pattern (Game.state p) → 0 ≤ c < Z.of_nat (length (Game.tiles p));
  ok_tiles : length (Game.tiles p) = 96%nat;
  ok_grid :
    (Game.GRID_WIDTH p = 12 ∧ Game.GRID_HEIGHT p = 8) ∨
    (Game.GRID_WIDTH p = 8 ∧ Game.GRID_HEIGHT p = 12);
  ok_timer :
    ∀ h, h ∈ Game.intervals p →
         timerInterval (Game.state p) = Some h ∧ (1 ≤ h < Game.nextInterval p)%nat;
  ok_next : (1 ≤ Game.nextInterval p)%nat;
  ok_idle : mode (Game.state p) = IDLE → Game.intervals p = ∅
}.

(** The page [startGame] leaves, on a page with its grid in place, once
    [generatePath] has returned [generated]. *)
Definition roundStarted (generated : list Z) (now : Z) (p : Game.page) : Game.page :=
  Game.Page
    (GameState generated [] MEMORIZE (Some (Game.nextInterval p)) (Some now) 0)
    (Game.GRID_WIDTH p) (Game.GRID_HEIGHT p)
    (map (fun _ => false) (Game.tiles p))
    ({[ Game.nextInterval p ]} ∪
     Game.intervals (if Game.truthy (timerInterval (Game.state p))
                     then Game.clearInterval (timerInterval (Game.state p)) p else p))
    (S (Game.nextInterval p)).

(** The clicks on the tiles of the cells [q], in that order. *)
Definition clicksOn (q : list Z) : list Game.event :=
  map (fun c => Game.TileClick (Some (Z.to_nat c))) q.

(** * Proofs *)

(** Arithmetic on the lengths of appended lists. *)
Ltac list_len :=
  repeat match goal with
         | H : context [length (_ ++ _)] |- _ => rewrite length_app in H
         end;
  rewrite ?length_app; simpl length in *; lia.

(** ** The random source *)

Lemma denom_pos (u : sample) : 0 < denom u.
Proof. unfold denom. lia. Qed.

Lemma numer_lt_denom (u : sample) : Z.of_nat (numer u) < denom u.
Proof. unfold denom. lia. Qed.

Lemma floorMul_range (u : sample) (n : Z) : 0 < n → 0 ≤ floorMul u n < n.
Proof.
  intros Hn. unfold floorMul.
  pose proof (denom_pos u) as Hd. pose proof (numer_lt_denom u) as Hlt.
  split.
  - apply Z.div_pos; lia.
  - apply Z.div_lt_upper_bound; nia.
Qed.

Lemma floorMul_0 (u : sample) : floorMul u 0 = 0.
Proof. unfold floorMul. rewrite Z.mul_0_r. apply Z.div_0_l. pose proof (denom_pos u). lia. Qed.

(** [Math.floor(u * n) = j] exactly when [u * n] lies in [[j, j+1)]. *)
Lemma floorMul_spec (u : sample) (n j : Z) :
  floorMul u n = j ↔
  j * denom u ≤ Z.of_nat (numer u) * n < (j + 1) * denom u.
Proof.
  unfold floorMul. pose proof (denom_pos u) as Hd. split.
  - intros <-.
    pose proof (Z.mul_div_le (Z.of_nat (numer u) * n) (denom u) Hd).
    pose proof (Z.mul_succ_div_gt (Z.of_nat (numer u) * n) (denom u) Hd).
    lia.
  - intros [Hlo Hhi]. symmetry. apply (Z.div_unique_pos _ _ j (Z.of_nat (numer u) * n - j * denom u)); lia.
Qed.

Lemma pick_In {A : Type} (d : A) (arr : list A) (u : sample) :
  arr ≠ [] → In (pick d arr u) arr.
Proof.
  intros Hne. unfold pick. apply nth_In.
  assert (0 < Z.of_nat (length arr)) as Hlen by (destruct arr; [done | simpl; lia]).
  pose proof (floorMul_range u _ Hlen). lia.
Qed.

Lemma In_take {A : Type} (x : A) (n : nat) (l : list A) : In x (take n l) → In x l.
Proof. intros Hx. rewrite <- (firstn_skipn n l). apply in_or_app. by left. Qed.

(** The set of the cells of an array after a push and after a pop. *)
Lemma cells_push (p : list Z) (n : Z) :
  {[ n ]} ∪ list_to_set p = (list_to_set (p ++ [n]) : gset Z).
Proof.
  apply set_eq. intros x.
  rewrite elem_of_union, elem_of_singleton, !elem_of_list_to_set,
    elem_of_app, list_elem_of_singleton.
  tauto.
Qed.

Lemma cells_pop (q : list Z) (c : Z) :
  c ∉ q → (list_to_set (q ++ [c]) : gset Z) ∖ {[ c ]} = list_to_set q.
Proof.
  intros Hc. apply set_eq. intros x.
  rewrite elem_of_difference, elem_of_singleton, !elem_of_list_to_set,
    elem_of_app, list_elem_of_singleton.
  split.
  - intros [[Hx | Hx] Hne]; [done | contradiction].
  - intros Hx. split; [by left |]. intros ->. contradiction.
Qed.

Lemma cells_single (c : Z) : {[ c ]} ∪ ∅ = (list_to_set [c] : gset Z).
Proof. reflexivity. Qed.

(** ** Grid arithmetic *)

Section GridFacts.

Variable W : Z.

Lemma decode_col (x y : Z) : 0 ≤ x < W → 0 ≤ y → colOf W (y * W + x) = x.
Proof.
  intros Hx Hy. unfold colOf.
  rewrite Z.rem_mod_nonneg by nia.
  rewrite Z.add_comm, Z.mod_add by lia. apply Z.mod_small. lia.
Qed.

Lemma decode_row (x y : Z) : 0 ≤ x < W → rowOf W (y * W + x) = y.
Proof.
  intros Hx. unfold rowOf.
  rewrite Z.add_comm, Z.div_add by lia. rewrite Z.div_small by lia. lia.
Qed.

Lemma manhattan_sym (a b : Z) : manhattan W a b = manhattan W b a.
Proof. unfold manhattan. lia. Qed.

Lemma touches_manhattan (a b : Z) : touches W a b = true ↔ manhattan W a b = 1.
Proof.
  unfold touches, manhattan.
  rewrite orb_true_iff, !andb_true_iff, !Z.eqb_eq. lia.
Qed.

(** The grid is bipartite: two cells adjacent to a common cell are not
    adjacent to each other. *)
Lemma manhattan_no_triangle (a b c : Z) :
  manhattan W a b = 1 → manhattan W b c = 1 → manhattan W a c ≠ 1.
Proof. unfold manhattan. lia. Qed.

End GridFacts.

(** ** The neighbour scan and the loop check *)

Section ScanFacts.

Variables W H : Z.

Lemma scanDirection_In (x y : Z) (v : gset Z) (p : list Z) (d : Z * Z) (n : Z) :
  In n (scanDirection W H x y v p d) →
  0 ≤ x + fst d < W ∧ 0 ≤ y + snd d < H ∧
  n = (y + snd d) * W + (x + fst d) ∧ (n ∉ v) ∧ (wouldCreateLoop W n x y p = false).
Proof.
  unfold scanDirection.
  destruct ((0 <=? x + fst d) && (x + fst d <? W) && (0 <=? y + snd d)
            && (y + snd d <? H)) eqn:Hb; [| intros []].
  rewrite !andb_true_iff in Hb. destruct Hb as [[[H1 H2] H3] H4].
  case_bool_decide as Hv; [intros [] |].
  destruct (wouldCreateLoop W _ x y p) eqn:Hl; [intros [] |].
  intros [<- | []]. repeat split; try lia; assumption.
Qed.

Lemma getValidNeighbors_In (cur : Z) (v : gset Z) (p : list Z) (n : Z) :
  In n (getValidNeighbors W H cur v p) →
  0 ≤ n < W * H ∧ (n ∉ v) ∧
  (wouldCreateLoop W n (colOf W cur) (rowOf W cur) p = false) ∧
  manhattan W cur n = 1.
Proof.
  unfold getValidNeighbors. rewrite in_flat_map. intros [d [Hd Hn]].
  apply scanDirection_In in Hn. destruct Hn as (Hx & Hy & -> & Hv & Hl).
  repeat split; try assumption; try nia.
  unfold manhattan. rewrite decode_col, decode_row by lia.
  unfold directions in Hd. simpl in Hd.
  destruct Hd as [<- | [<- | [<- | [<- | []]]]]; simpl; lia.
Qed.

(** The loop check of a path of three or more cells compares the candidate
    with every cell but the last. *)
Lemma wouldCreateLoop_snoc (n x y : Z) (q : list Z) (c a : Z) :
  wouldCreateLoop W n x y (q ++ [c]) = false →
  (2 ≤ length q)%nat → a ∈ q → manhattan W n a ≠ 1.
Proof.
  unfold wouldCreateLoop. rewrite length_app. simpl.
  destruct (length q + 1 <? 3)%nat eqn:Hlt; [apply Nat.ltb_lt in Hlt; lia |].
  replace (length q + 1 - 1)%nat with (length q) by lia.
  rewrite take_app_length. intros Hex _ Ha Hm.
  apply touches_manhattan in Hm.
  assert (existsb (touches W n) q = true) as Habs.
  { apply existsb_exists. exists a. split; [by apply list_elem_of_In | done]. }
  congruence.
Qed.

End ScanFacts.

(** ** The walk invariant *)

Section WalkFacts.

Variables W H : Z.

Lemma lastCell_snoc (q : list Z) (c : Z) : lastCell (q ++ [c]) = c.
Proof. unfold lastCell. apply last_last. Qed.

Lemma removelast_snoc (q : list Z) (c : Z) : removelast (q ++ [c]) = q.
Proof. apply removelast_last. Qed.

Lemma snoc_cases (p : list Z) : p ≠ [] → ∃ q c, p = q ++ [c].
Proof. intros Hp. destruct (exists_last Hp) as (q & c & ->). eauto. Qed.

Lemma chained_snoc (q : list Z) (c n : Z) :
  chained W (q ++ [c]) → manhattan W c n = 1 → chained W ((q ++ [c]) ++ [n]).
Proof.
  intros Hch Hm i a b Ha Hb.
  destruct (decide (S i < length (q ++ [c]))%nat) as [Hlt | Hge].
  - rewrite lookup_app_l in Ha by lia. rewrite lookup_app_l in Hb by lia. eauto.
  - assert (S i < length ((q ++ [c]) ++ [n]))%nat as Hi by (eapply lookup_lt_Some; eauto).
    assert (i = length q) as -> by list_len.
    rewrite lookup_app_l in Ha by list_len.
    rewrite list_lookup_middle in Ha by done.
    replace (S (length q)) with (length (q ++ [c])) in Hb by list_len.
    rewrite list_lookup_middle in Hb by done.
    congruence.
Qed.

Lemma chained_prefix (q : list Z) (c : Z) : chained W (q ++ [c]) → chained W q.
Proof.
  intros Hch i a b Ha Hb. apply (Hch i).
  - rewrite lookup_app_l; [done | eapply lookup_lt_Some; eauto].
  - rewrite lookup_app_l; [done | eapply lookup_lt_Some; eauto].
Qed.

Lemma apart_prefix (q : list Z) (c : Z) : apart W (q ++ [c]) → apart W q.
Proof.
  intros Hap i j a b Ha Hb Hij. apply (Hap i j); [| | done].
  - rewrite lookup_app_l; [done | eapply lookup_lt_Some; eauto].
  - rewrite lookup_app_l; [done | eapply lookup_lt_Some; eauto].
Qed.

Lemma apart_untouched (p : list Z) : apart W p → untouched W p.
Proof.
  intros Hap i j a b Ha Hb [Hij | Hji]; [eauto |].
  rewrite manhattan_sym. eauto.
Qed.

(** Pushing a cell returned by the neighbour scan keeps the walk valid;
    for a path of one or two cells, where the loop check is skipped, the
    grid being bipartite does the work. *)
Lemma walkOk_push (p : list Z) (v : gset Z) (n : Z) :
  walkOk W p v →
  In n (getValidNeighbors W H (lastCell p) v p) →
  walkOk W (p ++ [n]) ({[ n ]} ∪ v).
Proof.
  intros [Hne Hmark Hnd Hch Hap] Hn.
  apply getValidNeighbors_In in Hn. destruct Hn as (_ & Hv & Hloop & Hadj).
  destruct (snoc_cases p Hne) as (q & c & ->). rewrite lastCell_snoc in *.
  constructor.
  - intros Heq. apply app_eq_nil in Heq. destruct Heq; discriminate.
  - intros x Hx. apply elem_of_app in Hx.
    destruct Hx as [Hx | Hx]; [apply elem_of_union_r; by apply Hmark |].
    apply list_elem_of_singleton in Hx. subst x. apply elem_of_union_l. by apply elem_of_singleton.
  - apply NoDup_app. split; [done |]. split.
    + intros x Hx Hx'. apply list_elem_of_singleton in Hx'. subst x. apply Hv. eauto.
    + apply NoDup_singleton.
  - by apply chained_snoc.
  - intros i j a b Ha Hb Hij.
    destruct (decide (j < length (q ++ [c]))%nat) as [Hlt | Hge].
    + rewrite lookup_app_l in Ha by lia. rewrite lookup_app_l in Hb by lia. eauto.
    + assert (j < length ((q ++ [c]) ++ [n]))%nat as Hj by (eapply lookup_lt_Some; eauto).
      assert (j = length (q ++ [c])) as -> by list_len.
      rewrite list_lookup_middle in Hb by done. injection Hb as <-.
      rewrite <- app_assoc in Ha. rewrite lookup_app_l in Ha by list_len.
      assert (a ∈ q) as Haq by (apply list_elem_of_lookup; eauto).
      destruct (decide (2 ≤ length q)%nat) as [Hlen | Hshort].
      * rewrite manhattan_sym. eapply wouldCreateLoop_snoc; eauto.
      * (* the path has two cells: a, c *)
        assert (i = 0%nat) as -> by list_len.
        destruct q as [| a' [| ? ?]]; simpl in *; try lia.
        injection Ha as ->.
        assert (manhattan W a c = 1) as Hac by (by apply (Hch 0%nat)).
        eapply manhattan_no_triangle; eauto.
Qed.

(** Popping the last cell keeps the walk valid, whether the cell stays
    marked (game.js) or is unmarked (part_000). *)
Lemma walkOk_pop_keep (p : list Z) (v : gset Z) :
  walkOk W p v → (1 < length p)%nat → walkOk W (removelast p) v.
Proof.
  intros [Hne Hmark Hnd Hch Hap] Hlen.
  destruct (snoc_cases p Hne) as (q & c & ->). rewrite removelast_snoc.
  rewrite length_app in Hlen. simpl in Hlen.
  constructor.
  - intros ->. simpl in Hlen. lia.
  - intros x Hx. apply Hmark. apply elem_of_app. by left.
  - by apply NoDup_app in Hnd as (? & _ & _).
  - by eapply chained_prefix.
  - by eapply apart_prefix.
Qed.

Lemma walkOk_pop_delete (p : list Z) (v : gset Z) :
  walkOk W p v → (1 < length p)%nat →
  walkOk W (removelast p) (v ∖ {[ lastCell p ]}).
Proof.
  intros Hok Hlen. pose proof (walkOk_pop_keep p v Hok Hlen) as [Hne Hmark Hnd Hch Hap].
  constructor; try done.
  intros x Hx. apply elem_of_difference. split; [by apply Hmark |].
  destruct Hok as [Hne' _ Hnd' _ _].
  destruct (snoc_cases p Hne') as (q & c & ->).
  rewrite removelast_snoc in Hx. rewrite lastCell_snoc.
  apply NoDup_app in Hnd' as (_ & Hdisj & _).
  intros Hc. apply elem_of_singleton in Hc. subst x.
  apply (Hdisj c Hx). by apply list_elem_of_singleton.
Qed.

Lemma walkOk_start (c : Z) : walkOk W [c] ({[ c ]} ∪ ∅).
Proof.
  constructor.
  - done.
  - intros x Hx. apply list_elem_of_singleton in Hx. subst x.
    apply elem_of_union_l. by apply elem_of_singleton.
  - apply NoDup_singleton.
  - intros i a b Ha Hb. destruct i; discriminate.
  - intros i j a b Ha Hb Hij. destruct j as [| j]; [lia |]. discriminate.
Qed.

End WalkFacts.

(** ** Loops *)

Section LoopFacts.

Context {St : Type}.
Variable body : St → step St.
Variable Inv : St → Prop.
Variable measure : St → nat.

Hypothesis Inv_step : ∀ s s', Inv s → body s = Next s' → Inv s'.

Lemma stateAt_inv (n : nat) (s s' : St) :
  Inv s → stateAt body n s = Some s' → Inv s'.
Proof.
  revert s. induction n as [| n IH]; simpl; intros s Hs Hat.
  - by injection Hat as <-.
  - destruct (body s) as [s1 | r k] eqn:Hb; [| discriminate]. eauto.
Qed.

Lemma runLoop_inv (fuel : nat) (s : St) (r : option (list Z)) (k : nat) :
  Inv s → runLoop body fuel s = Some (r, k) →
  ∃ n s', stateAt body n s = Some s' ∧ Inv s' ∧ body s' = Return r k.
Proof.
  revert s. induction fuel as [| fuel IH]; simpl; intros s Hs Hrun; [discriminate |].
  destruct (body s) as [s1 | r1 k1] eqn:Hb.
  - destruct (IH s1 (Inv_step _ _ Hs Hb) Hrun) as (n & s' & Hat & Hinv & Hret).
    exists (S n), s'. simpl. rewrite Hb. eauto.
  - injection Hrun as <- <-. exists 0%nat, s. eauto.
Qed.

Hypothesis measure_step :
  ∀ s s', Inv s → body s = Next s' → (measure s' < measure s)%nat.

(** A loop whose measure decreases at every iteration returns as soon as
    the fuel exceeds the measure. *)
Lemma runLoop_returns (fuel : nat) (s : St) :
  Inv s → (measure s < fuel)%nat → is_Some (runLoop body fuel s).
Proof.
  revert s. induction fuel as [| fuel IH]; simpl; intros s Hs Hm; [lia |].
  destruct (body s) as [s1 | r1 k1] eqn:Hb; [| by eexists].
  apply IH; [eauto |]. specialize (measure_step _ _ Hs Hb). lia.
Qed.

(** The number of iterations run so far is bounded by the decrease of the
    measure. *)
Lemma stateAt_measure (n : nat) (s s' : St) :
  Inv s → stateAt body n s = Some s' → (n + measure s' ≤ measure s)%nat.
Proof.
  revert s. induction n as [| n IH]; simpl; intros s Hs Hat.
  - injection Hat as <-. lia.
  - destruct (body s) as [s1 | r k] eqn:Hb; [| discriminate].
    specialize (IH s1 (Inv_step _ _ Hs Hb) Hat).
    specialize (measure_step _ _ Hs Hb). lia.
Qed.

End LoopFacts.

(** ** The descending sort *)

Lemma insertByScore_perm (s : scoredTile) (l : list scoredTile) :
  insertByScore s l ≡ₚ s :: l.
Proof.
  induction l as [| t r IH]; simpl; [done |].
  destruct (score s <? score t)%nat; [| done].
  rewrite IH. apply perm_swap.
Qed.

Lemma sortByScore_perm (l : list scoredTile) : sortByScore l ≡ₚ l.
Proof.
  induction l as [| s l IH]; simpl; [done |].
  rewrite insertByScore_perm. by rewrite IH.
Qed.

Lemma sortByScore_length (l : list scoredTile) : length (sortByScore l) = length l.
Proof. apply Permutation_length, sortByScore_perm. Qed.

Lemma sortByScore_In (s : scoredTile) (l : list scoredTile) :
  In s (sortByScore l) → In s l.
Proof. apply Permutation_in, sortByScore_perm. Qed.

Lemma descending_cons (s : scoredTile) (l : list scoredTile) :
  descending l → (∀ t, In t l → (score t ≤ score s)%nat) → descending (s :: l).
Proof.
  intros Hd Hs i j a b Ha Hb Hij.
  destruct j as [| j]; [lia |]. simpl in Hb.
  destruct i as [| i]; simpl in Ha.
  - injection Ha as <-. apply Hs. apply list_elem_of_In, list_elem_of_lookup. eauto.
  - apply (Hd i j); [done | done | lia].
Qed.

Lemma descending_tail (s : scoredTile) (l : list scoredTile) :
  descending (s :: l) → descending l.
Proof. intros Hd i j a b Ha Hb Hij. apply (Hd (S i) (S j)); [done | done | lia]. Qed.

Lemma descending_head (s t : scoredTile) (l : list scoredTile) :
  descending (s :: l) → In t l → (score t ≤ score s)%nat.
Proof.
  intros Hd Ht. apply list_elem_of_In, list_elem_of_lookup in Ht. destruct Ht as [j Hj].
  apply (Hd 0%nat (S j)); [done | done | lia].
Qed.

Lemma insertByScore_descending (s : scoredTile) (l : list scoredTile) :
  descending l → descending (insertByScore s l).
Proof.
  induction l as [| t r IH]; simpl; intros Hd.
  - apply descending_cons; [done | intros ? []].
  - destruct (score s <? score t)%nat eqn:Hlt.
    + apply Nat.ltb_lt in Hlt. apply descending_cons.
      * apply IH. by eapply descending_tail.
      * intros u Hu. apply (Permutation_in _ (insertByScore_perm s r)) in Hu.
        destruct Hu as [<- | Hu]; [lia |]. by eapply descending_head.
    + apply Nat.ltb_ge in Hlt. apply descending_cons; [done |].
      intros u [<- | Hu]; [done |].
      pose proof (descending_head _ _ _ Hd Hu). lia.
Qed.

Lemma sortByScore_descending (l : list scoredTile) : descending (sortByScore l).
Proof.
  induction l as [| s l IH]; simpl.
  - intros i j a b Ha. destruct i; discriminate.
  - by apply insertByScore_descending.
Qed.

(** ** The responsive revision *)

Section ResponsiveFacts.

Import Responsive.

Variables W H : Z.
Variable L : nat.

Lemma viable_In (v : gset Z) (p : list Z) (neighbors : list Z) (s : scoredTile) :
  In s (List.filter (Responsive.isViable L p) (map (Responsive.scoreOf W H v p) neighbors)) →
  In (index s) neighbors.
Proof.
  intros Hs. apply filter_In in Hs as [Hs _].
  apply in_map_iff in Hs as (n & <- & Hn). done.
Qed.

(** Whatever branch is taken, the chosen cell is one of the candidates. *)
Lemma responsive_choose_In (neighbors : list Z) (v : gset Z) (p : list Z)
    (rng : source) (k : nat) :
  neighbors ≠ [] →
  In (fst (Responsive.chooseNextTile W H L neighbors v p rng k)) neighbors.
Proof.
  intros Hne. unfold Responsive.chooseNextTile.
  destruct (length neighbors =? 1)%nat eqn:Hone.
  - simpl. apply nth_In. apply Nat.eqb_eq in Hone. lia.
  - set (viable := List.filter _ _).
    destruct (length viable =? 0)%nat eqn:Hv; simpl.
    + by apply pick_In.
    + apply Nat.eqb_neq in Hv.
      apply (viable_In v p). fold viable.
      apply sortByScore_In.
      apply (In_take _ (Nat.min 3 (length (sortByScore viable)))).
      apply pick_In. intros Hnil.
      apply (f_equal length) in Hnil. rewrite length_take, sortByScore_length in Hnil.
      change (length []) with 0%nat in Hnil. lia.
Qed.

(** The two ways an iteration goes on: a pop or a push. *)
Lemma responsive_step_Next (rng : source) (s s' : search) :
  attemptStep W H L rng s = Next s' →
  (length (path s) < L)%nat ∧ (backtrackCount s < maxBacktracks)%nat ∧
  ((getValidNeighbors W H (lastCell (path s)) (visited s) (path s) = [] ∧
    (1 < length (path s))%nat ∧
    s' = Search (removelast (path s)) (visited s ∖ {[ lastCell (path s) ]})
                (S (backtrackCount s)) (cursor s))
   ∨ (∃ n k',
        In n (getValidNeighbors W H (lastCell (path s)) (visited s) (path s)) ∧
        s' = Search (path s ++ [n]) ({[ n ]} ∪ visited s) (backtrackCount s) k')).
Proof.
  unfold attemptStep.
  destruct ((length (path s) <? L)%nat && (backtrackCount s <? maxBacktracks)%nat) eqn:Hc;
    [| discriminate].
  apply andb_true_iff in Hc as [Hlen Hbc].
  apply Nat.ltb_lt in Hlen. apply Nat.ltb_lt in Hbc.
  set (neighbors := getValidNeighbors W H _ _ _).
  destruct (length neighbors =? 0)%nat eqn:Hn.
  - apply Nat.eqb_eq in Hn. apply length_zero_iff_nil in Hn.
    destruct (length (path s) <=? 1)%nat eqn:Hone; [discriminate |].
    apply Nat.leb_gt in Hone. intros [= <-].
    split; [done |]. split; [done |]. left. done.
  - apply Nat.eqb_neq in Hn.
    assert (neighbors ≠ []) as Hne by (intros Heq; rewrite Heq in Hn; simpl in Hn; lia).
    pose proof (responsive_choose_In neighbors (visited s) (path s) rng (cursor s) Hne) as Hin.
    destruct (chooseNextTile W H L neighbors (visited s) (path s) rng (cursor s)) as [next k'].
    intros [= <-]. simpl in Hin. split; [done |]. split; [done |]. right. eauto.
Qed.

(** The walk invariant holds at the head of every iteration. *)
Lemma responsive_walk_step (rng : source) (s s' : search) :
  walkOk W (path s) (visited s) → attemptStep W H L rng s = Next s' →
  walkOk W (path s') (visited s').
Proof.
  intros Hok Hstep. apply responsive_step_Next in Hstep.
  destruct Hstep as (_ & _ & [(_ & Hlen & ->) | (n & k' & Hn & ->)]); simpl.
  - by apply walkOk_pop_delete.
  - by eapply walkOk_push.
Qed.

Lemma responsive_walk_start (rng : source) (k : nat) :
  walkOk W (path (startState W H rng k)) (visited (startState W H rng k)).
Proof. apply walkOk_start. Qed.

Lemma lockstep_start (rng : source) (k : nat) : lockstep (startState W H rng k).
Proof.
  split; simpl.
  - apply NoDup_singleton.
  - apply cells_single.
Qed.

Lemma lockstep_step (rng : source) (s s' : search) :
  lockstep s → attemptStep W H L rng s = Next s' → lockstep s'.
Proof.
  intros [Hnd Hv] Hstep. apply responsive_step_Next in Hstep.
  destruct Hstep as (_ & _ & [(_ & Hlen & ->) | (n & k' & Hn & ->)]); simpl.
  - destruct (snoc_cases (path s)) as (q & c & Hp).
    { intros Hnil. rewrite Hnil in Hlen. simpl in Hlen. lia. }
    rewrite Hv, Hp, removelast_snoc, lastCell_snoc in *.
    apply NoDup_app in Hnd as (Hq & Hdisj & _). split; [done |].
    assert (c ∉ q) as Hc by (intros Hc; apply (Hdisj c Hc); by apply list_elem_of_singleton).
    by apply cells_pop.
  - apply getValidNeighbors_In in Hn as (_ & Hfresh & _).
    split.
    + apply NoDup_app. split; [done |]. split; [| apply NoDup_singleton].
      intros x Hx Hx'. apply list_elem_of_singleton in Hx'. subst x.
      apply Hfresh. rewrite Hv. by apply elem_of_list_to_set.
    + simpl. rewrite Hv. apply cells_push.
Qed.

End ResponsiveFacts.

(** ** The snake fallback *)

Section SnakeFacts.

Variables W H : Z.
Variable L : nat.

(** Every iteration pushes a cell, so the loop returns within
    [PATH_LENGTH] iterations, also when it runs off the grid first. *)
Lemma snakeLoop_returns (fuel : nat) (p : list Z) (x y d : Z) :
  (L - length p < fuel)%nat → is_Some (snakeLoop W H L fuel p x y d).
Proof.
  revert p x y d. induction fuel as [| fuel IH]; intros p x y d Hf; [lia |].
  simpl. destruct (length p <? L)%nat eqn:Hlen; [| by eexists].
  apply Nat.ltb_lt in Hlen.
  destruct ((0 <=? x + d) && (x + d <? W) && (length (p ++ [(y * W + x)%Z]) <? L)%nat).
  - apply IH. list_len.
  - destruct (H <=? y + 1); [by eexists |]. apply IH. list_len.
Qed.

Lemma generateSnakePath_returns : is_Some (generateSnakePath W H L).
Proof. apply snakeLoop_returns. simpl. lia. Qed.

Hypothesis W_pos : 0 < W.

(** The cell the loop is about to push is adjacent to the last one pushed. *)
Lemma snakeLoop_chained (fuel : nat) (p : list Z) (x y d : Z) (r : list Z) :
  0 ≤ x < W → 0 ≤ y → d = 1 ∨ d = -1 →
  chained W p →
  (p = [] ∨ manhattan W (lastCell p) (y * W + x) = 1) →
  snakeLoop W H L fuel p x y d = Some r → chained W r.
Proof.
  revert p x y d. induction fuel as [| fuel IH]; intros p x y d Hx Hy Hd Hch Hlast; simpl;
    [discriminate |].
  destruct (length p <? L)%nat eqn:Hlen; [| by intros [= <-]].
  assert (chained W (p ++ [y * W + x])) as Hch'.
  { destruct (decide (p = [])) as [-> | Hne].
    - intros i a b Ha Hb. destruct i; discriminate.
    - destruct Hlast as [-> | Hm]; [done |].
      destruct (snoc_cases p Hne) as (q & c & ->).
      rewrite lastCell_snoc in Hm. by apply chained_snoc. }
  destruct ((0 <=? x + d) && (x + d <? W) && (length (p ++ [(y * W + x)%Z]) <? L)%nat) eqn:Hc.
  - rewrite !andb_true_iff in Hc. destruct Hc as [[Hlo Hhi] _].
    apply IH; try done; [lia |].
    right. rewrite lastCell_snoc. unfold manhattan.
    rewrite !decode_col, !decode_row by lia. lia.
  - destruct (H <=? y + 1); [by intros [= <-] |].
    apply IH; try done; [lia | lia |].
    right. rewrite lastCell_snoc. unfold manhattan.
    rewrite !decode_col, !decode_row by lia. lia.
Qed.

Lemma generateSnakePath_chained (r : list Z) :
  generateSnakePath W H L = Some r → chained W r.
Proof.
  apply snakeLoop_chained; [lia | lia | by left | | by left].
  intros i a b Ha. destruct i; discriminate.
Qed.

End SnakeFacts.

(** ** The retry loop *)

Section RetryFacts.

Variables W H : Z.
Variable L : nat.
Variable attempt : nat → option (option (list Z) * nat).

(** What [generatePath] returns is the path of a successful attempt or,
    after [attemptsLeft] failed attempts, the snake. *)
Lemma retryLoop_cases (n a k : nat) (p : list Z) (a' : nat) :
  retryLoop W H L attempt n a k = Some (p, a') →
  (a ≤ a' ≤ a + n)%nat ∧
  ((∃ k0 k1, attempt k0 = Some (Some p, k1) ∧ length p = L)
   ∨ (a' = (a + n)%nat ∧ generateSnakePath W H L = Some p)).
Proof.
  revert a k. induction n as [| n IH]; intros a k; simpl.
  - destruct (generateSnakePath W H L) as [q |] eqn:Hs; simpl; [| discriminate].
    intros [= <- <-]. split; [lia |]. right. split; [lia | done].
  - destruct (attempt k) as [[[q |] k1] |] eqn:Ha; [| | discriminate].
    + destruct (length q =? L)%nat eqn:Hlen.
      * apply Nat.eqb_eq in Hlen. intros [= <- <-]. split; [lia |]. left. eauto.
      * intros Hr. apply IH in Hr as [Hb Hr]. split; [lia |].
        destruct Hr as [Hr | [-> Hr]]; [by left | right; split; [lia | done]].
    + intros Hr. apply IH in Hr as [Hb Hr]. split; [lia |].
      destruct Hr as [Hr | [-> Hr]]; [by left | right; split; [lia | done]].
Qed.

Lemma retryLoop_returns (n a k : nat) :
  (∀ k0, is_Some (attempt k0)) → is_Some (retryLoop W H L attempt n a k).
Proof.
  intros Hat. revert a k. induction n as [| n IH]; intros a k; simpl.
  - destruct (generateSnakePath_returns W H L) as [q ->]. by eexists.
  - destruct (Hat k) as [[[q |] k1] ->]; [| apply IH].
    destruct (length q =? L)%nat; [by eexists | apply IH].
Qed.

End RetryFacts.

(** ** The responsive revision: termination and cell ranges *)

Section ResponsiveBounds.

Import Responsive.

Variables W H : Z.
Variable L : nat.

Lemma responsive_measure_step (rng : source) (s s' : search) :
  attemptStep W H L rng s = Next s' →
  (responsiveMeasure L s' < responsiveMeasure L s)%nat.
Proof.
  intros Hstep. apply responsive_step_Next in Hstep.
  destruct Hstep as (Hlen & Hbc & [(_ & Hone & ->) | (n & k' & _ & ->)]);
    unfold responsiveMeasure; cbn [path backtrackCount].
  - rewrite removelast_firstn_len, length_take. lia.
  - rewrite length_app. cbn [length]. lia.
Qed.

Lemma responsive_attempt_returns (rng : source) (k : nat) :
  is_Some (attemptPathGeneration W H L rng k).
Proof.
  unfold attemptPathGeneration.
  apply (runLoop_returns (attemptStep W H L rng) (fun _ => True) (responsiveMeasure L)).
  - done.
  - intros s s' _. apply responsive_measure_step.
  - done.
  - unfold responsiveMeasure, attemptFuel. cbn [path backtrackCount startState length]. lia.
Qed.

Lemma responsive_count (rng : source) (k n : nat) (s : search) :
  stateAt (attemptStep W H L rng) n (startState W H rng k) = Some s →
  responsiveCount L n s.
Proof.
  assert (∀ n m s0 s1, responsiveCount L m s0 →
            stateAt (attemptStep W H L rng) n s0 = Some s1 →
            responsiveCount L (m + n) s1) as Hgen.
  { clear. induction n as [| n IH]; simpl; intros m s0 s1 Hc Hat.
    - injection Hat as <-. by rewrite Nat.add_0_r.
    - destruct (attemptStep W H L rng s0) as [s' | r k] eqn:Hstep; [| discriminate].
      replace (m + S n)%nat with (S m + n)%nat by lia.
      apply (IH _ s'); [| done].
      destruct Hc as (Hn & Hbc & Hlo & Hhi).
      apply responsive_step_Next in Hstep.
      destruct Hstep as (Hlen & Hb & [(_ & Hone & ->) | (c & k' & _ & ->)]);
        unfold responsiveCount; cbn [path backtrackCount].
      + rewrite removelast_firstn_len, length_take. lia.
      + rewrite length_app. cbn [length]. lia. }
  intros Hat. apply (Hgen n 0%nat _ _) in Hat; [done |].
  unfold responsiveCount. cbn [path backtrackCount startState length]. lia.
Qed.

Hypothesis W_ge : 2 ≤ W.
Hypothesis H_ge : 2 ≤ H.

Lemma responsive_start_range (rng : source) (k : nat) :
  inGrid W H (path (startState W H rng k)).
Proof.
  intros c [<- | []].
  destruct (decide (W = 2)) as [-> | HW]; destruct (decide (H = 2)) as [-> | HH];
    rewrite ?floorMul_0.
  - lia.
  - pose proof (floorMul_range (rng (S k)) (H - 2)). lia.
  - pose proof (floorMul_range (rng k) (W - 2)). lia.
  - pose proof (floorMul_range (rng k) (W - 2)).
    pose proof (floorMul_range (rng (S k)) (H - 2)). nia.
Qed.

Lemma responsive_range_step (rng : source) (s s' : search) :
  inGrid W H (path s) → attemptStep W H L rng s = Next s' → inGrid W H (path s').
Proof.
  intros Hin Hstep. apply responsive_step_Next in Hstep.
  destruct Hstep as (_ & _ & [(_ & Hone & ->) | (n & k' & Hn & ->)]); simpl.
  - intros c Hc. apply Hin. rewrite removelast_firstn_len in Hc. by eapply In_take.
  - intros c Hc. apply in_app_or in Hc as [Hc | [<- | []]]; [by apply Hin |].
    by apply getValidNeighbors_In in Hn as (Hr & _).
Qed.

End ResponsiveBounds.

(** ** The first revision *)

Section ClassicFacts.

Import Classic.

Variables W H : Z.
Variable L : nat.

Lemma classic_choose_In (neighbors : list Z) (v : gset Z) (p : list Z)
    (rng : source) (k : nat) :
  neighbors ≠ [] →
  In (fst (Classic.chooseNextTile W H neighbors v p rng k)) neighbors.
Proof.
  intros Hne. unfold Classic.chooseNextTile. cbn [fst].
  set (scored := sortByScore _).
  assert (In (pick undefinedTile (take (Nat.div2 (S (length scored))) scored) (rng k))
             (map (Classic.scoreOf W H v p) neighbors)) as Hin.
  { apply sortByScore_In. fold scored.
    apply (In_take _ (Nat.div2 (S (length scored)))).
    apply pick_In. intros Hnil. apply (f_equal length) in Hnil.
    rewrite length_take in Hnil. change (length []) with 0%nat in Hnil.
    assert (length scored ≠ 0)%nat as Hlen.
    { unfold scored. rewrite sortByScore_length, length_map.
      destruct neighbors; [done | simpl; lia]. }
    destruct (length scored) as [| m]; [done |].
    change (Nat.div2 (S (S m))) with (S (Nat.div2 m)) in Hnil.
    rewrite <- Nat.succ_min_distr in Hnil. discriminate. }
  apply in_map_iff in Hin as (n & Heq & Hn). by rewrite <- Heq.
Qed.

Lemma classic_step_Next (rng : source) (s s' : search) :
  attemptStep W H L rng s = Next s' →
  (length (path s) < L)%nat ∧
  ((getValidNeighbors W H (lastCell (path s)) (visited s) (path s) = [] ∧
    (1 < length (path s))%nat ∧
    s' = Search (removelast (path s)) (visited s) (cursor s))
   ∨ (∃ n k',
        In n (getValidNeighbors W H (lastCell (path s)) (visited s) (path s)) ∧
        s' = Search (path s ++ [n]) ({[ n ]} ∪ visited s) k')).
Proof.
  unfold attemptStep.
  destruct (length (path s) <? L)%nat eqn:Hlen; [| discriminate].
  apply Nat.ltb_lt in Hlen.
  set (neighbors := getValidNeighbors W H _ _ _).
  destruct (length neighbors =? 0)%nat eqn:Hn.
  - apply Nat.eqb_eq in Hn. apply length_zero_iff_nil in Hn.
    destruct (length (path s) <=? 1)%nat eqn:Hone; [discriminate |].
    apply Nat.leb_gt in Hone. intros [= <-]. split; [done |]. left. done.
  - apply Nat.eqb_neq in Hn.
    assert (neighbors ≠ []) as Hne by (intros Heq; rewrite Heq in Hn; simpl in Hn; lia).
    pose proof (classic_choose_In neighbors (visited s) (path s) rng (cursor s) Hne) as Hin.
    destruct (chooseNextTile W H neighbors (visited s) (path s) rng (cursor s)) as [next k'].
    intros [= <-]. simpl in Hin. split; [done |]. right. eauto.
Qed.

Lemma classic_walk_step (rng : source) (s s' : search) :
  walkOk W (path s) (visited s) → attemptStep W H L rng s = Next s' →
  walkOk W (path s') (visited s').
Proof.
  intros Hok Hstep. apply classic_step_Next in Hstep.
  destruct Hstep as (_ & [(_ & Hlen & ->) | (n & k' & Hn & ->)]); simpl.
  - by apply walkOk_pop_keep.
  - by eapply walkOk_push.
Qed.

Lemma classic_walk_start (rng : source) (k : nat) :
  walkOk W (path (startState W H rng k)) (visited (startState W H rng k)).
Proof. apply walkOk_start. Qed.

(** The path never grows past the target length (which is at least 1). *)
Lemma classic_length_step (rng : source) (s s' : search) :
  (length (path s) ≤ Nat.max 1 L)%nat → attemptStep W H L rng s = Next s' →
  (length (path s') ≤ Nat.max 1 L)%nat.
Proof.
  intros Hle Hstep. apply classic_step_Next in Hstep.
  destruct Hstep as (Hlen & [(_ & Hone & ->) | (n & k' & Hn & ->)]); cbn [path].
  - rewrite removelast_firstn_len, length_take. lia.
  - rewrite length_app. cbn [length]. lia.
Qed.

Lemma gridCells_In (c : Z) : 0 ≤ c < W * H → In c (gridCells W H).
Proof.
  intros Hc. unfold gridCells. apply in_map_iff. exists (Z.to_nat c).
  split; [lia |]. apply in_seq. lia.
Qed.

Lemma filter_shrinks {A : Type} (f g : A → bool) (l : list A) (x : A) :
  (∀ y, g y = true → f y = true) →
  In x l → f x = true → g x = false →
  (length (List.filter g l) < length (List.filter f l))%nat.
Proof.
  intros Hgf Hx Hfx Hgx.
  assert (∀ l', length (List.filter g l') ≤ length (List.filter f l'))%nat as Hle.
  { induction l' as [| y l' IH]; simpl; [lia |].
    destruct (g y) eqn:Hg; [rewrite (Hgf _ Hg); simpl; lia |].
    destruct (f y); simpl; lia. }
  induction l as [| y l IH]; simpl; [destruct Hx |].
  destruct Hx as [-> | Hx].
  - rewrite Hfx, Hgx. simpl. specialize (Hle l). lia.
  - specialize (IH Hx). destruct (g y) eqn:Hg; [rewrite (Hgf _ Hg); simpl; lia |].
    destruct (f y); simpl; lia.
Qed.

Lemma unmarked_add (v : gset Z) (n : Z) :
  0 ≤ n < W * H → n ∉ v → (unmarked W H ({[ n ]} ∪ v) < unmarked W H v)%nat.
Proof.
  intros Hn Hv. unfold unmarked. apply (filter_shrinks _ _ _ n).
  - intros y. rewrite !negb_true_iff, !bool_decide_eq_false.
    intros Hy Hy'. apply Hy. by apply elem_of_union_r.
  - by apply gridCells_In.
  - by rewrite negb_true_iff, bool_decide_eq_false.
  - rewrite negb_false_iff, bool_decide_eq_true. apply elem_of_union_l. by apply elem_of_singleton.
Qed.

Lemma unmarked_le (v : gset Z) : (unmarked W H v ≤ Z.to_nat (W * H))%nat.
Proof.
  unfold unmarked. etransitivity; [apply filter_length_le |].
  unfold gridCells. by rewrite length_map, length_seq.
Qed.

Lemma classic_measure_step (rng : source) (s s' : search) :
  attemptStep W H L rng s = Next s' → (classicMeasure W H s' < classicMeasure W H s)%nat.
Proof.
  intros Hstep. apply classic_step_Next in Hstep.
  destruct Hstep as (Hlen & [(_ & Hone & ->) | (n & k' & Hn & ->)]);
    unfold classicMeasure; cbn [path visited].
  - rewrite removelast_firstn_len, length_take. lia.
  - apply getValidNeighbors_In in Hn as (Hr & Hv & _).
    pose proof (unmarked_add _ _ Hr Hv). rewrite length_app. cbn [length]. lia.
Qed.

Lemma classic_attempt_returns (rng : source) (k : nat) :
  is_Some (attemptPathGeneration W H L rng k).
Proof.
  unfold attemptPathGeneration.
  apply (runLoop_returns (attemptStep W H L rng) (fun _ => True) (classicMeasure W H)).
  - done.
  - intros s s' _. apply classic_measure_step.
  - done.
  - unfold classicMeasure, attemptFuel. cbn [path visited startState length].
    pose proof (unmarked_le ({[ floorMul (rng (S k)) H * W + floorMul (rng k) W ]} ∪ ∅)). lia.
Qed.

Hypothesis W_ge : 1 ≤ W.
Hypothesis H_ge : 1 ≤ H.

Lemma classic_start_range (rng : source) (k : nat) :
  inGrid W H (path (startState W H rng k)).
Proof.
  intros c [<- | []].
  pose proof (floorMul_range (rng k) W).
  pose proof (floorMul_range (rng (S k)) H). nia.
Qed.

Lemma classic_range_step (rng : source) (s s' : search) :
  inGrid W H (path s) → attemptStep W H L rng s = Next s' → inGrid W H (path s').
Proof.
  intros Hin Hstep. apply classic_step_Next in Hstep.
  destruct Hstep as (_ & [(_ & Hone & ->) | (n & k' & Hn & ->)]); simpl.
  - intros c Hc. apply Hin. rewrite removelast_firstn_len in Hc. by eapply In_take.
  - intros c Hc. apply in_app_or in Hc as [Hc | [<- | []]]; [by apply Hin |].
    by apply getValidNeighbors_In in Hn as (Hr & _).
Qed.

End ClassicFacts.

(** ** What an attempt returns *)

Section AttemptResults.

Variables W H : Z.
Variable L : nat.

Lemma responsive_return (rng : source) (s : Responsive.search)
    (r : option (list Z)) (k : nat) :
  Responsive.attemptStep W H L rng s = Return r k →
  match r with
  | Some p => p = Responsive.path s ∧ length p = L
  | None => True
  end.
Proof.
  unfold Responsive.attemptStep.
  destruct (_ && _).
  - destruct (length (getValidNeighbors W H _ _ _) =? 0)%nat.
    + destruct (length (Responsive.path s) <=? 1)%nat; [| discriminate].
      by intros [= <- <-].
    + destruct (Responsive.chooseNextTile _ _ _ _ _ _ _ _); discriminate.
  - destruct (length (Responsive.path s) =? L)%nat eqn:Hlen; intros [= <- <-]; [| done].
    apply Nat.eqb_eq in Hlen. done.
Qed.

(** A returned attempt left the loop at a state reached from the start. *)
Lemma responsive_attempt_state (rng : source) (k : nat) (r : option (list Z)) (k' : nat) :
  Responsive.attemptPathGeneration W H L rng k = Some (r, k') →
  ∃ n s,
    stateAt (Responsive.attemptStep W H L rng) n (Responsive.startState W H rng k) = Some s ∧
    Responsive.attemptStep W H L rng s = Return r k'.
Proof.
  intros Hrun.
  destruct (runLoop_inv (Responsive.attemptStep W H L rng) (fun _ => True)
              (fun _ _ _ _ => I) _ _ _ _ I Hrun) as (n & s & Hat & _ & Hret).
  eauto.
Qed.

Lemma responsive_state_walk (rng : source) (k n : nat) (s : Responsive.search) :
  stateAt (Responsive.attemptStep W H L rng) n (Responsive.startState W H rng k) = Some s →
  walkOk W (Responsive.path s) (Responsive.visited s).
Proof.
  apply (stateAt_inv (Responsive.attemptStep W H L rng)
           (fun s => walkOk W (Responsive.path s) (Responsive.visited s))).
  - intros s0 s1. apply responsive_walk_step.
  - apply responsive_walk_start.
Qed.

Lemma responsive_state_lockstep (rng : source) (k n : nat) (s : Responsive.search) :
  stateAt (Responsive.attemptStep W H L rng) n (Responsive.startState W H rng k) = Some s →
  lockstep s.
Proof.
  apply (stateAt_inv (Responsive.attemptStep W H L rng) lockstep).
  - intros s0 s1. apply lockstep_step.
  - apply lockstep_start.
Qed.

Lemma responsive_state_range (rng : source) (k n : nat) (s : Responsive.search) :
  2 ≤ W → 2 ≤ H →
  stateAt (Responsive.attemptStep W H L rng) n (Responsive.startState W H rng k) = Some s →
  inGrid W H (Responsive.path s).
Proof.
  intros HW HH.
  apply (stateAt_inv (Responsive.attemptStep W H L rng)
           (fun s => inGrid W H (Responsive.path s))).
  - intros s0 s1. by apply responsive_range_step.
  - by apply responsive_start_range.
Qed.

Lemma classic_return (rng : source) (s : Classic.search)
    (r : option (list Z)) (k : nat) :
  Classic.attemptStep W H L rng s = Return r k →
  match r with
  | Some p => p = Classic.path s ∧ (L ≤ length p)%nat
  | None => True
  end.
Proof.
  unfold Classic.attemptStep.
  destruct (length (Classic.path s) <? L)%nat eqn:Hlen.
  - destruct (length (getValidNeighbors W H _ _ _) =? 0)%nat.
    + destruct (length (Classic.path s) <=? 1)%nat; [| discriminate].
      by intros [= <- <-].
    + destruct (Classic.chooseNextTile _ _ _ _ _ _ _); discriminate.
  - apply Nat.ltb_ge in Hlen. by intros [= <- <-].
Qed.

Lemma classic_attempt_state (rng : source) (k : nat) (r : option (list Z)) (k' : nat) :
  Classic.attemptPathGeneration W H L rng k = Some (r, k') →
  ∃ n s,
    stateAt (Classic.attemptStep W H L rng) n (Classic.startState W H rng k) = Some s ∧
    Classic.attemptStep W H L rng s = Return r k'.
Proof.
  intros Hrun.
  destruct (runLoop_inv (Classic.attemptStep W H L rng) (fun _ => True)
              (fun _ _ _ _ => I) _ _ _ _ I Hrun) as (n & s & Hat & _ & Hret).
  eauto.
Qed.

Lemma classic_state_walk (rng : source) (k n : nat) (s : Classic.search) :
  stateAt (Classic.attemptStep W H L rng) n (Classic.startState W H rng k) = Some s →
  walkOk W (Classic.path s) (Classic.visited s).
Proof.
  apply (stateAt_inv (Classic.attemptStep W H L rng)
           (fun s => walkOk W (Classic.path s) (Classic.visited s))).
  - intros s0 s1. apply classic_walk_step.
  - apply classic_walk_start.
Qed.

Lemma classic_state_length (rng : source) (k n : nat) (s : Classic.search) :
  stateAt (Classic.attemptStep W H L rng) n (Classic.startState W H rng k) = Some s →
  (length (Classic.path s) ≤ Nat.max 1 L)%nat.
Proof.
  apply (stateAt_inv (Classic.attemptStep W H L rng)
           (fun s => (length (Classic.path s) ≤ Nat.max 1 L)%nat)).
  - intros s0 s1. apply classic_length_step.
  - simpl. lia.
Qed.

Lemma classic_state_range (rng : source) (k n : nat) (s : Classic.search) :
  1 ≤ W → 1 ≤ H →
  stateAt (Classic.attemptStep W H L rng) n (Classic.startState W H rng k) = Some s →
  inGrid W H (Classic.path s).
Proof.
  intros HW HH.
  apply (stateAt_inv (Classic.attemptStep W H L rng)
           (fun s => inGrid W H (Classic.path s))).
  - intros s0 s1. by apply classic_range_step.
  - by apply classic_start_range.
Qed.

(** The path of a successful attempt, in either revision. *)
Lemma responsive_attempt_path (rng : source) (k : nat) (p : list Z) (k' : nat) :
  Responsive.attemptPathGeneration W H L rng k = Some (Some p, k') →
  length p = L ∧ NoDup p ∧ chained W p ∧ apart W p ∧ (2 ≤ W → 2 ≤ H → inGrid W H p).
Proof.
  intros Hrun. apply responsive_attempt_state in Hrun as (n & s & Hat & Hret).
  pose proof (responsive_return _ _ _ _ Hret) as Hr. cbn iota in Hr. destruct Hr as [-> Hlen].
  destruct (responsive_state_walk _ _ _ _ Hat) as [_ _ Hnd Hch Hap].
  do 4 (split; [done |]). intros HW HH. by eapply responsive_state_range.
Qed.

Lemma classic_attempt_path (rng : source) (k : nat) (p : list Z) (k' : nat) :
  Classic.attemptPathGeneration W H L rng k = Some (Some p, k') →
  (L ≤ length p ≤ Nat.max 1 L)%nat ∧ NoDup p ∧ chained W p ∧ apart W p ∧
  (1 ≤ W → 1 ≤ H → inGrid W H p).
Proof.
  intros Hrun. apply classic_attempt_state in Hrun as (n & s & Hat & Hret).
  pose proof (classic_return _ _ _ _ Hret) as Hr. cbn iota in Hr. destruct Hr as [-> Hlen].
  destruct (classic_state_walk _ _ _ _ Hat) as [_ _ Hnd Hch Hap].
  pose proof (classic_state_length _ _ _ _ Hat).
  split; [lia |]. do 3 (split; [done |]). intros HW HH. by eapply classic_state_range.
Qed.

End AttemptResults.

(** ** The outputs of the random source a run reads

    Every call of [Math.random()] reads the output under the cursor and
    moves the cursor by one; the lemmas bound the cursor, so that a run
    depends on a bounded prefix of the sequence of outputs only. *)

Section DrawFacts.

Variables W H : Z.
Variable L : nat.

Lemma responsive_step_draws (rng : source) (s s' : Responsive.search) :
  Responsive.attemptStep W H L rng s = Next s' →
  (Responsive.cursor s' + responsiveDrawsLeft L s'
   ≤ Responsive.cursor s + responsiveDrawsLeft L s)%nat.
Proof.
  unfold Responsive.attemptStep, responsiveDrawsLeft.
  destruct (length (Responsive.path s) <? L)%nat eqn:Hlen; [| discriminate].
  destruct (Responsive.backtrackCount s <? Responsive.maxBacktracks)%nat eqn:Hbc;
    [| discriminate].
  apply Nat.ltb_lt in Hlen. apply Nat.ltb_lt in Hbc. cbn [andb].
  destruct (length (getValidNeighbors W H _ _ _) =? 0)%nat.
  - destruct (length (Responsive.path s) <=? 1)%nat eqn:Hone; [discriminate |].
    apply Nat.leb_gt in Hone. intros [= <-].
    cbn [Responsive.path Responsive.backtrackCount Responsive.cursor].
    rewrite removelast_firstn_len, length_take. lia.
  - unfold Responsive.chooseNextTile.
    destruct (length (getValidNeighbors W H _ _ _) =? 1)%nat;
      [| destruct (length (List.filter _ _) =? 0)%nat];
      intros [= <-];
      cbn [Responsive.path Responsive.backtrackCount Responsive.cursor];
      rewrite length_app; cbn [length]; lia.
Qed.

Lemma responsive_return_cursor (rng : source) (s : Responsive.search)
    (r : option (list Z)) (k : nat) :
  Responsive.attemptStep W H L rng s = Return r k → k = Responsive.cursor s.
Proof.
  unfold Responsive.attemptStep.
  destruct (_ && _).
  - destruct (length (getValidNeighbors W H _ _ _) =? 0)%nat.
    + destruct (length (Responsive.path s) <=? 1)%nat; [| discriminate].
      by intros [= <- <-].
    + destruct (Responsive.chooseNextTile _ _ _ _ _ _ _ _); discriminate.
  - by intros [= <- <-].
Qed.

Lemma responsive_run_cursor (rng : source) (fuel : nat) (s : Responsive.search)
    (r : option (list Z)) (k : nat) :
  runLoop (Responsive.attemptStep W H L rng) fuel s = Some (r, k) →
  (k ≤ Responsive.cursor s + responsiveDrawsLeft L s)%nat.
Proof.
  revert s. induction fuel as [| fuel IH]; simpl; intros s Hrun; [discriminate |].
  destruct (Responsive.attemptStep W H L rng s) as [s' | r' k'] eqn:Hstep.
  - apply IH in Hrun. apply responsive_step_draws in Hstep. lia.
  - injection Hrun as <- <-. apply responsive_return_cursor in Hstep. lia.
Qed.

(** An attempt of part_000 started at output [k] stops reading before
    output [k + responsiveAttemptDraws L]. *)
Lemma responsive_attempt_cursor (rng : source) (k : nat) (r : option (list Z)) (k' : nat) :
  Responsive.attemptPathGeneration W H L rng k = Some (r, k') →
  (k' ≤ k + responsiveAttemptDraws L)%nat.
Proof.
  intros Hrun. apply responsive_run_cursor in Hrun.
  unfold responsiveDrawsLeft, responsiveAttemptDraws in *.
  cbn [Responsive.startState Responsive.path Responsive.backtrackCount Responsive.cursor
       length] in Hrun. lia.
Qed.

Lemma classic_step_draws (rng : source) (s s' : Classic.search) :
  Classic.attemptStep W H L rng s = Next s' →
  (Classic.cursor s' + unmarked W H (Classic.visited s')
   ≤ Classic.cursor s + unmarked W H (Classic.visited s))%nat.
Proof.
  unfold Classic.attemptStep.
  destruct (length (Classic.path s) <? L)%nat; [| discriminate].
  set (neighbors := getValidNeighbors W H _ _ _).
  destruct (length neighbors =? 0)%nat eqn:Hn.
  - destruct (length (Classic.path s) <=? 1)%nat; [discriminate |].
    intros [= <-]. cbn [Classic.cursor Classic.visited]. lia.
  - apply Nat.eqb_neq in Hn.
    assert (neighbors ≠ []) as Hne by (intros Heq; rewrite Heq in Hn; simpl in Hn; lia).
    pose proof (classic_choose_In W H neighbors (Classic.visited s) (Classic.path s)
                  rng (Classic.cursor s) Hne) as Hin.
    unfold Classic.chooseNextTile in *. cbn [fst] in Hin.
    set (next := index _) in *. intros [= <-].
    apply getValidNeighbors_In in Hin as (Hr & Hv & _).
    pose proof (unmarked_add W H _ _ Hr Hv).
    change (S (Classic.cursor s) + unmarked W H ({[ next ]} ∪ Classic.visited s)
            ≤ Classic.cursor s + unmarked W H (Classic.visited s))%nat. lia.
Qed.

Lemma classic_return_cursor (rng : source) (s : Classic.search)
    (r : option (list Z)) (k : nat) :
  Classic.attemptStep W H L rng s = Return r k → k = Classic.cursor s.
Proof.
  unfold Classic.attemptStep.
  destruct (length (Classic.path s) <? L)%nat.
  - destruct (length (getValidNeighbors W H _ _ _) =? 0)%nat.
    + destruct (length (Classic.path s) <=? 1)%nat; [| discriminate].
      by intros [= <- <-].
    + destruct (Classic.chooseNextTile _ _ _ _ _ _ _); discriminate.
  - by intros [= <- <-].
Qed.

Lemma classic_run_cursor (rng : source) (fuel : nat) (s : Classic.search)
    (r : option (list Z)) (k : nat) :
  runLoop (Classic.attemptStep W H L rng) fuel s = Some (r, k) →
  (k ≤ Classic.cursor s + unmarked W H (Classic.visited s))%nat.
Proof.
  revert s. induction fuel as [| fuel IH]; simpl; intros s Hrun; [discriminate |].
  destruct (Classic.attemptStep W H L rng s) as [s' | r' k'] eqn:Hstep.
  - apply IH in Hrun. apply classic_step_draws in Hstep. lia.
  - injection Hrun as <- <-. apply classic_return_cursor in Hstep. lia.
Qed.

(** An attempt of game.js started at output [k] stops reading before output
    [k + classicAttemptDraws W H]. *)
Lemma classic_attempt_cursor (rng : source) (k : nat) (r : option (list Z)) (k' : nat) :
  Classic.attemptPathGeneration W H L rng k = Some (r, k') →
  (k' ≤ k + classicAttemptDraws W H)%nat.
Proof.
  intros Hrun. apply classic_run_cursor in Hrun.
  unfold classicAttemptDraws.
  cbn [Classic.startState Classic.visited Classic.cursor] in Hrun.
  pose proof (unmarked_le W H ({[ floorMul (rng (S k)) H * W + floorMul (rng k) W ]} ∪ ∅)).
  lia.
Qed.

Variables rng1 rng2 : source.

(** An iteration reads the output under the cursor, and only while the path
    is short of the target length. *)
Lemma responsive_step_agree (s : Responsive.search) :
  ((length (Responsive.path s) <? L)%nat = true →
   rng1 (Responsive.cursor s) = rng2 (Responsive.cursor s)) →
  Responsive.attemptStep W H L rng1 s = Responsive.attemptStep W H L rng2 s.
Proof.
  intros Hsame. unfold Responsive.attemptStep, Responsive.chooseNextTile.
  destruct (length (Responsive.path s) <? L)%nat; [| done].
  by rewrite Hsame.
Qed.

Lemma responsive_run_agree (fuel : nat) (s : Responsive.search) :
  agreeBelow rng1 rng2 (Responsive.cursor s + responsiveDrawsLeft L s) →
  runLoop (Responsive.attemptStep W H L rng1) fuel s =
  runLoop (Responsive.attemptStep W H L rng2) fuel s.
Proof.
  revert s. induction fuel as [| fuel IH]; simpl; intros s Hsame; [done |].
  rewrite (responsive_step_agree s).
  - destruct (Responsive.attemptStep W H L rng2 s) as [s' | r k] eqn:Hstep; [| done].
    apply IH. intros k Hk. apply Hsame.
    apply responsive_step_draws in Hstep. lia.
  - intros Hlen. apply Nat.ltb_lt in Hlen. apply Hsame.
    unfold responsiveDrawsLeft. lia.
Qed.

Lemma responsive_attempt_agree (k : nat) :
  agreeBelow rng1 rng2 (k + responsiveAttemptDraws L) →
  Responsive.attemptPathGeneration W H L rng1 k =
  Responsive.attemptPathGeneration W H L rng2 k.
Proof.
  intros Hsame. unfold Responsive.attemptPathGeneration.
  assert (Responsive.startState W H rng1 k = Responsive.startState W H rng2 k) as Hstart.
  { unfold Responsive.startState.
    rewrite (Hsame k), (Hsame (S k)) by (unfold responsiveAttemptDraws; lia). done. }
  rewrite Hstart. apply responsive_run_agree.
  intros j Hj. apply Hsame.
  unfold responsiveDrawsLeft, responsiveAttemptDraws in *.
  cbn [Responsive.startState Responsive.path Responsive.backtrackCount Responsive.cursor
       length] in Hj. lia.
Qed.

(** game.js: an iteration reads the output under the cursor, and only when
    it pushes a cell. *)
Lemma classic_step_agree (s : Classic.search) :
  agreeBelow rng1 rng2 (Classic.cursor s + unmarked W H (Classic.visited s)) →
  Classic.attemptStep W H L rng1 s = Classic.attemptStep W H L rng2 s.
Proof.
  intros Hsame. unfold Classic.attemptStep.
  destruct (length (Classic.path s) <? L)%nat; [| done].
  set (neighbors := getValidNeighbors W H _ _ _).
  destruct (length neighbors =? 0)%nat eqn:Hn; [done |].
  apply Nat.eqb_neq in Hn.
  assert (neighbors ≠ []) as Hne by (intros Heq; rewrite Heq in Hn; simpl in Hn; lia).
  pose proof (classic_choose_In W H neighbors (Classic.visited s) (Classic.path s)
                rng1 (Classic.cursor s) Hne) as Hin.
  unfold Classic.chooseNextTile in *. cbn [fst] in Hin.
  set (next := index _) in Hin.
  apply getValidNeighbors_In in Hin as (Hr & Hv & _).
  pose proof (unmarked_add W H _ _ Hr Hv).
  rewrite (Hsame (Classic.cursor s)) by lia. done.
Qed.

Lemma classic_run_agree (fuel : nat) (s : Classic.search) :
  agreeBelow rng1 rng2 (Classic.cursor s + unmarked W H (Classic.visited s)) →
  runLoop (Classic.attemptStep W H L rng1) fuel s =
  runLoop (Classic.attemptStep W H L rng2) fuel s.
Proof.
  revert s. induction fuel as [| fuel IH]; simpl; intros s Hsame; [done |].
  rewrite (classic_step_agree s Hsame).
  destruct (Classic.attemptStep W H L rng2 s) as [s' | r k] eqn:Hstep; [| done].
  apply IH. intros k Hk. apply Hsame.
  apply classic_step_draws in Hstep. lia.
Qed.

Lemma classic_attempt_agree (k : nat) :
  agreeBelow rng1 rng2 (k + classicAttemptDraws W H) →
  Classic.attemptPathGeneration W H L rng1 k =
  Classic.attemptPathGeneration W H L rng2 k.
Proof.
  intros Hsame. unfold Classic.attemptPathGeneration.
  assert (Classic.startState W H rng1 k = Classic.startState W H rng2 k) as Hstart.
  { unfold Classic.startState.
    rewrite (Hsame k), (Hsame (S k)) by (unfold classicAttemptDraws; lia). done. }
  rewrite Hstart. apply classic_run_agree.
  intros j Hj. apply Hsame. unfold classicAttemptDraws.
  cbn [Classic.startState Classic.visited Classic.cursor] in Hj.
  pose proof (unmarked_le W H ({[ floorMul (rng2 (S k)) H * W + floorMul (rng2 k) W ]} ∪ ∅)).
  lia.
Qed.

(** The retry loop: [n] attempts that read at most [A] outputs each read
    below output [k + n * A]. *)
Lemma retryLoop_agree (attempt1 attempt2 : nat → option (option (list Z) * nat))
    (A n a k : nat) :
  (∀ k0, agreeBelow rng1 rng2 (k0 + A) → attempt1 k0 = attempt2 k0) →
  (∀ k0 r k1, attempt2 k0 = Some (r, k1) → (k1 ≤ k0 + A)%nat) →
  agreeBelow rng1 rng2 (k + n * A) →
  retryLoop W H L attempt1 n a k = retryLoop W H L attempt2 n a k.
Proof.
  intros Hat Hcur. revert a k. induction n as [| n IH]; intros a k Hsame; simpl; [done |].
  rewrite Hat by (intros j Hj; apply Hsame; lia).
  destruct (attempt2 k) as [[r k1] |] eqn:Hrun; [| done].
  apply Hcur in Hrun.
  assert (agreeBelow rng1 rng2 (k1 + n * A)) as Hrest
      by (intros j Hj; apply Hsame; lia).
  destruct r as [p |]; [| by apply IH].
  destruct (length p =? L)%nat; [done | by apply IH].
Qed.

End DrawFacts.

(** ** What [generatePath] returns *)

Section GenerateFacts.

Variables W H : Z.
Variable L : nat.

Lemma responsive_generate_cases (rng : source) :
  ∃ p a,
    Responsive.generateLoop W H L rng = Some (p, a) ∧
    Responsive.generatePath W H L rng = Some p ∧
    (a ≤ Responsive.maxAttempts)%nat ∧
    ((∃ k k', Responsive.attemptPathGeneration W H L rng k = Some (Some p, k'))
     ∨ (a = Responsive.maxAttempts ∧ generateSnakePath W H L = Some p)).
Proof.
  destruct (retryLoop_returns W H L (Responsive.attemptPathGeneration W H L rng)
              Responsive.maxAttempts 0 0) as [[p a] Hloop].
  { intros k. apply responsive_attempt_returns. }
  exists p, a. unfold Responsive.generatePath, Responsive.generateLoop.
  rewrite Hloop. split; [done |]. split; [done |].
  apply retryLoop_cases in Hloop as [Hb Hc]. split; [lia |].
  destruct Hc as [(k & k' & Hat & _) | [-> Hs]]; [left; eauto | by right].
Qed.

Lemma classic_generate_cases (rng : source) :
  ∃ p a,
    Classic.generateLoop W H L rng = Some (p, a) ∧
    Classic.generatePath W H L rng = Some p ∧
    (a ≤ Classic.maxAttempts)%nat ∧
    ((∃ k k', Classic.attemptPathGeneration W H L rng k = Some (Some p, k') ∧ length p = L)
     ∨ (a = Classic.maxAttempts ∧ generateSnakePath W H L = Some p)).
Proof.
  destruct (retryLoop_returns W H L (Classic.attemptPathGeneration W H L rng)
              Classic.maxAttempts 0 0) as [[p a] Hloop].
  { intros k. apply classic_attempt_returns. }
  exists p, a. unfold Classic.generatePath, Classic.generateLoop.
  rewrite Hloop. split; [done |]. split; [done |].
  apply retryLoop_cases in Hloop as [Hb Hc]. split; [lia |].
  destruct Hc as [(k & k' & Hat & Hlen) | [-> Hs]]; [left; eauto | by right].
Qed.

End GenerateFacts.

(** ** The selection of the next cell *)

Lemma pick_map {A B : Type} (f : A → B) (d : A) (arr : list A) (u : sample) :
  f (pick d arr u) = pick (f d) (map f arr) u.
Proof. unfold pick. by rewrite length_map, map_nth. Qed.

Lemma positive_score (s : scoredTile) : (0 <? score s)%nat = negb (score s =? 0)%nat.
Proof. destruct (score s); reflexivity. Qed.

Lemma responsive_viable_survivors (W H : Z) (L : nat) (neighbors : list Z)
    (v : gset Z) (p : list Z) :
  List.filter (Responsive.isViable L p) (map (Responsive.scoreOf W H v p) neighbors) =
  specSurvivors W H L neighbors v p.
Proof.
  unfold specSurvivors. apply filter_ext. intros s.
  unfold Responsive.isViable. by rewrite positive_score.
Qed.

(** The snake of the fixed configuration: row 0 left to right, row 1 right
    to left, row 2 left to right. *)
Lemma snake_12_8_36 :
  generateSnakePath 12 8 36 =
  Some [0; 1; 2; 3; 4; 5; 6; 7; 8; 9; 10; 11;
        23; 22; 21; 20; 19; 18; 17; 16; 15; 14; 13; 12;
        24; 25; 26; 27; 28; 29; 30; 31; 32; 33; 34; 35].
Proof. vm_compute. reflexivity. Qed.

Lemma snake_12_8_36_cells (p : list Z) :
  generateSnakePath 12 8 36 = Some p →
  length p = 36%nat ∧ NoDup p ∧ inGrid 12 8 p.
Proof.
  rewrite snake_12_8_36. intros [= <-]. split; [reflexivity |]. split.
  - apply (bool_decide_unpack _). vm_compute. exact I.
  - intros c Hc. simpl in Hc. repeat (destruct Hc as [<- | Hc]; [lia |]). destruct Hc.
Qed.

(** ** The snake in closed form *)

Section SnakeShape.

Variables W H : Z.
Variable L : nat.
Hypothesis W_pos : 0 < W.
Hypothesis H_pos : 0 < H.

Lemma snakeCells_S (k : nat) : snakeCells W (S k) = snakeCells W k ++ [snakeCell W k].
Proof. unfold snakeCells. by rewrite seq_S, map_app. Qed.

Lemma snakeCells_length (k : nat) : length (snakeCells W k) = k.
Proof. unfold snakeCells. by rewrite length_map, length_seq. Qed.

Lemma snake_col_range (i : nat) :
  0 ≤ (if Z.even (Z.of_nat i / W) then Z.of_nat i mod W else W - 1 - Z.of_nat i mod W) < W.
Proof. pose proof (Z.mod_pos_bound (Z.of_nat i) W W_pos). destruct (Z.even _); lia. Qed.

Lemma snakeCell_row (i : nat) : rowOf W (snakeCell W i) = Z.of_nat i / W.
Proof. unfold snakeCell. apply decode_row, snake_col_range. Qed.

Lemma snakeCell_col (i : nat) :
  colOf W (snakeCell W i) =
  if Z.even (Z.of_nat i / W) then Z.of_nat i mod W else W - 1 - Z.of_nat i mod W.
Proof.
  unfold snakeCell. apply decode_col; [apply snake_col_range |].
  apply Z.div_pos; lia.
Qed.

Lemma snakeCell_inj (i j : nat) : snakeCell W i = snakeCell W j → i = j.
Proof.
  intros Heq.
  pose proof (f_equal (rowOf W) Heq) as Hr. rewrite !snakeCell_row in Hr.
  pose proof (f_equal (colOf W) Heq) as Hc. rewrite !snakeCell_col, Hr in Hc.
  assert (Z.of_nat i mod W = Z.of_nat j mod W) as Hm by (destruct (Z.even _); lia).
  pose proof (Z.div_mod (Z.of_nat i) W). pose proof (Z.div_mod (Z.of_nat j) W). nia.
Qed.

Lemma snakeCell_range (i : nat) :
  (i < Z.to_nat (W * H))%nat → 0 ≤ snakeCell W i < W * H.
Proof.
  intros Hi. unfold snakeCell. pose proof (snake_col_range i) as Hc.
  assert (0 ≤ Z.of_nat i / W < H) as Hr.
  { split; [apply Z.div_pos; lia |]. apply Z.div_lt_upper_bound; lia. }
  nia.
Qed.

Lemma snakeLoop_closed (fuel : nat) (p : list Z) (x y d : Z) :
  p = snakeCells W (length p) →
  (L - length p < fuel)%nat →
  (length p ≤ Z.to_nat (W * H))%nat →
  (length p ≤ L)%nat →
  ((length p < L)%nat → snakeState W H (length p) x y d) →
  snakeLoop W H L fuel p x y d = Some (snakeCells W (Nat.min L (Z.to_nat (W * H)))).
Proof.
  revert p x y d. induction fuel as [| fuel IH]; intros p x y d Hp Hfuel Hcap HleL Hst; [lia |].
  set (k := length p) in *. simpl.
  destruct (length p <? L)%nat eqn:Hlt.
  2:{ apply Nat.ltb_ge in Hlt. fold k in Hlt. f_equal. rewrite Hp. f_equal. lia. }
  apply Nat.ltb_lt in Hlt. fold k in Hlt.
  destruct (Hst Hlt) as (Hy & Hx & Hd & HyH).
  pose proof (Z.mod_pos_bound (Z.of_nat k) W W_pos) as Hmod.
  pose proof (Z.div_mod (Z.of_nat k) W ltac:(lia)) as Hdm.
  assert (0 ≤ y) as Hy0 by (rewrite Hy; apply Z.div_pos; lia).
  assert (y * W + x = snakeCell W k) as Hcell.
  { unfold snakeCell. rewrite <- Hy. rewrite Hx. reflexivity. }
  assert (p ++ [y * W + x] = snakeCells W (length (p ++ [y * W + x]))) as Hp'.
  { rewrite length_app. simpl. fold k. replace (k + 1)%nat with (S k) by lia.
    rewrite snakeCells_S, Hcell. by rewrite <- Hp. }
  assert (length (p ++ [y * W + x]) = S k) as Hlen' by (rewrite length_app; simpl; lia).
  assert (Z.of_nat k < W * H) as HkZ by nia.
  assert (k < Z.to_nat (W * H))%nat as Hk by lia.
  (* the last cell wanted: whatever the branch, the loop returns it next *)
  assert (S k = L → ∀ x' y' d',
            snakeLoop W H L fuel (p ++ [y * W + x]) x' y' d'
            = Some (snakeCells W (Nat.min L (Z.to_nat (W * H))))) as Hdone.
  { intros HL x' y' d'. apply IH; [exact Hp' | rewrite Hlen'; lia ..]. }
  destruct ((0 <=? x + d) && (x + d <? W) && (length (p ++ [(y * W + x)%Z]) <? L)%nat) eqn:Hc.
  - rewrite !andb_true_iff in Hc. destruct Hc as [[Hlo Hhi] Hmore].
    apply Nat.ltb_lt in Hmore. rewrite Hlen' in Hmore.
    apply IH; [exact Hp' | rewrite Hlen'; lia .. |].
    rewrite Hlen'. intros _. unfold snakeState.
    assert (Z.of_nat (S k) / W = y ∧ Z.of_nat (S k) mod W = Z.of_nat k mod W + 1) as [Hq Hr].
    { assert (Z.of_nat k mod W + 1 < W) by (destruct (Z.even y); lia).
      assert (Z.of_nat (S k) = W * y + (Z.of_nat k mod W + 1)) as Hs by lia.
      split.
      - symmetry. apply (Z.div_unique_pos _ _ _ (Z.of_nat k mod W + 1)); lia.
      - symmetry. apply (Z.mod_unique_pos _ _ y); lia. }
    rewrite Hq, Hr. repeat split; try done. destruct (Z.even y); lia.
  - destruct (decide (S k = L)) as [HL | HL].
    + destruct (H <=? y + 1); [| by apply Hdone].
      f_equal. rewrite Hp', Hlen'. f_equal. lia.
    + (* the end of a row *)
      assert (Z.of_nat k mod W = W - 1) as Hend.
      { rewrite !andb_false_iff in Hc. destruct Hc as [[Hc | Hc] | Hc].
        - apply Z.leb_gt in Hc. destruct (Z.even y); lia.
        - apply Z.ltb_ge in Hc. destruct (Z.even y); lia.
        - apply Nat.ltb_ge in Hc. rewrite Hlen' in Hc. lia. }
      assert (Z.of_nat (S k) = W * (y + 1)) as Hs by lia.
      assert (Z.of_nat (S k) / W = y + 1 ∧ Z.of_nat (S k) mod W = 0) as [Hq Hr].
      { split.
        - symmetry. apply (Z.div_unique_pos _ _ _ 0); lia.
        - symmetry. apply (Z.mod_unique_pos _ _ (y + 1)); lia. }
      destruct (H <=? y + 1) eqn:Hbreak.
      * apply Z.leb_le in Hbreak. f_equal. rewrite Hp', Hlen'. f_equal. nia.
      * apply Z.leb_gt in Hbreak.
        apply IH; [exact Hp' | rewrite Hlen'; lia .. |].
        rewrite Hlen'. intros _. unfold snakeState. rewrite Hq, Hr.
        replace (y + 1) with (Z.succ y) by lia. rewrite Z.even_succ, <- Z.negb_even.
        destruct (Z.even y); simpl; lia.
Qed.

End SnakeShape.


Lemma snakeCells_lookup (W : Z) (k i : nat) :
  (i < k)%nat → snakeCells W k !! i = Some (snakeCell W i).
Proof.
  intros Hi. unfold snakeCells. rewrite list_lookup_fmap.
  rewrite lookup_seq_lt by done. reflexivity.
Qed.


Lemma generateSnakePath_closed (W H : Z) (L : nat) :
  0 < W → 0 < H →
  generateSnakePath W H L = Some (snakeCells W (Nat.min L (Z.to_nat (W * H)))).
Proof.
  intros HW HH. unfold generateSnakePath.
  apply (snakeLoop_closed W H L HW HH); [reflexivity | simpl; lia .. |].
  intros _. unfold snakeState. simpl. rewrite Z.div_0_l, Z.mod_0_l by lia. simpl. lia.
Qed.

Lemma snakeCells_NoDup (W : Z) (k : nat) : 0 < W → NoDup (snakeCells W k).
Proof.
  intros HW. unfold snakeCells. apply NoDup_fmap_2_strong; [| apply NoDup_seq].
  intros i j _ _. by apply snakeCell_inj.
Qed.

Lemma snakeCells_range (W H : Z) (k : nat) (c : Z) :
  0 < W → 0 < H → (k ≤ Z.to_nat (W * H))%nat →
  In c (snakeCells W k) → 0 ≤ c < W * H.
Proof.
  intros HW HH Hk Hc. unfold snakeCells in Hc. apply in_map_iff in Hc as (i & <- & Hi).
  apply in_seq in Hi. apply (snakeCell_range W H HW HH). lia.
Qed.

(** The snake is a valid pattern whenever the grid has room for it. *)
Lemma snake_fits (W H : Z) (L : nat) (p : list Z) :
  0 < W → 0 < H → (L ≤ Z.to_nat (W * H))%nat →
  generateSnakePath W H L = Some p →
  length p = L ∧ NoDup p ∧ inGrid W H p.
Proof.
  intros HW HH HL Hs. rewrite generateSnakePath_closed in Hs by done.
  injection Hs as <-. rewrite Nat.min_l by done.
  split; [apply snakeCells_length |]. split; [by apply snakeCells_NoDup |].
  intros c Hc. by apply (snakeCells_range W H L).
Qed.

(** ** [generatePath] on any grid *)

Lemma responsive_generate_grid (W H : Z) (L : nat) (rng : source) :
  2 ≤ W → 2 ≤ H → (L ≤ Z.to_nat (W * H))%nat →
  ∃ p, Responsive.generatePath W H L rng = Some p ∧
       length p = L ∧ NoDup p ∧ inGrid W H p.
Proof.
  intros HW HH HL.
  destruct (responsive_generate_cases W H L rng) as (p & a & _ & Hgen & _ & Hc).
  exists p. split; [exact Hgen |].
  destruct Hc as [(k & k' & Hat) | [_ Hs]]; [| apply (snake_fits W H L); [lia | lia | done ..]].
  apply responsive_attempt_path in Hat as (Hlen & Hnd & _ & _ & Hin).
  split; [done |]. split; [done |]. apply Hin; lia.
Qed.

Lemma classic_generate_grid (W H : Z) (L : nat) (rng : source) :
  2 ≤ W → 2 ≤ H → (L ≤ Z.to_nat (W * H))%nat →
  ∃ p, Classic.generatePath W H L rng = Some p ∧
       length p = L ∧ NoDup p ∧ inGrid W H p.
Proof.
  intros HW HH HL.
  destruct (classic_generate_cases W H L rng) as (p & a & _ & Hgen & _ & Hc).
  exists p. split; [exact Hgen |].
  destruct Hc as [(k & k' & Hat & Hlen) | [_ Hs]];
    [| apply (snake_fits W H L); [lia | lia | done ..]].
  apply classic_attempt_path in Hat as (_ & Hnd & _ & _ & Hin).
  split; [done |]. split; [done |]. apply Hin; lia.
Qed.

(** ** The neighbour scan, exactly *)

Section ScanExact.

Variables W H : Z.
Hypothesis W_pos : 0 < W.

Lemma encode_decode (n : Z) : 0 ≤ n → rowOf W n * W + colOf W n = n.
Proof.
  intros Hn. unfold rowOf, colOf. rewrite Z.rem_mod_nonneg by lia.
  pose proof (Z.div_mod n W). lia.
Qed.

Lemma scanDirection_hit (x y : Z) (v : gset Z) (p : list Z) (d : Z * Z) (n : Z) :
  0 ≤ n < W * H → colOf W n = x + fst d → rowOf W n = y + snd d →
  n ∉ v → wouldCreateLoop W n x y p = false →
  scanDirection W H x y v p d = [n].
Proof.
  intros Hn Hc Hr Hv Hl. unfold scanDirection.
  rewrite <- Hc, <- Hr, (encode_decode n) by lia.
  assert (0 ≤ colOf W n < W) as Hcol.
  { unfold colOf. rewrite Z.rem_mod_nonneg by lia. apply Z.mod_pos_bound. lia. }
  assert (0 ≤ rowOf W n < H) as Hrow.
  { unfold rowOf. split; [apply Z.div_pos; lia |]. apply Z.div_lt_upper_bound; lia. }
  replace ((0 <=? colOf W n) && (colOf W n <? W) && (0 <=? rowOf W n) && (rowOf W n <? H))
    with true by (symmetry; rewrite !andb_true_iff, !Z.leb_le, !Z.ltb_lt; lia).
  rewrite bool_decide_eq_false_2 by done. by rewrite Hl.
Qed.

Lemma scanDirection_cases (x y : Z) (v : gset Z) (p : list Z) (d : Z * Z) :
  scanDirection W H x y v p d = [] ∨
  ∃ n, scanDirection W H x y v p d = [n] ∧
       colOf W n = x + fst d ∧ rowOf W n = y + snd d.
Proof.
  destruct (scanDirection W H x y v p d) as [| n l] eqn:Hs; [by left |].
  right. exists n.
  assert (In n (scanDirection W H x y v p d)) as Hn by (rewrite Hs; by left).
  apply scanDirection_In in Hn as (Hx & Hy & Hn & _).
  split.
  - unfold scanDirection in Hs.
    destruct (_ && _); [| discriminate].
    destruct (bool_decide _); [discriminate |].
    destruct (wouldCreateLoop _ _ _ _ _); [discriminate |].
    by injection Hs as _ <-.
  - rewrite Hn, decode_col, decode_row by lia. done.
Qed.


Lemma getValidNeighbors_complete (index : Z) (v : gset Z) (p : list Z) (n : Z) :
  0 ≤ n < W * H → manhattan W index n = 1 → n ∉ v →
  wouldCreateLoop W n (colOf W index) (rowOf W index) p = false →
  In n (getValidNeighbors W H index v p).
Proof.
  intros Hn Hm Hv Hl. unfold getValidNeighbors. apply in_flat_map.
  unfold manhattan in Hm.
  set (x := colOf W index) in *. set (y := rowOf W index) in *.
  assert (∃ d, In d directions ∧ colOf W n = x + fst d ∧ rowOf W n = y + snd d)
    as (d & Hd & Hc & Hr).
  { unfold directions.
    destruct (decide (rowOf W n = y - 1)); [exists (0, -1); simpl; split; [tauto | lia] |].
    destruct (decide (rowOf W n = y + 1)); [exists (0, 1); simpl; split; [tauto | lia] |].
    destruct (decide (colOf W n = x - 1)); [exists (-1, 0); simpl; split; [tauto | lia] |].
    exists (1, 0). simpl. split; [tauto | lia]. }
  exists d. split; [done |].
  rewrite (scanDirection_hit x y v p d n); [by left | done ..].
Qed.

(** The four directions give four different cells. *)
Lemma getValidNeighbors_NoDup (index : Z) (v : gset Z) (p : list Z) :
  NoDup (getValidNeighbors W H index v p).
Proof.
  unfold getValidNeighbors, directions.
  generalize (colOf W index) (rowOf W index). intros x y.
  cbn [flat_map]. rewrite app_nil_r.
  destruct (scanDirection_cases x y v p (0, -1)) as [-> | (a & -> & Ha1 & Ha2)];
  destruct (scanDirection_cases x y v p (0, 1)) as [-> | (b & -> & Hb1 & Hb2)];
  destruct (scanDirection_cases x y v p (-1, 0)) as [-> | (c & -> & Hc1 & Hc2)];
  destruct (scanDirection_cases x y v p (1, 0)) as [-> | (d & -> & Hd1 & Hd2)];
  cbn [app fst snd] in *; apply NoDup_ListNoDup;
  repeat (constructor; [simpl; intros Hin; intuition (subst; lia) |]);
  constructor.
Qed.

Lemma getValidNeighbors_length (index : Z) (v : gset Z) (p : list Z) :
  (length (getValidNeighbors W H index v p) ≤ 4)%nat.
Proof.
  unfold getValidNeighbors, directions. cbn [flat_map]. rewrite app_nil_r, !length_app.
  generalize (colOf W index) (rowOf W index). intros x y.
  destruct (scanDirection_cases x y v p (0, -1)) as [-> | (a & -> & _)];
  destruct (scanDirection_cases x y v p (0, 1)) as [-> | (b & -> & _)];
  destruct (scanDirection_cases x y v p (-1, 0)) as [-> | (c & -> & _)];
  destruct (scanDirection_cases x y v p (1, 0)) as [-> | (d & -> & _)];
  simpl; lia.
Qed.

End ScanExact.

(** ** Failed attempts of part_000 *)

(** A lone cell of a grid at least two cells wide has a valid neighbour. *)
Lemma lone_cell_neighbour (W H : Z) (c : Z) (v : gset Z) :
  2 ≤ W → 0 ≤ c < W * H → (∀ n, n ∈ v → n = c) →
  getValidNeighbors W H c v [c] ≠ [].
Proof.
  intros HW Hc Hv.
  pose proof (encode_decode W ltac:(lia) c ltac:(lia)) as Hdec.
  assert (0 ≤ colOf W c < W) as Hcol.
  { unfold colOf. rewrite Z.rem_mod_nonneg by lia. apply Z.mod_pos_bound. lia. }
  assert (0 ≤ rowOf W c < H) as Hrow.
  { unfold rowOf. split; [apply Z.div_pos; lia |]. apply Z.div_lt_upper_bound; lia. }
  set (x := colOf W c) in *. set (y := rowOf W c) in *.
  assert (∃ n, 0 ≤ n < W * H ∧ n ≠ c ∧
               (colOf W n = x + 1 ∨ colOf W n = x - 1) ∧ rowOf W n = y)
    as (n & Hn & Hne & Hx & Hy).
  { destruct (decide (x + 1 < W)) as [Hlt | Hge].
    - exists (y * W + (x + 1)). rewrite decode_col, decode_row by lia.
      split; [nia |]. split; [lia |]. split; [by left | done].
    - exists (y * W + (x - 1)). rewrite decode_col, decode_row by lia.
      split; [nia |]. split; [lia |]. split; [by right | done]. }
  assert (In n (getValidNeighbors W H c v [c])) as Hin.
  { apply getValidNeighbors_complete; [lia | done | | | done].
    - unfold manhattan. fold x y. rewrite Hy. lia.
    - intros Hnv. by apply Hv in Hnv. }
  intros Hnil. rewrite Hnil in Hin. destruct Hin.
Qed.

Lemma responsive_failed_state (W H : Z) (L : nat) (rng : source) (k n : nat)
    (s : Responsive.search) (k' : nat) :
  2 ≤ W → 2 ≤ H → (1 ≤ L)%nat →
  stateAt (Responsive.attemptStep W H L rng) n (Responsive.startState W H rng k) = Some s →
  Responsive.attemptStep W H L rng s = Return None k' →
  Responsive.backtrackCount s = Responsive.maxBacktracks ∧
  (1 ≤ length (Responsive.path s) < L)%nat ∧
  (n + 1 = length (Responsive.path s) + 2 * Responsive.maxBacktracks)%nat.
Proof.
  intros HW HH HL Hat Hret.
  pose proof (responsive_count _ _ _ _ _ _ _ Hat) as (Hn & Hbc & Hlo & Hhi).
  pose proof (responsive_state_lockstep _ _ _ _ _ _ _ Hat) as [_ Hvis].
  pose proof (responsive_state_range _ _ _ _ _ _ _ HW HH Hat) as Hin.
  unfold Responsive.attemptStep in Hret.
  destruct (length (Responsive.path s) <? L)%nat eqn:Hlen;
    destruct (Responsive.backtrackCount s <? Responsive.maxBacktracks)%nat eqn:Hb;
    cbn [andb] in Hret.
  - (* a dead end: the path holds more than its first cell *)
    destruct (length (getValidNeighbors W H _ _ _) =? 0)%nat eqn:Hnb.
    + destruct (length (Responsive.path s) <=? 1)%nat eqn:Hone; [| discriminate].
      apply Nat.leb_le in Hone. apply Nat.eqb_eq, length_zero_iff_nil in Hnb.
      destruct (Responsive.path s) as [| c [| c' q]] eqn:Hp; simpl in Hlo, Hone; try lia.
      exfalso. apply (lone_cell_neighbour W H c (Responsive.visited s)); [done | | | done].
      * apply Hin. by left.
      * intros m Hm. rewrite Hvis, elem_of_list_to_set in Hm.
        by apply list_elem_of_singleton in Hm.
    + destruct (Responsive.chooseNextTile _ _ _ _ _ _ _ _). discriminate.
  - apply Nat.ltb_lt in Hlen. apply Nat.ltb_ge in Hb. lia.
  - apply Nat.ltb_ge in Hlen.
    destruct (length (Responsive.path s) =? L)%nat eqn:Heq; [discriminate |].
    apply Nat.eqb_neq in Heq. lia.
  - apply Nat.ltb_ge in Hlen.
    destruct (length (Responsive.path s) =? L)%nat eqn:Heq; [discriminate |].
    apply Nat.eqb_neq in Heq. lia.
Qed.

(** ** The selection of part_000 after the first step *)

Section TopThree.

Variables W H : Z.
Variable L : nat.
Hypothesis W_ge : 2 ≤ W.
Hypothesis H_ge : 2 ≤ H.

(** The cell the walk came from is marked, so at most three of the four
    directions are open. *)
Lemma responsive_three_directions (rng : source) (k n : nat) (s : Responsive.search) :
  stateAt (Responsive.attemptStep W H L rng) n (Responsive.startState W H rng k) = Some s →
  (2 ≤ length (Responsive.path s))%nat →
  (length (getValidNeighbors W H (lastCell (Responsive.path s)) (Responsive.visited s)
             (Responsive.path s)) ≤ 3)%nat.
Proof.
  intros Hat Hlen.
  destruct (responsive_state_walk _ _ _ _ _ _ _ Hat) as [_ Hmark _ Hch _].
  pose proof (responsive_state_range _ _ _ _ _ _ _ W_ge H_ge Hat) as Hin.
  destruct (snoc_cases (Responsive.path s)) as (q0 & cur & Hp);
    [intros Hnil; rewrite Hnil in Hlen; simpl in Hlen; lia |].
  destruct (snoc_cases q0) as (q & prev & Hq);
    [intros Hnil; rewrite Hp, Hnil in Hlen; simpl in Hlen; lia |].
  rewrite Hp, lastCell_snoc. rewrite <- Hp.
  set (neighbors := getValidNeighbors W H cur _ _).
  assert (manhattan W cur prev = 1) as Hm.
  { rewrite manhattan_sym. apply (Hch (length q)); rewrite Hp, Hq.
    - rewrite <- app_assoc. by apply list_lookup_middle.
    - rewrite lookup_app_r by (rewrite length_app; simpl; lia).
      rewrite length_app. simpl. replace (S (length q) - (length q + 1))%nat with 0%nat by lia.
      done. }
  assert (prev ∈ Responsive.visited s) as Hpv.
  { apply Hmark. rewrite Hp, Hq, !elem_of_app, list_elem_of_singleton. by left; right. }
  assert (0 ≤ prev < W * H) as Hpr.
  { apply Hin. rewrite Hp, Hq. apply in_or_app. left. apply in_or_app. right. by left. }
  assert (List.NoDup (prev :: neighbors)) as Hnd.
  { constructor.
    - intros Hn. apply getValidNeighbors_In in Hn as (_ & Hv & _). done.
    - apply NoDup_ListNoDup, getValidNeighbors_NoDup. }
  pose proof (NoDup_incl_length Hnd (l' := getValidNeighbors W H cur ∅ [])) as Hle.
  pose proof (getValidNeighbors_length W H cur ∅ []) as H4.
  cbn [length] in Hle.
  enough (incl (prev :: neighbors) (getValidNeighbors W H cur ∅ [])) by (specialize (Hle H0); lia).
  intros m [<- | Hm'].
  - apply getValidNeighbors_complete; [lia | done | done | apply not_elem_of_empty | done].
  - apply getValidNeighbors_In in Hm' as (Hr & _ & _ & Hd).
    apply getValidNeighbors_complete; [lia | done | done | apply not_elem_of_empty | done].
Qed.

End TopThree.

(** ** The page *)

Lemma showPattern_state (g : gameState) :
  showPattern g =
  GameState (pattern g) [] MEMORIZE (timerInterval g) (startTime g)
            (if mode_eqb (mode g) RECALL then S (peekCount g) else peekCount g).
Proof. unfold showPattern. by destruct (mode_eqb (mode g) RECALL). Qed.

Lemma startRecall_state (g : gameState) :
  startRecall g =
  GameState (pattern g) (userSelected g) RECALL (timerInterval g) (startTime g) (peekCount g).
Proof. reflexivity. Qed.

Section PageFacts.

Import Game.

Lemma mode_eqb_eq (a b : gameMode) : mode_eqb a b = true ↔ a = b.
Proof. destruct a, b; simpl; split; intros; done. Qed.

Lemma showPattern_ok (p : page) : pageOk p → pageOk (showPattern p).
Proof.
  intros [Hnd Hsel Hpat Hpt Ht Hg Htm Hnext Hidle].
  unfold showPattern, withState. rewrite showPattern_state.
  constructor; cbn; try done.
  - apply NoDup_nil_2.
  - intros c Hc. by apply elem_of_nil in Hc.
Qed.

Lemma startRecall_ok (p : page) : pageOk p → pageOk (startRecall p).
Proof.
  intros [Hnd Hsel Hpat Hpt Ht Hg Htm Hnext Hidle].
  unfold startRecall, enableTiles, withTiles, withState. rewrite startRecall_state.
  constructor; cbn; rewrite ?length_map; done.
Qed.

Lemma clearInterval_timer (p : page) :
  (∀ h, h ∈ intervals p →
        timerInterval (state p) = Some h ∧ (1 ≤ h < nextInterval p)%nat) →
  intervals (clearInterval (timerInterval (state p)) p) = ∅.
Proof.
  intros Htm. apply set_eq. intros h. rewrite elem_of_empty. split; [| done].
  unfold clearInterval. destruct (timerInterval (state p)) as [h0 |] eqn:Hti; cbn.
  - rewrite elem_of_difference, elem_of_singleton. intros [Hh Hne].
    apply Htm in Hh as [Hh _]. by injection Hh as ->.
  - intros Hh. by apply Htm in Hh as [Hh _].
Qed.

Lemma clearInterval_truthy (p : page) :
  (∀ h, h ∈ intervals p →
        timerInterval (state p) = Some h ∧ (1 ≤ h < nextInterval p)%nat) →
  intervals (if truthy (timerInterval (state p))
             then clearInterval (timerInterval (state p)) p else p) = ∅.
Proof.
  intros Htm. destruct (truthy (timerInterval (state p))) eqn:Htr;
    [by apply clearInterval_timer |].
  apply set_eq. intros h. rewrite elem_of_empty. split; [| done].
  intros Hh. apply Htm in Hh as [Hh Hr]. rewrite Hh in Htr.
  destruct h; [lia | discriminate].
Qed.

Lemma clearInterval_fields (h : option nat) (p : page) :
  state (clearInterval h p) = state p ∧ tiles (clearInterval h p) = tiles p ∧
  GRID_WIDTH (clearInterval h p) = GRID_WIDTH p ∧
  GRID_HEIGHT (clearInterval h p) = GRID_HEIGHT p ∧
  nextInterval (clearInterval h p) = nextInterval p.
Proof. by destruct h. Qed.

Lemma winGame_ok (p : page) : pageOk p → pageOk (winGame p).
Proof.
  intros [Hnd Hsel Hpat Hpt Ht Hg Htm Hnext Hidle].
  assert (intervals (winGame p) = ∅) as Hclear.
  { unfold winGame. apply clearInterval_timer. exact Htm. }
  unfold winGame in *.
  destruct (clearInterval_fields
              (timerInterval (state (withState p (GameState (pattern (state p))
                 (userSelected (state p)) IDLE (timerInterval (state p))
                 (startTime (state p)) (peekCount (state p))))))
              (withState p (GameState (pattern (state p)) (userSelected (state p)) IDLE
                 (timerInterval (state p)) (startTime (state p)) (peekCount (state p)))))
    as (Hs & Hti & Hw & Hh & Hnx).
  constructor; rewrite ?Hs, ?Hti, ?Hw, ?Hh, ?Hnx, ?Hclear; cbn; done.
Qed.

Lemma loseGame_ok (p : page) : pageOk p → pageOk (loseGame p).
Proof.
  intros [Hnd Hsel Hpat Hpt Ht Hg Htm Hnext Hidle].
  assert (intervals (loseGame p) = ∅) as Hclear.
  { unfold loseGame, disableTiles, withTiles. cbn [intervals].
    apply (clearInterval_timer (withState p _)). exact Htm. }
  unfold loseGame, disableTiles, withTiles in *. cbn [intervals] in Hclear.
  destruct (clearInterval_fields
              (timerInterval (state (withState p (GameState (pattern (state p))
                 (userSelected (state p)) IDLE (timerInterval (state p))
                 (startTime (state p)) (peekCount (state p))))))
              (withState p (GameState (pattern (state p)) (userSelected (state p)) IDLE
                 (timerInterval (state p)) (startTime (state p)) (peekCount (state p)))))
    as (Hs & Hti & Hw & Hh & Hnx).
  constructor; cbn [state tiles GRID_WIDTH GRID_HEIGHT intervals nextInterval];
    rewrite ?Hs, ?Hti, ?Hw, ?Hh, ?Hnx, ?Hclear, ?length_map; cbn; done.
Qed.

Lemma resetGame_ok (p : page) : pageOk p → pageOk (resetGame p).
Proof.
  intros [Hnd Hsel Hpat Hpt Ht Hg Htm Hnext Hidle].
  set (p1 := withState p (GameState [] [] IDLE (timerInterval (state p))
                                    (startTime (state p)) 0)).
  assert (intervals (if truthy (timerInterval (state p1))
                     then clearInterval (timerInterval (state p1)) p1 else p1) = ∅)
    as Hclear by (apply clearInterval_truthy; exact Htm).
  unfold resetGame, disableTiles, withTiles. fold p1.
  set (p2 := if truthy _ then _ else _) in *.
  assert (state p2 = state p1 ∧ tiles p2 = tiles p1 ∧ GRID_WIDTH p2 = GRID_WIDTH p1 ∧
          GRID_HEIGHT p2 = GRID_HEIGHT p1 ∧ nextInterval p2 = nextInterval p1)
    as (Hs & Hti & Hw & Hh & Hnx).
  { unfold p2. destruct (truthy _); [apply clearInterval_fields | done]. }
  constructor; cbn [state tiles GRID_WIDTH GRID_HEIGHT intervals nextInterval];
    rewrite ?Hs, ?Hti, ?Hw, ?Hh, ?Hnx, ?Hclear, ?length_map; cbn; try done.
  all: try apply NoDup_nil_2.
  all: try (by left).
  all: intros c Hc; by apply elem_of_nil in Hc.
Qed.

Lemma handleTileClick_ok (target : option nat) (p : page) :
  pageOk p → pageOk (handleTileClick target p).
Proof.
  intros Hok. unfold handleTileClick.
  destruct target as [i |]; [| done].
  destruct (tiles p !! i) as [disabled |]; [| done].
  destruct (negb (mode_eqb (mode (state p)) RECALL)) eqn:Hmode; [done |].
  apply negb_false_iff, mode_eqb_eq in Hmode.
  destruct disabled; [done |].
  case_bool_decide as Hsel; [done |].
  case_bool_decide as Hpat; [| by apply loseGame_ok].
  assert (pageOk (withState p
            (GameState (pattern (state p)) (userSelected (state p) ++ [Z.of_nat i])
                       (mode (state p)) (timerInterval (state p)) (startTime (state p))
                       (peekCount (state p))))) as Hpush.
  { destruct Hok as [Hnd Hs Hp Hpt Ht Hg Htm Hnext Hidle].
    constructor; cbn; try done.
    - apply NoDup_app. split; [done |]. split; [| apply NoDup_singleton].
      intros c Hc Hc'. apply list_elem_of_singleton in Hc'. by subst.
    - intros c Hc. apply elem_of_app in Hc as [Hc | Hc]; [by apply Hs |].
      apply list_elem_of_singleton in Hc. by subst. }
  destruct (_ =? _)%nat; [by apply winGame_ok | done].
Qed.

Lemma createGrid_ok (p : page) :
  pageOk p → pageOk (createGrid p).
Proof.
  intros [Hnd Hsel Hpat Hpt Ht Hg Htm Hnext Hidle].
  assert (length (tiles (createGrid p)) = 96%nat) as Hlen.
  { unfold createGrid, withTiles. cbn [tiles]. rewrite repeat_length.
    destruct Hg as [[-> ->] | [-> ->]]; reflexivity. }
  constructor; try done.
  intros c Hc. rewrite Hlen. specialize (Hpt c Hc). rewrite Ht in Hpt. done.
Qed.

Lemma roundStarted_ok (generated : list Z) (now : Z) (p : page) :
  pageOk p →
  length generated = PATH_LENGTH → NoDup generated →
  (∀ c, In c generated → 0 ≤ c < 96) →
  pageOk (roundStarted generated now p).
Proof.
  intros [Hnd Hsel Hpat Hpt Ht Hg Htm Hnext Hidle] Hlen Hgnd Hin.
  pose proof (clearInterval_truthy p Htm) as Hclear.
  unfold roundStarted. rewrite Hclear.
  constructor; cbn; rewrite ?length_map; try done.
  - apply NoDup_nil_2.
  - intros c Hc. by apply elem_of_nil in Hc.
  - by right.
  - intros c Hc. rewrite Ht. apply list_elem_of_In in Hc. apply Hin in Hc. lia.
  - intros h Hh. rewrite elem_of_union, elem_of_singleton, elem_of_empty in Hh.
    destruct Hh as [-> | []]. split; [done | lia].
  - lia.
Qed.

Lemma blank_grid_ok (W H : Z) :
  (W = 12 ∧ H = 8) ∨ (W = 8 ∧ H = 12) →
  pageOk (Page (GameState [] [] IDLE None None 0) W H (repeat true (Z.to_nat (W * H))) ∅ 1).
Proof.
  intros Hg.
  constructor; cbn [state tiles GRID_WIDTH GRID_HEIGHT intervals nextInterval
                    pattern userSelected mode timerInterval]; try done.
  - apply NoDup_nil_2.
  - by left.
  - intros c Hc. by apply elem_of_nil in Hc.
  - rewrite repeat_length. destruct Hg as [[-> ->] | [-> ->]]; reflexivity.
Qed.

End PageFacts.

(** ** The listeners of part_000 *)

Section ResponsivePage.

Import Game ResponsiveGame.

Lemma setGridDimensions_ok (mobile : bool) (p : page) :
  pageOk p → pageOk (setGridDimensions mobile p).
Proof.
  intros [Hnd Hsel Hpat Hpt Ht Hg Htm Hnext Hidle].
  unfold setGridDimensions. destruct mobile; constructor; cbn; try done.
  - right. done.
  - left. done.
Qed.

Lemma handleResize_ok (mobile : bool) (p : page) : pageOk p → pageOk (handleResize mobile p).
Proof.
  intros Hok. unfold handleResize.
  destruct (_ && _); [| done]. by apply createGrid_ok, setGridDimensions_ok.
Qed.

Lemma responsive_startGame (mobile : bool) (rng : source) (now : Z) (p : page) :
  ∃ generated,
    startGame mobile rng now p =
      Some (roundStarted generated now (createGrid (setGridDimensions mobile p))) ∧
    length generated = PATH_LENGTH ∧ NoDup generated ∧
    (∀ c, In c generated → 0 ≤ c < 96).
Proof.
  unfold startGame.
  assert (∃ W H, GRID_WIDTH (createGrid (setGridDimensions mobile p)) = W ∧
                 GRID_HEIGHT (createGrid (setGridDimensions mobile p)) = H ∧
                 2 ≤ W ∧ 2 ≤ H ∧ W * H = 96) as (W & H & -> & -> & HW & HH & HWH).
  { destruct mobile; [exists 8, 12 | exists 12, 8]; cbn; lia. }
  destruct (responsive_generate_grid W H PATH_LENGTH rng HW HH) as (g & Hgen & Hlen & Hnd & Hin).
  { rewrite HWH. unfold PATH_LENGTH. lia. }
  rewrite Hgen. exists g. split; [| split; [done | split; [done |]]].
  - cbn [mbind option_bind]. f_equal.
    set (p' := createGrid (setGridDimensions mobile p)).
    unfold roundStarted. cbn [state withState timerInterval].
    destruct (timerInterval (state p')) as [[| h] |]; reflexivity.
  - intros c Hc. apply Hin in Hc. lia.
Qed.

Lemma responsive_init_ok (mobile : bool) : pageOk (init mobile).
Proof.
  unfold init, createGrid, setGridDimensions, withTiles, blank.
  destruct mobile; cbn [state tiles GRID_WIDTH GRID_HEIGHT intervals nextInterval];
    apply blank_grid_ok; [by right | by left].
Qed.

Lemma responsive_handle_ok (e : event) (p : page) :
  pageOk p → ∃ p', handle e p = Some p' ∧ pageOk p'.
Proof.
  intros Hok. destruct e as [mobile rng now | | | target | | mobile]; cbn [handle].
  - destruct (responsive_startGame mobile rng now p) as (g & -> & Hlen & Hnd & Hin).
    eexists. split; [reflexivity |].
    apply roundStarted_ok; [| done ..]. by apply createGrid_ok, setGridDimensions_ok.
  - eexists. split; [reflexivity |]. by apply showPattern_ok.
  - eexists. split; [reflexivity |]. by apply startRecall_ok.
  - eexists. split; [reflexivity |]. by apply handleTileClick_ok.
  - eexists. split; [reflexivity |]. by apply resetGame_ok.
  - eexists. split; [reflexivity |]. by apply handleResize_ok.
Qed.

Lemma responsive_run_ok (events : list event) (p : page) :
  pageOk p → ∃ p', run handle events p = Some p' ∧ pageOk p'.
Proof.
  revert p. induction events as [| e events IH]; intros p Hok; cbn [run].
  - by exists p.
  - destruct (responsive_handle_ok e p Hok) as (p1 & -> & Hok1).
    cbn [mbind option_bind]. by apply IH.
Qed.

End ResponsivePage.

(** ** The listeners of game.js *)

Section ClassicPage.

Import Game ClassicGame.

Lemma classic_startGame (rng : source) (now : Z) (p : page) :
  ∃ generated,
    startGame rng now p = Some (roundStarted generated now p) ∧
    length generated = PATH_LENGTH ∧ NoDup generated ∧
    (∀ c, In c generated → 0 ≤ c < 96).
Proof.
  unfold startGame.
  destruct (classic_generate_grid 12 8 PATH_LENGTH rng) as (g & Hgen & Hlen & Hnd & Hin);
    [lia | lia | unfold PATH_LENGTH; simpl; lia |].
  rewrite Hgen. exists g. split; [| split; [done | split; [done |]]].
  - cbn [mbind option_bind]. f_equal.
    unfold roundStarted. cbn [state withState timerInterval].
    destruct (timerInterval (state p)) as [[| h] |]; reflexivity.
  - intros c Hc. apply Hin in Hc. lia.
Qed.

Lemma classic_init_ok : pageOk init.
Proof.
  unfold init, createGrid, withTiles, blank.
  cbn [state tiles GRID_WIDTH GRID_HEIGHT intervals nextInterval].
  apply blank_grid_ok. by left.
Qed.

Lemma classic_handle_ok (e : event) (p : page) :
  pageOk p → ∃ p', handle e p = Some p' ∧ pageOk p'.
Proof.
  intros Hok. destruct e as [mobile rng now | | | target | | mobile]; cbn [handle].
  - destruct (classic_startGame rng now p) as (g & -> & Hlen & Hnd & Hin).
    eexists. split; [reflexivity |]. by apply roundStarted_ok.
  - eexists. split; [reflexivity |]. by apply showPattern_ok.
  - eexists. split; [reflexivity |]. by apply startRecall_ok.
  - eexists. split; [reflexivity |]. by apply handleTileClick_ok.
  - eexists. split; [reflexivity |]. by apply resetGame_ok.
  - by exists p.
Qed.

Lemma classic_run_ok (events : list event) (p : page) :
  pageOk p → ∃ p', run handle events p = Some p' ∧ pageOk p'.
Proof.
  revert p. induction events as [| e events IH]; intros p Hok; cbn [run].
  - by exists p.
  - destruct (classic_handle_ok e p Hok) as (p1 & -> & Hok1).
    cbn [mbind option_bind]. by apply IH.
Qed.

End ClassicPage.

(** ** Clicks on the tiles *)

Section ClickFacts.

Import Game.

(** A click on an enabled tile of the pattern that is not selected yet. *)
Lemma click_correct (p : page) (c : Z) :
  mode (state p) = RECALL →
  (∀ i d, tiles p !! i = Some d → d = false) →
  0 ≤ c < Z.of_nat (length (tiles p)) →
  c ∉ userSelected (state p) → c ∈ pattern (state p) →
  handleTileClick (Some (Z.to_nat c)) p =
    let pushed :=
      withState p (GameState (pattern (state p)) (userSelected (state p) ++ [c]) RECALL
                             (timerInterval (state p)) (startTime (state p))
                             (peekCount (state p))) in
    if (length (userSelected (state p) ++ [c]) =? PATH_LENGTH)%nat
    then winGame pushed else pushed.
Proof.
  intros Hmode Hen Hc Hsel Hpat. unfold handleTileClick.
  destruct (tiles p !! Z.to_nat c) as [d |] eqn:Hd.
  2:{ apply lookup_ge_None in Hd. lia. }
  apply Hen in Hd as ->. rewrite Hmode. cbn [mode_eqb negb].
  rewrite Z2Nat.id by lia.
  rewrite bool_decide_eq_false_2 by done. rewrite bool_decide_eq_true_2 by done.
  reflexivity.
Qed.

Lemma clicks_progress (q : list Z) (p : page) (s : list Z) :
  mode (state p) = RECALL →
  (∀ i d, tiles p !! i = Some d → d = false) →
  userSelected (state p) = s →
  NoDup (s ++ q) →
  (∀ c, c ∈ q → c ∈ pattern (state p) ∧ 0 ≤ c < Z.of_nat (length (tiles p))) →
  (length s + length q ≤ PATH_LENGTH)%nat →
  let p' := foldl (fun p c => handleTileClick (Some (Z.to_nat c)) p) p q in
  userSelected (state p') = s ++ q ∧
  pattern (state p') = pattern (state p) ∧
  tiles p' = tiles p ∧
  ((length (s ++ q) < PATH_LENGTH)%nat → mode (state p') = RECALL) ∧
  (q ≠ [] → length (s ++ q) = PATH_LENGTH → mode (state p') = IDLE).
Proof.
  revert p s. induction q as [| c q IH]; intros p s Hmode Hen Hs Hnd Hq Hlen; cbn [foldl].
  - rewrite app_nil_r. done.
  - assert (c ∉ s) as Hcs.
    { apply NoDup_app in Hnd as (_ & Hdis & _). intros Hc. apply (Hdis c Hc). by left. }
    destruct (Hq c ltac:(by left)) as [Hcp Hcr].
    rewrite click_correct by (rewrite ?Hs; done). cbn zeta. rewrite Hs.
    cbn [length] in Hlen.
    destruct (length (s ++ [c]) =? PATH_LENGTH)%nat eqn:Hfull.
    + (* the last tile of the pattern *)
      apply Nat.eqb_eq in Hfull. rewrite length_app in Hfull. cbn [length] in Hfull.
      destruct q as [| c' q]; [| cbn [length] in Hlen; lia].
      cbn [foldl]. unfold winGame.
      set (pushed := withState _ _).
      destruct (clearInterval_fields (timerInterval (state pushed)) pushed)
        as (Hst & Hti & _).
      rewrite Hst, Hti. cbn. split; [done |]. split; [done |]. split; [done |].
      split; [rewrite length_app; cbn [length]; lia | done].
    + apply Nat.eqb_neq in Hfull. rewrite length_app in Hfull. cbn [length] in Hfull.
      set (pushed := withState _ _).
      destruct (IH pushed (s ++ [c])) as (Hsel' & Hpat' & Htiles' & Hrec & Hidle).
      * done.
      * exact Hen.
      * done.
      * by rewrite <- app_assoc.
      * intros c0 Hc0. apply Hq. by right.
      * rewrite length_app. cbn [length]. lia.
      * rewrite <- app_assoc in Hsel', Hrec, Hidle. cbn [app] in Hsel', Hrec, Hidle.
        split; [done |]. split; [done |]. split; [done |]. split; [done |].
        intros _ Hfin. apply Hidle; [| done].
        intros ->. rewrite length_app in Hfin. cbn [length] in Hfin. lia.
Qed.

Lemma winGame_mode (p : page) : mode (state (winGame p)) = IDLE.
Proof.
  unfold winGame.
  destruct (timerInterval (state (withState p _))); reflexivity.
Qed.

Lemma loseGame_mode (p : page) : mode (state (loseGame p)) = IDLE.
Proof.
  unfold loseGame.
  destruct (timerInterval (state (withState p _))); reflexivity.
Qed.

Lemma click_ignored_mode (target : option nat) (p : page) :
  mode (state p) ≠ RECALL → handleTileClick target p = p.
Proof.
  intros Hmode. unfold handleTileClick.
  destruct target as [i |]; [| done]. destruct (tiles p !! i); [| done].
  destruct (mode_eqb (mode (state p)) RECALL) eqn:Heq; [| done].
  by apply mode_eqb_eq in Heq.
Qed.

Lemma click_ignored_selected (i : nat) (p : page) :
  Z.of_nat i ∈ userSelected (state p) → handleTileClick (Some i) p = p.
Proof.
  intros Hsel. unfold handleTileClick.
  destruct (tiles p !! i) as [[|] |]; [| | done].
  - by destruct (negb _).
  - destruct (negb _); [done |]. by rewrite bool_decide_eq_true_2.
Qed.

(** What a click leaves: the page as it was, the mode IDLE, or the tile
    selected. *)
Lemma click_outcome (i : nat) (p : page) :
  handleTileClick (Some i) p = p ∨
  mode (state (handleTileClick (Some i) p)) = IDLE ∨
  Z.of_nat i ∈ userSelected (state (handleTileClick (Some i) p)).
Proof.
  unfold handleTileClick.
  destruct (tiles p !! i) as [disabled |]; [| by left].
  destruct (negb _); [by left |].
  destruct disabled; [by left |].
  case_bool_decide as Hsel; [by left |].
  case_bool_decide as Hpat.
  - cbn zeta. destruct (_ =? _)%nat.
    + right. left. apply winGame_mode.
    + right. right. cbn [state withState userSelected].
      apply elem_of_app. right. by apply list_elem_of_singleton.
  - right. left. apply loseGame_mode.
Qed.

Lemma run_clicks (handle : event → page → option page) (q : list Z) (p : page) :
  (∀ t p0, handle (TileClick t) p0 = Some (handleTileClick t p0)) →
  run handle (clicksOn q) p =
  Some (foldl (fun p c => handleTileClick (Some (Z.to_nat c)) p) p q).
Proof.
  intros Hh. revert p. induction q as [| c q IH]; intros p; cbn [clicksOn map run foldl].
  - done.
  - rewrite Hh. cbn [mbind option_bind]. apply IH.
Qed.

(** A round that has started can be won: the pattern holds [PATH_LENGTH]
    different tiles of the grid, and after [startRecall] the clicks on
    them, in any order, are all counted. *)
Lemma started_round_won (handle : event → page → option page)
    (generated : list Z) (now : Z) (p : page) (q1 q2 : list Z) :
  (∀ t p0, handle (TileClick t) p0 = Some (handleTileClick t p0)) →
  (∀ p0, handle StartRecall p0 = Some (startRecall p0)) →
  length (tiles p) = 96%nat →
  length generated = PATH_LENGTH → NoDup generated →
  (∀ c, In c generated → 0 ≤ c < 96) →
  q1 ++ q2 ≡ₚ generated →
  ∃ p2,
    run handle (StartRecall :: clicksOn q1) (roundStarted generated now p) = Some p2 ∧
    userSelected (state p2) = q1 ∧
    pattern (state p2) = generated ∧
    mode (state p2) = match q2 with [] => IDLE | _ => RECALL end.
Proof.
  intros Hclick Hrecall Ht Hlen Hnd Hin Hperm.
  cbn [run]. rewrite Hrecall. cbn [mbind option_bind]. rewrite run_clicks by done.
  eexists. split; [reflexivity |].
  set (p1 := startRecall (roundStarted generated now p)).
  assert (length (q1 ++ q2) = PATH_LENGTH) as Hl by (by rewrite Hperm).
  rewrite length_app in Hl.
  destruct (clicks_progress q1 p1 []) as (Hsel & Hpat & _ & Hrec & Hidle).
  - done.
  - intros i d Hd. unfold p1, startRecall, enableTiles, withTiles, roundStarted in Hd.
    cbn [tiles withState] in Hd. apply list_elem_of_lookup_2 in Hd.
    apply list_elem_of_In, in_map_iff in Hd as (? & <- & _). done.
  - done.
  - cbn [app]. apply (NoDup_app q1 q2). by rewrite Hperm.
  - intros c Hc. unfold p1, startRecall, enableTiles, withTiles, roundStarted.
    cbn [tiles withState state pattern]. rewrite startRecall_state. cbn [pattern].
    rewrite !length_map, Ht.
    assert (c ∈ generated) as Hg by (rewrite <- Hperm; apply elem_of_app; by left).
    split; [done |]. apply list_elem_of_In in Hg. apply Hin in Hg. lia.
  - cbn [length]. lia.
  - cbn [app] in *. split; [done |]. split; [done |].
    destruct q2 as [| c q2].
    + cbn [length] in Hl. apply Hidle; [| lia].
      intros ->. cbn [length] in Hl. unfold PATH_LENGTH in Hl. lia.
    + cbn [length] in Hl. apply Hrec. lia.
Qed.

End ClickFacts.

(** * The properties of the specification *)

(** C1. For the fixed configuration (width 12, height 8, length 36), every
    call to [generatePath], in either revision, returns a sequence of
    exactly 36 pairwise distinct cell indices, each at least 0 and below
    12 * 8, whether it comes from a successful attempt or from the snake. *)
Theorem generatePath_fixed_configuration (rng : source) :
  (∃ p, Responsive.generatePath 12 8 36 rng = Some p ∧
        length p = 36%nat ∧ NoDup p ∧ ∀ c, In c p → 0 ≤ c < 12 * 8) ∧
  (∃ p, Classic.generatePath 12 8 36 rng = Some p ∧
        length p = 36%nat ∧ NoDup p ∧ ∀ c, In c p → 0 ≤ c < 12 * 8).
Proof.
  split.
  - destruct (responsive_generate_cases 12 8 36 rng) as (p & a & _ & Hgen & _ & Hc).
    exists p. split; [done |].
    destruct Hc as [(k & k' & Hat) | [_ Hs]].
    + apply responsive_attempt_path in Hat as (Hlen & Hnd & _ & _ & Hin).
      split; [done |]. split; [done |]. apply Hin; lia.
    + by apply snake_12_8_36_cells.
  - destruct (classic_generate_cases 12 8 36 rng) as (p & a & _ & Hgen & _ & Hc).
    exists p. split; [done |].
    destruct Hc as [(k & k' & Hat & Hlen) | [_ Hs]].
    + apply classic_attempt_path in Hat as (_ & Hnd & _ & _ & Hin).
      split; [done |]. split; [done |]. apply Hin; lia.
    + by apply snake_12_8_36_cells.
Qed.

(** C2. In the path of a successful attempt, in either revision and on any
    grid, no two cells that are not consecutive in the path are
    4-directionally adjacent: for positions [i], [j] more than one apart
    the Manhattan distance of the two cells is not 1.  The proof covers the
    pushes onto paths of fewer than 3 cells, where [wouldCreateLoop] checks
    nothing, and the candidates taken by the near-completion exception and
    by the random fallback of [chooseNextTile], which are valid neighbours
    like any other. *)
Theorem search_path_untouched (W H : Z) (L : nat) (rng : source) (k : nat)
    (p : list Z) (k' : nat) :
  Responsive.attemptPathGeneration W H L rng k = Some (Some p, k') ∨
  Classic.attemptPathGeneration W H L rng k = Some (Some p, k') →
  untouched W p.
Proof.
  intros [Hat | Hat]; apply apart_untouched.
  - by apply responsive_attempt_path in Hat as (_ & _ & _ & Hap & _).
  - by apply classic_attempt_path in Hat as (_ & _ & _ & Hap & _).
Qed.

(** C2 at the first attempt of each revision on the 12 x 8 grid when every
    draw is 0. *)
Lemma search_path_untouched_witness :
  (Responsive.attemptPathGeneration 12 8 36 zeroSource 0 =
     Some (Some [13; 25; 37; 49; 61; 73; 85; 86; 87; 75; 63; 51; 39; 27; 15; 3;
                 4; 5; 17; 29; 41; 53; 65; 77; 78; 79; 80; 81; 82; 70; 58; 46;
                 34; 22; 10; 9], 35%nat) ∧
   untouched 12 [13; 25; 37; 49; 61; 73; 85; 86; 87; 75; 63; 51; 39; 27; 15; 3;
                 4; 5; 17; 29; 41; 53; 65; 77; 78; 79; 80; 81; 82; 70; 58; 46;
                 34; 22; 10; 9]) ∧
  (Classic.attemptPathGeneration 12 8 36 zeroSource 0 =
     Some (Some [0; 12; 13; 14; 15; 16; 17; 18; 19; 20; 21; 22; 34; 46; 58; 70;
                 82; 94; 93; 92; 80; 68; 56; 55; 54; 53; 52; 51; 50; 49; 61; 73;
                 85; 86; 87; 88], 37%nat) ∧
   untouched 12 [0; 12; 13; 14; 15; 16; 17; 18; 19; 20; 21; 22; 34; 46; 58; 70;
                 82; 94; 93; 92; 80; 68; 56; 55; 54; 53; 52; 51; 50; 49; 61; 73;
                 85; 86; 87; 88]).
Proof.
  split; (split; [vm_compute; reflexivity |]).
  - apply (search_path_untouched 12 8 36 zeroSource 0 _ 35).
    left. vm_compute. reflexivity.
  - apply (search_path_untouched 12 8 36 zeroSource 0 _ 37).
    right. vm_compute. reflexivity.
Defined.

(** C3. In every sequence [generatePath] returns, in either revision, from
    the search or from the snake, every two consecutive cells are
    4-directionally adjacent: their Manhattan distance is exactly 1. *)
Theorem generatePath_chained (W H : Z) (L : nat) (rng : source) (p : list Z) :
  0 < W →
  Responsive.generatePath W H L rng = Some p ∨ Classic.generatePath W H L rng = Some p →
  chained W p.
Proof.
  intros HW [Hgen | Hgen].
  - destruct (responsive_generate_cases W H L rng) as (q & a & _ & Hq & _ & Hc).
    rewrite Hgen in Hq. injection Hq as <-.
    destruct Hc as [(k & k' & Hat) | [_ Hs]].
    + by apply responsive_attempt_path in Hat as (_ & _ & Hch & _).
    + by eapply generateSnakePath_chained.
  - destruct (classic_generate_cases W H L rng) as (q & a & _ & Hq & _ & Hc).
    rewrite Hgen in Hq. injection Hq as <-.
    destruct Hc as [(k & k' & Hat & _) | [_ Hs]].
    + by apply classic_attempt_path in Hat as (_ & _ & Hch & _).
    + by eapply generateSnakePath_chained.
Qed.

(** C3 at the path each revision generates on the 12 x 8 grid when every
    draw is 0. *)
Lemma generatePath_chained_witness :
  0 < 12 ∧
  (Responsive.generatePath 12 8 36 zeroSource =
     Some [13; 25; 37; 49; 61; 73; 85; 86; 87; 75; 63; 51; 39; 27; 15; 3;
           4; 5; 17; 29; 41; 53; 65; 77; 78; 79; 80; 81; 82; 70; 58; 46;
           34; 22; 10; 9] ∧
   chained 12 [13; 25; 37; 49; 61; 73; 85; 86; 87; 75; 63; 51; 39; 27; 15; 3;
               4; 5; 17; 29; 41; 53; 65; 77; 78; 79; 80; 81; 82; 70; 58; 46;
               34; 22; 10; 9]) ∧
  (Classic.generatePath 12 8 36 zeroSource =
     Some [0; 12; 13; 14; 15; 16; 17; 18; 19; 20; 21; 22; 34; 46; 58; 70;
           82; 94; 93; 92; 80; 68; 56; 55; 54; 53; 52; 51; 50; 49; 61; 73;
           85; 86; 87; 88] ∧
   chained 12 [0; 12; 13; 14; 15; 16; 17; 18; 19; 20; 21; 22; 34; 46; 58; 70;
               82; 94; 93; 92; 80; 68; 56; 55; 54; 53; 52; 51; 50; 49; 61; 73;
               85; 86; 87; 88]).
Proof.
  split; [lia |]. split; (split; [vm_compute; reflexivity |]).
  - apply (generatePath_chained 12 8 36 zeroSource); [lia |].
    left. vm_compute. reflexivity.
  - apply (generatePath_chained 12 8 36 zeroSource); [lia |].
    right. vm_compute. reflexivity.
Defined.

(** C4, as stated, fails on src/game.js: with the draws of
    [backtrackSource] the walk 14, 13, 1, 0 dead-ends in the corner; after
    the pop, at the head of iteration 4, the path is 14, 13, 1 while cell 0
    is still in the visited set. *)
Lemma classic_visited_keeps_popped_cell :
  ∃ s,
    stateAt (Classic.attemptStep 12 8 36 backtrackSource) 4
            (Classic.startState 12 8 backtrackSource 0) = Some s ∧
    Classic.path s = [14; 13; 1] ∧
    0 ∈ Classic.visited s ∧
    Classic.visited s ≠ list_to_set (Classic.path s).
Proof.
  eexists. split; [vm_compute; reflexivity |]. cbn [Classic.path Classic.visited].
  split; [reflexivity |].
  assert (0 ∉ (list_to_set [14; 13; 1] : gset Z)) as Hout.
  { rewrite elem_of_list_to_set. intros Hin.
    repeat (apply elem_of_cons in Hin as [Hin | Hin]; [discriminate |]).
    by apply elem_of_nil in Hin. }
  assert (0 ∈ ({[ 0 ]} ∪ ({[ 1 ]} ∪ ({[ 13 ]} ∪ ({[ 14 ]} ∪ ∅))) : gset Z)) as Hin.
  { apply elem_of_union_l. by apply elem_of_singleton. }
  split.
  - exact Hin.
  - intros Heq. apply Hout. rewrite <- Heq. exact Hin.
Qed.

(** C4, amended.  In part_000 the visited set is exactly the set of the
    cells of the path at the head of every iteration of the search loop,
    and a backtrack removes the popped cell from the path and from the
    visited set.  In src/game.js every cell of the path is in the visited
    set at the head of every iteration, but a backtrack removes the popped
    cell from the path only and leaves the visited set as it is. *)
Theorem visited_follows_path (W H : Z) (L : nat) (rng : source) (k n : nat) :
  (∀ s,
     stateAt (Responsive.attemptStep W H L rng) n (Responsive.startState W H rng k) = Some s →
     (Responsive.visited s = list_to_set (Responsive.path s)) ∧
     ∀ s',
       Responsive.attemptStep W H L rng s = Next s' →
       (length (Responsive.path s') < length (Responsive.path s))%nat →
       Responsive.path s' = removelast (Responsive.path s) ∧
       (Responsive.visited s' = Responsive.visited s ∖ {[ lastCell (Responsive.path s) ]}) ∧
       (lastCell (Responsive.path s) ∉ Responsive.path s') ∧
       (lastCell (Responsive.path s) ∉ Responsive.visited s')) ∧
  (∀ s,
     stateAt (Classic.attemptStep W H L rng) n (Classic.startState W H rng k) = Some s →
     (∀ c, c ∈ Classic.path s → c ∈ Classic.visited s) ∧
     ∀ s',
       Classic.attemptStep W H L rng s = Next s' →
       (length (Classic.path s') < length (Classic.path s))%nat →
       Classic.path s' = removelast (Classic.path s) ∧
       Classic.visited s' = Classic.visited s).
Proof.
  split.
  - intros s Hat. pose proof (responsive_state_lockstep _ _ _ _ _ _ _ Hat) as [Hnd Hv].
    split; [done |]. intros s' Hstep Hshorter.
    pose proof (lockstep_step _ _ _ _ _ _ (conj Hnd Hv) Hstep) as [_ Hv'].
    apply responsive_step_Next in Hstep.
    destruct Hstep as (_ & _ & [(_ & Hlen & ->) | (c & k' & _ & ->)]).
    + cbn [Responsive.path Responsive.visited] in *.
      split; [done |]. split; [done |].
      assert (lastCell (Responsive.path s) ∉ removelast (Responsive.path s)) as Hgone.
      { destruct (snoc_cases (Responsive.path s)) as (q & c & Hp).
        { intros Hnil. rewrite Hnil in Hlen. simpl in Hlen. lia. }
        rewrite Hp, lastCell_snoc, removelast_snoc in *.
        apply NoDup_app in Hnd as (_ & Hdisj & _).
        intros Hc. apply (Hdisj c Hc). by apply list_elem_of_singleton. }
      split; [done |]. rewrite Hv'. by rewrite elem_of_list_to_set.
    + cbn [Responsive.path] in Hshorter. rewrite length_app in Hshorter. lia.
  - intros s Hat. pose proof (classic_state_walk _ _ _ _ _ _ _ Hat) as [_ Hmark _ _ _].
    split; [done |]. intros s' Hstep Hshorter.
    apply classic_step_Next in Hstep.
    destruct Hstep as (_ & [(_ & Hlen & ->) | (c & k' & _ & ->)]).
    + done.
    + cbn [Classic.path] in Hshorter. rewrite length_app in Hshorter. lia.
Qed.

(** C4, amended, at the backtrack the draws of [pocketSource] cause in
    part_000: iteration 6 pops cell 0 from the path and from the visited
    set. *)
Lemma visited_follows_path_witness :
  ∃ s s',
    stateAt (Responsive.attemptStep 12 8 36 pocketSource) 6
            (Responsive.startState 12 8 pocketSource 0) = Some s ∧
    Responsive.attemptStep 12 8 36 pocketSource s = Next s' ∧
    Responsive.path s = [15; 27; 26; 25; 13; 1; 0] ∧
    Responsive.visited s = list_to_set (Responsive.path s) ∧
    Responsive.path s' = [15; 27; 26; 25; 13; 1] ∧
    Responsive.visited s' = Responsive.visited s ∖ {[ 0 ]} ∧
    0 ∉ Responsive.visited s'.
Proof.
  destruct (visited_follows_path 12 8 36 pocketSource 0 6) as [Hr _].
  assert (stateAt (Responsive.attemptStep 12 8 36 pocketSource) 6
                  (Responsive.startState 12 8 pocketSource 0) =
          Some (Responsive.Search [15; 27; 26; 25; 13; 1; 0]
                  (list_to_set [15; 27; 26; 25; 13; 1; 0]) 0 8)) as Hs
    by (vm_compute; reflexivity).
  destruct (Hr _ Hs) as [Hv Hpop].
  assert (Responsive.attemptStep 12 8 36 pocketSource
            (Responsive.Search [15; 27; 26; 25; 13; 1; 0]
               (list_to_set [15; 27; 26; 25; 13; 1; 0]) 0 8) =
          Next (Responsive.Search [15; 27; 26; 25; 13; 1]
                  (list_to_set [15; 27; 26; 25; 13; 1]) 1 8)) as Hstep
    by (vm_compute; reflexivity).
  destruct (Hpop _ Hstep) as (Hp & Hv' & _ & Hgone); [simpl; lia |].
  eexists. eexists. split; [exact Hs |]. split; [exact Hstep |].
  split; [reflexivity |]. split; [exact Hv |].
  split; [reflexivity |]. split; [exact Hv' | exact Hgone].
Defined.

(** C5. Path generation always terminates, on every grid and for every
    target length (also [length = width * height] and
    [length > width * height]).  In part_000, at the head of iteration [n]
    of an attempt the iterations so far are pushes plus pops, the pops are
    the backtrack counter and at most [maxBacktracks], the pushes are at
    most the target length plus the pops, and [n] is at most
    [2 * maxBacktracks + length]; every attempt returns; and
    [generatePath] returns after at most [maxAttempts] failed attempts,
    the path of a successful attempt or, after [maxAttempts] failures, the
    snake.  In src/game.js an attempt runs at most
    [2 * width * height + 1] iterations and returns, and [generatePath]
    returns the same way within its own [maxAttempts]. *)
Theorem generation_terminates (W H : Z) (L : nat) (rng : source) :
  (∃ p a, Responsive.generateLoop W H L rng = Some (p, a) ∧
          Responsive.generatePath W H L rng = Some p ∧
          (a ≤ Responsive.maxAttempts)%nat ∧
          ((∃ k k', Responsive.attemptPathGeneration W H L rng k = Some (Some p, k'))
           ∨ (a = Responsive.maxAttempts ∧ generateSnakePath W H L = Some p))) ∧
  (∀ k, is_Some (Responsive.attemptPathGeneration W H L rng k)) ∧
  (∀ k n s,
     stateAt (Responsive.attemptStep W H L rng) n (Responsive.startState W H rng k) = Some s →
     ∃ pushes pops : nat,
       n = (pushes + pops)%nat ∧
       pops = Responsive.backtrackCount s ∧
       (pops ≤ Responsive.maxBacktracks)%nat ∧
       (pushes + 1 = length (Responsive.path s) + pops)%nat ∧
       (pushes ≤ L + pops)%nat ∧
       (n ≤ 2 * Responsive.maxBacktracks + L)%nat) ∧
  (∃ p a, Classic.generateLoop W H L rng = Some (p, a) ∧
          Classic.generatePath W H L rng = Some p ∧
          (a ≤ Classic.maxAttempts)%nat ∧
          ((∃ k k', Classic.attemptPathGeneration W H L rng k = Some (Some p, k'))
           ∨ (a = Classic.maxAttempts ∧ generateSnakePath W H L = Some p))) ∧
  (∀ k, is_Some (Classic.attemptPathGeneration W H L rng k)) ∧
  (∀ k n s,
     stateAt (Classic.attemptStep W H L rng) n (Classic.startState W H rng k) = Some s →
     (n ≤ 2 * Z.to_nat (W * H) + 1)%nat).
Proof.
  split.
  { destruct (responsive_generate_cases W H L rng) as (p & a & Hl & Hg & Ha & Hc).
    exists p, a. eauto. }
  split; [intros k; apply responsive_attempt_returns |].
  split.
  { intros k n s Hat. apply responsive_count in Hat as (Hn & Hbc & Hlo & Hhi).
    exists (n - Responsive.backtrackCount s)%nat, (Responsive.backtrackCount s).
    repeat split; lia. }
  split.
  { destruct (classic_generate_cases W H L rng) as (p & a & Hl & Hg & Ha & Hc).
    exists p, a. do 3 (split; [done |]).
    destruct Hc as [(k & k' & Hat & _) | Hs]; [left; eauto | by right]. }
  split; [intros k; apply classic_attempt_returns |].
  intros k n s Hat.
  apply (stateAt_measure (Classic.attemptStep W H L rng) (fun _ => True) (classicMeasure W H))
    in Hat; [| done | intros s0 s1 _; apply classic_measure_step | done].
  unfold classicMeasure in Hat at 2. cbn [Classic.path Classic.visited Classic.startState length] in Hat.
  pose proof (unmarked_le W H
                ({[ floorMul (rng (S k)) H * W + floorMul (rng k) W ]} ∪ ∅)).
  lia.
Qed.

(** C5 at full coverage (4 x 4 grid, length 16) and at a length beyond the
    grid (2 x 2 grid, length 5). *)
Lemma generation_terminates_witness :
  (∃ p, Responsive.generatePath 4 4 16 zeroSource = Some p) ∧
  (∃ p, Responsive.generatePath 2 2 5 zeroSource = Some p) ∧
  (∃ p, Classic.generatePath 2 2 5 zeroSource = Some p).
Proof.
  destruct (generation_terminates 4 4 16 zeroSource) as ((p1 & a1 & _ & H1 & _) & _).
  destruct (generation_terminates 2 2 5 zeroSource)
    as ((p2 & a2 & _ & H2 & _) & _ & _ & (p3 & a3 & _ & H3 & _) & _).
  split; [by exists p1 |]. split; [by exists p2 | by exists p3].
Defined.

(** The boundary cases evaluated on src/game.js with every draw 0: at full
    coverage of the 4 x 4 grid and at length 5 on the 2 x 2 grid all 100
    attempts fail and the snake is returned, four cells only in the second
    case.  On part_000 the first attempt at full coverage returns null. *)
Example boundary_lengths :
  Classic.generateLoop 4 4 16 zeroSource =
    Some ([0; 1; 2; 3; 7; 6; 5; 4; 8; 9; 10; 11; 15; 14; 13; 12], 100%nat) ∧
  Classic.generateLoop 2 2 5 zeroSource = Some ([0; 1; 3; 2], 100%nat) ∧
  Responsive.attemptPathGeneration 4 4 16 zeroSource 0 = Some (None, 5%nat).
Proof.
  split; [vm_compute; reflexivity |].
  split; vm_compute; reflexivity.
Qed.

(** C6. [attemptPathGeneration] returns a path of exactly the target length
    or null, never a partial path.  At a dead end (no valid neighbour of the
    last cell) it returns null when the path has one cell, and otherwise
    pops the last cell and, in part_000, unmarks it and increments the
    backtrack counter.  src/game.js (target length at least 1) returns and
    pops the same way; it keeps no backtrack counter. *)
Theorem attempt_full_length_or_null (W H : Z) (L : nat) (rng : source) :
  (∀ k, ∃ r k',
     Responsive.attemptPathGeneration W H L rng k = Some (r, k') ∧
     match r with Some p => length p = L | None => True end) ∧
  (∀ s,
     (length (Responsive.path s) < L)%nat →
     (Responsive.backtrackCount s < Responsive.maxBacktracks)%nat →
     getValidNeighbors W H (lastCell (Responsive.path s))
       (Responsive.visited s) (Responsive.path s) = [] →
     Responsive.attemptStep W H L rng s =
       if (length (Responsive.path s) <=? 1)%nat then Return None (Responsive.cursor s)
       else Next (Responsive.Search
                    (removelast (Responsive.path s))
                    (Responsive.visited s ∖ {[ lastCell (Responsive.path s) ]})
                    (S (Responsive.backtrackCount s))
                    (Responsive.cursor s))) ∧
  (∀ k, (1 ≤ L)%nat → ∃ r k',
     Classic.attemptPathGeneration W H L rng k = Some (r, k') ∧
     match r with Some p => length p = L | None => True end) ∧
  (∀ s,
     (length (Classic.path s) < L)%nat →
     getValidNeighbors W H (lastCell (Classic.path s))
       (Classic.visited s) (Classic.path s) = [] →
     Classic.attemptStep W H L rng s =
       if (length (Classic.path s) <=? 1)%nat then Return None (Classic.cursor s)
       else Next (Classic.Search
                    (removelast (Classic.path s))
                    (Classic.visited s)
                    (Classic.cursor s))).
Proof.
  split.
  { intros k. destruct (responsive_attempt_returns W H L rng k) as [[r k'] Hrun].
    exists r, k'. split; [done |]. destruct r as [p |]; [| done].
    by apply responsive_attempt_path in Hrun as (Hlen & _). }
  split.
  { intros s Hlen Hbc Hdead. unfold Responsive.attemptStep.
    apply Nat.ltb_lt in Hlen. apply Nat.ltb_lt in Hbc. rewrite Hlen, Hbc, Hdead. reflexivity. }
  split.
  { intros k HL. destruct (classic_attempt_returns W H L rng k) as [[r k'] Hrun].
    exists r, k'. split; [done |]. destruct r as [p |]; [| done].
    apply classic_attempt_path in Hrun as (Hlen & _). lia. }
  intros s Hlen Hdead. unfold Classic.attemptStep.
  apply Nat.ltb_lt in Hlen. rewrite Hlen, Hdead. reflexivity.
Qed.

(** C6 on part_000: the first attempt on the 12 x 8 grid with every draw 0
    returns 36 cells; with the draws of [pocketSource] iteration 6 is a dead
    end at cell 0 and pops it; on the degenerate 1 x 1 grid the start has
    no neighbour and the attempt returns null. *)
Lemma attempt_full_length_or_null_witness :
  (∃ r k',
     Responsive.attemptPathGeneration 12 8 36 zeroSource 0 = Some (r, k') ∧
     match r with Some p => length p = 36%nat | None => True end) ∧
  Responsive.attemptStep 12 8 36 pocketSource
    (Responsive.Search [15; 27; 26; 25; 13; 1; 0]
       (list_to_set [15; 27; 26; 25; 13; 1; 0]) 0 8) =
    Next (Responsive.Search (removelast [15; 27; 26; 25; 13; 1; 0])
            (list_to_set [15; 27; 26; 25; 13; 1; 0] ∖ {[ 0 ]}) 1 8) ∧
  Responsive.attemptStep 1 1 36 zeroSource (Responsive.startState 1 1 zeroSource 0) =
    Return None 2.
Proof.
  destruct (attempt_full_length_or_null 12 8 36 zeroSource) as (Hfull & _).
  destruct (attempt_full_length_or_null 12 8 36 pocketSource) as (_ & Hdead & _).
  destruct (attempt_full_length_or_null 1 1 36 zeroSource) as (_ & Hnull & _).
  split; [exact (Hfull 0%nat) |]. split.
  - refine (Hdead (Responsive.Search [15; 27; 26; 25; 13; 1; 0]
                     (list_to_set [15; 27; 26; 25; 13; 1; 0]) 0 8) _ _ _).
    + simpl. lia.
    + unfold Responsive.maxBacktracks. simpl. lia.
    + vm_compute. reflexivity.
  - refine (Hnull (Responsive.startState 1 1 zeroSource 0) _ _ _).
    + simpl. lia.
    + unfold Responsive.maxBacktracks. simpl. lia.
    + vm_compute. reflexivity.
Defined.

(** C7, as stated, fails on part_000: the draws of [pocketSource] lead the
    attempt to the path 15, 27, 26, 25, 13, 1 (30 cells short of the target);
    cell 1 has the two valid neighbours 0 and 2, both of lookahead score 0,
    so no candidate survives the filter, and [chooseNextTile] still returns
    cell 0, which is none of the top survivors. *)
Lemma chooseNextTile_returns_discarded :
  stateAt (Responsive.attemptStep 12 8 36 pocketSource) 5
          (Responsive.startState 12 8 pocketSource 0) =
    Some (Responsive.Search [15; 27; 26; 25; 13; 1]
                            (list_to_set [15; 27; 26; 25; 13; 1]) 0 7) ∧
  getValidNeighbors 12 8 1 (list_to_set [15; 27; 26; 25; 13; 1])
                    [15; 27; 26; 25; 13; 1] = [0; 2] ∧
  lookaheadScore 12 8 (list_to_set [15; 27; 26; 25; 13; 1]) [15; 27; 26; 25; 13; 1] 0 = 0%nat ∧
  lookaheadScore 12 8 (list_to_set [15; 27; 26; 25; 13; 1]) [15; 27; 26; 25; 13; 1] 2 = 0%nat ∧
  specChoices 12 8 36 [0; 2] (list_to_set [15; 27; 26; 25; 13; 1])
              [15; 27; 26; 25; 13; 1] = [] ∧
  Responsive.chooseNextTile 12 8 36 [0; 2] (list_to_set [15; 27; 26; 25; 13; 1])
                            [15; 27; 26; 25; 13; 1] pocketSource 7 = (0, 8%nat) ∧
  ¬ In (fst (Responsive.chooseNextTile 12 8 36 [0; 2]
               (list_to_set [15; 27; 26; 25; 13; 1])
               [15; 27; 26; 25; 13; 1] pocketSource 7))
       (specChoices 12 8 36 [0; 2] (list_to_set [15; 27; 26; 25; 13; 1])
                    [15; 27; 26; 25; 13; 1]).
Proof.
  assert (specChoices 12 8 36 [0; 2] (list_to_set [15; 27; 26; 25; 13; 1])
            [15; 27; 26; 25; 13; 1] = []) as Hnone by (vm_compute; reflexivity).
  do 6 (split; [vm_compute; reflexivity |]).
  rewrite Hnone. intros [].
Qed.

(** C7, amended.  In part_000, [chooseNextTile] returns the only neighbour
    directly, without scoring and without a draw, when there is exactly
    one.  Otherwise it scores every candidate by its own valid-neighbour
    count after being added, discards the candidates of score 0 unless at
    most 2 cells remain to the target length and, when a candidate
    survives, returns the one at position [floor(u * K)] of the survivors
    sorted by descending score, [K = min(3, number of survivors)], [u]
    being the next draw; when no candidate survives it returns the
    neighbour at position [floor(u * n)] of all [n] neighbours.  In
    src/game.js, [chooseNextTile] scores every candidate against the path
    as it is, discards none, and returns the one at position
    [floor(u * K)] of the candidates sorted by descending score,
    [K = ceil(n / 2)], also when there is one neighbour.  The sort permutes
    its input and leaves no score before a larger one. *)
Theorem chooseNextTile_selection (W H : Z) (L : nat) (neighbors : list Z)
    (v : gset Z) (p : list Z) (rng : source) (k : nat) :
  Responsive.chooseNextTile W H L neighbors v p rng k =
    match neighbors with
    | [n] => (n, k)
    | _ =>
        (pick undefinedCell
              match specChoices W H L neighbors v p with
              | [] => neighbors
              | top => top
              end
              (rng k),
         S k)
    end
  ∧ Classic.chooseNextTile W H neighbors v p rng k =
      (pick undefinedCell (classicChoices W H neighbors v p) (rng k), S k)
  ∧ sortByScore (specSurvivors W H L neighbors v p) ≡ₚ specSurvivors W H L neighbors v p
  ∧ descending (sortByScore (specSurvivors W H L neighbors v p)).
Proof.
  split; [| split; [| split; [apply sortByScore_perm | apply sortByScore_descending]]].
  - assert (∀ l : list scoredTile, l ≠ [] →
              map index (take (Nat.min 3 (length l)) (sortByScore l)) ≠ []) as Hkeep.
    { intros l Hl Hnil. apply (f_equal length) in Hnil.
      rewrite length_map, length_take, sortByScore_length in Hnil.
      destruct l; [done |]. simpl in Hnil. lia. }
    assert ((length neighbors =? 1)%nat = false →
            Responsive.chooseNextTile W H L neighbors v p rng k =
            (pick undefinedCell
               match map index (take (Nat.min 3 (length (specSurvivors W H L neighbors v p)))
                                     (sortByScore (specSurvivors W H L neighbors v p))) with
               | [] => neighbors
               | top => top
               end (rng k), S k)) as Hmany.
    { intros Hlen. unfold Responsive.chooseNextTile. rewrite Hlen.
      rewrite responsive_viable_survivors.
      destruct (specSurvivors W H L neighbors v p) as [| s l] eqn:Hs; [reflexivity |].
      cbn [length Nat.eqb]. rewrite sortByScore_length.
      specialize (Hkeep (s :: l) ltac:(done)).
      rewrite (pick_map index). change (index undefinedTile) with undefinedCell.
      destruct (map index _); [done | reflexivity]. }
    destruct neighbors as [| n [| n' rest]]; [by apply Hmany | reflexivity | by apply Hmany].
  - unfold Classic.chooseNextTile, classicChoices.
    rewrite (pick_map index), sortByScore_length, length_map. reflexivity.
Qed.

(** C8, as stated, fails on src/game.js: when both draws are 0 the attempt
    starts at cell 0, the top-left corner. *)
Lemma classic_start_on_outer_ring :
  Classic.path (Classic.startState 12 8 zeroSource 0) = [0] ∧
  colOf 12 0 = 0 ∧ rowOf 12 0 = 0 ∧
  ¬ (1 ≤ colOf 12 0 ≤ 12 - 2 ∧ 1 ≤ rowOf 12 0 ≤ 8 - 2).
Proof.
  split; [reflexivity |]. split; [reflexivity |]. split; [reflexivity |].
  change (colOf 12 0) with 0. lia.
Qed.

(** C8, amended.  On a grid of at least 3 by 3 cells, an attempt of
    part_000 starts from the interior cell of column
    [1 + floor(u1 * (width - 2))] and row [1 + floor(u2 * (height - 2))],
    so [1 <= x <= width - 2] and [1 <= y <= height - 2], and every interior
    cell is the start for some pair of draws.  An attempt of src/game.js
    starts from the cell of column [floor(u1 * width)] and row
    [floor(u2 * height)], any cell of the grid, the outer ring included. *)
Theorem start_cell_position (W H : Z) (rng : source) (k : nat) :
  3 ≤ W → 3 ≤ H →
  (∃ c,
     Responsive.path (Responsive.startState W H rng k) = [c] ∧
     colOf W c = 1 + floorMul (rng k) (W - 2) ∧
     rowOf W c = 1 + floorMul (rng (S k)) (H - 2) ∧
     1 ≤ colOf W c ≤ W - 2 ∧ 1 ≤ rowOf W c ≤ H - 2) ∧
  (∀ x y, 1 ≤ x ≤ W - 2 → 1 ≤ y ≤ H - 2 →
     ∃ u1 u2,
       Responsive.path (Responsive.startState W H (fun i => if (i =? k)%nat then u1 else u2) k)
       = [y * W + x]) ∧
  (∃ c,
     Classic.path (Classic.startState W H rng k) = [c] ∧
     colOf W c = floorMul (rng k) W ∧
     rowOf W c = floorMul (rng (S k)) H ∧
     0 ≤ colOf W c ≤ W - 1 ∧ 0 ≤ rowOf W c ≤ H - 1) ∧
  (∀ x y, 0 ≤ x ≤ W - 1 → 0 ≤ y ≤ H - 1 →
     ∃ u1 u2,
       Classic.path (Classic.startState W H (fun i => if (i =? k)%nat then u1 else u2) k)
       = [y * W + x]).
Proof.
  intros HW HH.
  assert (∀ n j, 0 < n → 0 ≤ j < n →
            floorMul (Sample (Z.to_nat j) (Z.to_nat (n - j - 1))) n = j) as Hhit.
  { intros n j Hn Hj. apply floorMul_spec. unfold denom. simpl. nia. }
  split; [| split; [| split]].
  - eexists. split; [reflexivity |].
    pose proof (floorMul_range (rng k) (W - 2)).
    pose proof (floorMul_range (rng (S k)) (H - 2)).
    rewrite decode_col, decode_row by lia. lia.
  - intros x y Hx Hy.
    exists (Sample (Z.to_nat (x - 1)) (Z.to_nat (W - 2 - (x - 1) - 1))),
           (Sample (Z.to_nat (y - 1)) (Z.to_nat (H - 2 - (y - 1) - 1))).
    unfold Responsive.startState. cbn [Responsive.path].
    rewrite Nat.eqb_refl.
    replace (S k =? k)%nat with false by (symmetry; apply Nat.eqb_neq; lia).
    rewrite !Hhit by lia. f_equal. lia.
  - eexists. split; [reflexivity |].
    pose proof (floorMul_range (rng k) W).
    pose proof (floorMul_range (rng (S k)) H).
    rewrite decode_col, decode_row by lia. lia.
  - intros x y Hx Hy.
    exists (Sample (Z.to_nat x) (Z.to_nat (W - x - 1))),
           (Sample (Z.to_nat y) (Z.to_nat (H - y - 1))).
    unfold Classic.startState. cbn [Classic.path].
    rewrite Nat.eqb_refl.
    replace (S k =? k)%nat with false by (symmetry; apply Nat.eqb_neq; lia).
    rewrite !Hhit by lia. reflexivity.
Qed.

(** C8, amended, on the 12 x 8 grid with the draws of [pocketSource]. *)
Lemma start_cell_position_witness :
  3 ≤ 12 ∧ 3 ≤ 8 ∧
  (∃ c,
     Responsive.path (Responsive.startState 12 8 pocketSource 0) = [c] ∧
     colOf 12 c = 1 + floorMul (pocketSource 0%nat) (12 - 2) ∧
     rowOf 12 c = 1 + floorMul (pocketSource 1%nat) (8 - 2) ∧
     1 ≤ colOf 12 c ≤ 12 - 2 ∧ 1 ≤ rowOf 12 c ≤ 8 - 2) ∧
  (∃ c,
     Classic.path (Classic.startState 12 8 pocketSource 0) = [c] ∧
     colOf 12 c = floorMul (pocketSource 0%nat) 12 ∧
     rowOf 12 c = floorMul (pocketSource 1%nat) 8 ∧
     0 ≤ colOf 12 c ≤ 12 - 1 ∧ 0 ≤ rowOf 12 c ≤ 8 - 1).
Proof.
  split; [lia |]. split; [lia |].
  destruct (start_cell_position 12 8 pocketSource 0) as (Hr & _ & Hc & _); [lia | lia |].
  split; [exact Hr | exact Hc].
Defined.

(** C9. Path generation is deterministic in its randomness source, in
    either revision: two runs of [generatePath] with the same grid
    dimensions and target length, whose generators give the same outputs,
    both return, and return the same path after the same number of failed
    attempts.  The outputs need to be the same only as far as a run can read
    them: the first [drawBudget] outputs (two for each attempt and one for
    each push); what the generators give later is never read. *)
Theorem generatePath_deterministic (W H : Z) (L : nat) (rng1 rng2 : source) :
  (∀ k, (k < drawBudget W H L)%nat → rng1 k = rng2 k) →
  (∃ p a,
     Responsive.generateLoop W H L rng1 = Some (p, a) ∧
     Responsive.generateLoop W H L rng2 = Some (p, a) ∧
     Responsive.generatePath W H L rng1 = Some p ∧
     Responsive.generatePath W H L rng2 = Some p) ∧
  (∃ p a,
     Classic.generateLoop W H L rng1 = Some (p, a) ∧
     Classic.generateLoop W H L rng2 = Some (p, a) ∧
     Classic.generatePath W H L rng1 = Some p ∧
     Classic.generatePath W H L rng2 = Some p).
Proof.
  intros Hsame. split.
  - destruct (responsive_generate_cases W H L rng1) as (p & a & Hloop & Hgen & _).
    assert (Responsive.generateLoop W H L rng2 = Some (p, a)) as Hloop2.
    { rewrite <- Hloop. symmetry. unfold Responsive.generateLoop.
      apply (retryLoop_agree W H L rng1 rng2 _ _ (responsiveAttemptDraws L)).
      - apply responsive_attempt_agree.
      - apply responsive_attempt_cursor.
      - intros k Hk. apply Hsame. unfold drawBudget. lia. }
    exists p, a. split; [exact Hloop |]. split; [exact Hloop2 |]. split; [exact Hgen |].
    unfold Responsive.generatePath. rewrite Hloop2. reflexivity.
  - destruct (classic_generate_cases W H L rng1) as (p & a & Hloop & Hgen & _).
    assert (Classic.generateLoop W H L rng2 = Some (p, a)) as Hloop2.
    { rewrite <- Hloop. symmetry. unfold Classic.generateLoop.
      apply (retryLoop_agree W H L rng1 rng2 _ _ (classicAttemptDraws W H)).
      - apply classic_attempt_agree.
      - apply classic_attempt_cursor.
      - intros k Hk. apply Hsame. unfold drawBudget. lia. }
    exists p, a. split; [exact Hloop |]. split; [exact Hloop2 |]. split; [exact Hgen |].
    unfold Classic.generatePath. rewrite Hloop2. reflexivity.
Qed.

(** C9 on the 12 x 8 grid with 36 cells, at two generators that give the
    same outputs up to the draw budget and different outputs at every call
    after it. *)
Lemma generatePath_deterministic_witness :
  (∀ k, (k < drawBudget 12 8 36)%nat → zeroSource k = lateSource k) ∧
  zeroSource (drawBudget 12 8 36) ≠ lateSource (drawBudget 12 8 36) ∧
  (∃ p a,
     Responsive.generateLoop 12 8 36 zeroSource = Some (p, a) ∧
     Responsive.generateLoop 12 8 36 lateSource = Some (p, a) ∧
     Responsive.generatePath 12 8 36 zeroSource = Some p ∧
     Responsive.generatePath 12 8 36 lateSource = Some p) ∧
  (∃ p a,
     Classic.generateLoop 12 8 36 zeroSource = Some (p, a) ∧
     Classic.generateLoop 12 8 36 lateSource = Some (p, a) ∧
     Classic.generatePath 12 8 36 zeroSource = Some p ∧
     Classic.generatePath 12 8 36 lateSource = Some p).
Proof.
  assert (∀ k, (k < drawBudget 12 8 36)%nat → zeroSource k = lateSource k) as Hsame.
  { intros k Hk. unfold zeroSource, lateSource.
    apply Nat.ltb_lt in Hk. rewrite Hk. reflexivity. }
  split; [exact Hsame |]. split.
  - unfold zeroSource, lateSource. rewrite Nat.ltb_irrefl. discriminate.
  - exact (generatePath_deterministic 12 8 36 zeroSource lateSource Hsame).
Defined.

(** The outputs that are read decide the path: on the 12 x 8 grid with 36
    cells, the draws 0, 0, 0, ... and the same draws but for one output of
    1/2 (the third in part_000, the second in game.js) give different
    paths. *)
Example generatePath_follows_the_outputs :
  Responsive.generatePath 12 8 36 zeroSource =
    Some [13; 25; 37; 49; 61; 73; 85; 86; 87; 75; 63; 51; 39; 27; 15; 3; 4; 5;
          17; 29; 41; 53; 65; 77; 78; 79; 80; 81; 82; 70; 58; 46; 34; 22; 10; 9] ∧
  Responsive.generatePath 12 8 36 thirdDrawSource =
    Some [13; 14; 15; 16; 17; 18; 19; 20; 21; 22; 34; 46; 58; 70; 82; 94; 93; 92;
          80; 68; 56; 55; 54; 53; 52; 51; 50; 49; 61; 73; 85; 86; 87; 88; 89; 77] ∧
  Classic.generatePath 12 8 36 zeroSource =
    Some [0; 12; 13; 14; 15; 16; 17; 18; 19; 20; 21; 22; 34; 46; 58; 70; 82; 94;
          93; 92; 80; 68; 56; 55; 54; 53; 52; 51; 50; 49; 61; 73; 85; 86; 87; 88] ∧
  Classic.generatePath 12 8 36 secondDrawSource =
    Some [48; 49; 37; 25; 13; 1; 2; 3; 15; 27; 39; 51; 63; 75; 87; 88; 89; 77;
          65; 53; 41; 29; 17; 18; 19; 20; 21; 22; 34; 46; 58; 70; 82; 94; 93; 92].
Proof.
  split; [vm_compute; reflexivity |].
  split; [vm_compute; reflexivity |].
  split; [vm_compute; reflexivity |].
  vm_compute; reflexivity.
Qed.

(** C10. [showPattern] increments [peekCount] exactly when the game is in
    RECALL mode at the request (otherwise the count is unchanged); it
    always empties the player's selected-tile list and sets the mode to
    MEMORIZE, and keeps the pattern: a peek taken during recall erases the
    recall progress made so far. *)
Theorem showPattern_peek (g : gameState) :
  (peekCount (showPattern g) = S (peekCount g) ↔ mode g = RECALL) ∧
  (peekCount (showPattern g) = peekCount g ↔ mode g ≠ RECALL) ∧
  userSelected (showPattern g) = [] ∧
  mode (showPattern g) = MEMORIZE ∧
  pattern (showPattern g) = pattern g ∧
  timerInterval (showPattern g) = timerInterval g ∧
  startTime (showPattern g) = startTime g.
Proof.
  unfold showPattern. destruct g as [pat sel [| |] ti st pc]; cbn.
  all: repeat split; try done; try lia; try (intros; lia); try (intros; congruence).
Qed.

(** A peek during recall: after [startRecall] the request counts, and the
    tiles selected so far are gone. *)
Example peek_during_recall (g : gameState) :
  peekCount (showPattern (startRecall g)) = S (peekCount g) ∧
  userSelected (showPattern (startRecall g)) = [] ∧
  peekCount (showPattern (showPattern (startRecall g))) = S (peekCount g).
Proof. repeat split. Qed.

(** * Further properties of the code *)

(** X1. On a grid with at least one cell, [generateSnakePath] (the same in
    both revisions) returns the first min(length, width * height) cells of
    the boustrophedon order from the top-left corner: it has exactly that
    many cells, all different, all in the grid.  It is shorter than the
    target length exactly when the grid has fewer cells. *)
Theorem generateSnakePath_shape (W H : Z) (L : nat) :
  0 < W → 0 < H →
  ∃ p,
    generateSnakePath W H L = Some p ∧
    p = snakeCells W (Nat.min L (Z.to_nat (W * H))) ∧
    length p = Nat.min L (Z.to_nat (W * H)) ∧
    NoDup p ∧
    (∀ c, In c p → 0 ≤ c < W * H).
Proof.
  intros HW HH. exists (snakeCells W (Nat.min L (Z.to_nat (W * H)))).
  split; [by apply generateSnakePath_closed |]. split; [done |].
  split; [apply snakeCells_length |]. split; [by apply snakeCells_NoDup |].
  intros c Hc. apply (snakeCells_range W H (Nat.min L (Z.to_nat (W * H)))); [done | done | lia | done].
Qed.

(** X1 on the 8 x 12 grid of the narrow layout. *)
Lemma generateSnakePath_shape_witness :
  0 < 8 ∧ 0 < 12 ∧
  ∃ p,
    generateSnakePath 8 12 36 = Some p ∧
    p = snakeCells 8 (Nat.min 36 (Z.to_nat (8 * 12))) ∧
    length p = Nat.min 36 (Z.to_nat (8 * 12)) ∧
    NoDup p ∧
    (∀ c, In c p → 0 ≤ c < 8 * 12).
Proof.
  split; [lia |]. split; [lia |].
  apply (generateSnakePath_shape 8 12 36); lia.
Defined.

(** X2. The snake is not a path of the kind the search returns: as soon as
    it turns into the second row and goes two cells along it (width and
    height at least 2, target length at least width + 2), its cell number
    width - 1 and its cell number width + 2 lie one above the other, so two
    cells that are three steps apart touch. *)
Theorem generateSnakePath_touches (W H : Z) (L : nat) :
  2 ≤ W → 2 ≤ H → (Z.to_nat W + 2 ≤ L)%nat →
  ∃ p a b,
    generateSnakePath W H L = Some p ∧
    p !! (Z.to_nat W - 2)%nat = Some a ∧
    p !! (Z.to_nat W + 1)%nat = Some b ∧
    manhattan W a b = 1 ∧
    ¬ untouched W p.
Proof.
  intros HW HH HL.
  pose proof (generateSnakePath_closed W H L ltac:(lia) ltac:(lia)) as Hgen.
  set (p := snakeCells W (Nat.min L (Z.to_nat (W * H)))) in *.
  assert (Z.to_nat W + 2 ≤ Nat.min L (Z.to_nat (W * H)))%nat as Hmin by nia.
  assert (p !! (Z.to_nat W - 2)%nat = Some (snakeCell W (Z.to_nat W - 2))) as Ha
    by (apply snakeCells_lookup; lia).
  assert (p !! (Z.to_nat W + 1)%nat = Some (snakeCell W (Z.to_nat W + 1))) as Hb
    by (apply snakeCells_lookup; lia).
  assert (manhattan W (snakeCell W (Z.to_nat W - 2)) (snakeCell W (Z.to_nat W + 1)) = 1) as Hm.
  { unfold manhattan. rewrite !snakeCell_row, !snakeCell_col by lia.
    replace (Z.of_nat (Z.to_nat W - 2)) with (W - 2) by lia.
    replace (Z.of_nat (Z.to_nat W + 1)) with (W + 1) by lia.
    assert ((W - 2) / W = 0 ∧ (W - 2) mod W = W - 2) as [-> ->].
    { split; [apply Z.div_small | apply Z.mod_small]; lia. }
    assert ((W + 1) / W = 1 ∧ (W + 1) mod W = 1) as [-> ->].
    { split; symmetry;
        [apply (Z.div_unique_pos _ _ _ 1) | apply (Z.mod_unique_pos _ _ 1)]; lia. }
    simpl. lia. }
  exists p, (snakeCell W (Z.to_nat W - 2)), (snakeCell W (Z.to_nat W + 1)).
  do 4 (split; [done |]).
  intros Hun. apply (Hun _ _ _ _ Ha Hb); [lia | done].
Qed.

(** X2 on the 12 x 8 grid with 36 cells: the cells 10 and 22. *)
Lemma generateSnakePath_touches_witness :
  2 ≤ 12 ∧ 2 ≤ 8 ∧ (Z.to_nat 12 + 2 ≤ 36)%nat ∧
  ∃ p a b,
    generateSnakePath 12 8 36 = Some p ∧
    p !! (Z.to_nat 12 - 2)%nat = Some a ∧
    p !! (Z.to_nat 12 + 1)%nat = Some b ∧
    manhattan 12 a b = 1 ∧
    ¬ untouched 12 p.
Proof.
  split; [lia |]. split; [lia |]. split; [simpl; lia |].
  apply (generateSnakePath_touches 12 8 36); [lia | lia | simpl; lia].
Defined.

(** X3. On every grid of at least 2 x 2 cells that has room for the target
    length, in particular on the 8 x 12 grid of the narrow layout,
    [generatePath] returns, in either revision and for every random source,
    exactly the target number of cells, all different and all in the
    grid. *)
Theorem generatePath_any_grid (W H : Z) (L : nat) (rng : source) :
  2 ≤ W → 2 ≤ H → (L ≤ Z.to_nat (W * H))%nat →
  (∃ p, Responsive.generatePath W H L rng = Some p ∧
        length p = L ∧ NoDup p ∧ ∀ c, In c p → 0 ≤ c < W * H) ∧
  (∃ p, Classic.generatePath W H L rng = Some p ∧
        length p = L ∧ NoDup p ∧ ∀ c, In c p → 0 ≤ c < W * H).
Proof.
  intros HW HH HL. split.
  - exact (responsive_generate_grid W H L rng HW HH HL).
  - exact (classic_generate_grid W H L rng HW HH HL).
Qed.

(** X3 on the 8 x 12 grid with 36 cells. *)
Lemma generatePath_any_grid_witness :
  2 ≤ 8 ∧ 2 ≤ 12 ∧ (36 ≤ Z.to_nat (8 * 12))%nat ∧
  (∃ p, Responsive.generatePath 8 12 36 zeroSource = Some p ∧
        length p = 36%nat ∧ NoDup p ∧ ∀ c, In c p → 0 ≤ c < 8 * 12).
Proof.
  split; [lia |]. split; [lia |]. split; [simpl; lia |].
  exact (proj1 (generatePath_any_grid 8 12 36 zeroSource
                  ltac:(lia) ltac:(lia) ltac:(simpl; lia))).
Defined.



(** X5. [getValidNeighbors] (part_000) and [getUnvisitedNeighbors] (game.js)
    return exactly the cells of the grid at distance 1 from the given cell
    that are not visited and that [wouldCreateLoop] accepts, each once, so
    at most four. *)
Theorem getValidNeighbors_exact (W H : Z) (index : Z) (v : gset Z) (p : list Z) :
  0 < W →
  (∀ n, In n (getValidNeighbors W H index v p) ↔
        0 ≤ n < W * H ∧ manhattan W index n = 1 ∧ (n ∉ v) ∧
        wouldCreateLoop W n (colOf W index) (rowOf W index) p = false) ∧
  NoDup (getValidNeighbors W H index v p) ∧
  (length (getValidNeighbors W H index v p) ≤ 4)%nat.
Proof.
  intros HW. split; [| split].
  - intros n. split.
    + intros Hn. apply getValidNeighbors_In in Hn. tauto.
    + intros (Hn & Hm & Hv & Hl). by apply getValidNeighbors_complete.
  - apply getValidNeighbors_NoDup.
  - apply getValidNeighbors_length.
Qed.

(** X5 at the cell 13 of the 12 x 8 grid, the start of a walk. *)
Lemma getValidNeighbors_exact_witness :
  0 < 12 ∧
  getValidNeighbors 12 8 13 {[ 13 ]} [13] = [1; 25; 12; 14] ∧
  (∀ n, In n (getValidNeighbors 12 8 13 {[ 13 ]} [13]) ↔
        0 ≤ n < 12 * 8 ∧ manhattan 12 13 n = 1 ∧ (n ∉ ({[ 13 ]} : gset Z)) ∧
        wouldCreateLoop 12 n (colOf 12 13) (rowOf 12 13) [13] = false).
Proof.
  split; [lia |]. split; [vm_compute; reflexivity |].
  exact (proj1 (getValidNeighbors_exact 12 8 13 {[ 13 ]} [13] ltac:(lia))).
Defined.

(** X6. In part_000, on a grid of at least 2 x 2 cells and for a target
    length of at least 1, an attempt fails only by running out of its
    backtrack budget: when [attemptPathGeneration] returns [null], the
    counter stands at [maxBacktracks] and the loop has run the length of
    the path plus 2 * 1000 - 1 times.  The [return null] at a dead end of a
    path of one cell is never reached, because the start cell gets all its
    neighbours back when the walk returns to it. *)
Theorem failed_attempt_spent_the_budget (W H : Z) (L : nat) (rng : source) (k k' : nat) :
  2 ≤ W → 2 ≤ H → (1 ≤ L)%nat →
  Responsive.attemptPathGeneration W H L rng k = Some (None, k') →
  ∃ n s,
    stateAt (Responsive.attemptStep W H L rng) n (Responsive.startState W H rng k) = Some s ∧
    Responsive.attemptStep W H L rng s = Return None k' ∧
    Responsive.backtrackCount s = Responsive.maxBacktracks ∧
    (1 ≤ length (Responsive.path s) < L)%nat ∧
    (n + 1 = length (Responsive.path s) + 2 * Responsive.maxBacktracks)%nat.
Proof.
  intros HW HH HL Hrun.
  apply responsive_attempt_state in Hrun as (n & s & Hat & Hret).
  exists n, s. split; [done |]. split; [done |].
  by apply (responsive_failed_state W H L rng k n s k').
Qed.

(** X6 on the 12 x 8 grid with 36 cells, at the draws of [pocketSource],
    whose first attempt fails. *)
Lemma failed_attempt_spent_the_budget_witness :
  2 ≤ 12 ∧ 2 ≤ 8 ∧ (1 ≤ 36)%nat ∧
  Responsive.attemptPathGeneration 12 8 36 pocketSource 0 = Some (None, 1007%nat) ∧
  ∃ n s,
    stateAt (Responsive.attemptStep 12 8 36 pocketSource) n
            (Responsive.startState 12 8 pocketSource 0) = Some s ∧
    Responsive.attemptStep 12 8 36 pocketSource s = Return None 1007 ∧
    Responsive.backtrackCount s = Responsive.maxBacktracks ∧
    (1 ≤ length (Responsive.path s) < 36)%nat ∧
    (n + 1 = length (Responsive.path s) + 2 * Responsive.maxBacktracks)%nat.
Proof.
  assert (Responsive.attemptPathGeneration 12 8 36 pocketSource 0 = Some (None, 1007%nat))
    as Hrun by (vm_compute; reflexivity).
  split; [lia |]. split; [lia |]. split; [lia |]. split; [exact Hrun |].
  exact (failed_attempt_spent_the_budget 12 8 36 pocketSource 0 1007
           ltac:(lia) ltac:(lia) ltac:(lia) Hrun).
Defined.

(** X7. [chooseNextTile] of part_000 does not walk into a dead end it can
    see: with two or more candidates and more than 2 cells still to place,
    if some candidate would have a valid neighbour once added, then so does
    the chosen one. *)
Theorem chooseNextTile_avoids_dead_ends (W H : Z) (L : nat) (neighbors : list Z)
    (v : gset Z) (p : list Z) (rng : source) (k : nat) :
  length neighbors ≠ 1%nat →
  2 < Z.of_nat L - Z.of_nat (length p) →
  (∃ n, In n neighbors ∧ (0 < lookaheadScore W H v p n)%nat) →
  In (fst (Responsive.chooseNextTile W H L neighbors v p rng k)) neighbors ∧
  (0 < lookaheadScore W H v p (fst (Responsive.chooseNextTile W H L neighbors v p rng k)))%nat.
Proof.
  intros Hone Hrem (n & Hn & Hscore).
  unfold Responsive.chooseNextTile.
  destruct (length neighbors =? 1)%nat eqn:H1; [by apply Nat.eqb_eq in H1 |].
  set (viable := List.filter _ _).
  assert (∀ s, In s viable → In (index s) neighbors ∧
                             (0 < lookaheadScore W H v p (index s))%nat) as Hviable.
  { intros s Hs. apply filter_In in Hs as [Hs Hv].
    apply in_map_iff in Hs as (m & <- & Hm). split; [done |].
    unfold Responsive.isViable in Hv. cbn [score Responsive.scoreOf] in Hv.
    apply orb_true_iff in Hv as [Hv | Hv]; [by apply Nat.ltb_lt in Hv |].
    apply Z.leb_le in Hv. lia. }
  assert (In (Responsive.scoreOf W H v p n) viable) as Hin.
  { apply filter_In. split; [by apply in_map |].
    unfold Responsive.isViable. apply orb_true_iff. left. by apply Nat.ltb_lt. }
  destruct (length viable =? 0)%nat eqn:Hv.
  { apply Nat.eqb_eq, length_zero_iff_nil in Hv. rewrite Hv in Hin. destruct Hin. }
  apply Nat.eqb_neq in Hv. cbn [fst].
  apply Hviable, sortByScore_In.
  apply (In_take _ (Nat.min 3 (length (sortByScore viable)))).
  apply pick_In. intros Hnil. apply (f_equal length) in Hnil.
  rewrite length_take, sortByScore_length in Hnil.
  change (length []) with 0%nat in Hnil. lia.
Qed.

(** X7 at the start cell 13 of the 12 x 8 grid, with all draws 0: the cell
    25 is chosen, which has three valid neighbours of its own. *)
Lemma chooseNextTile_avoids_dead_ends_witness :
  length [1; 25; 12; 14] ≠ 1%nat ∧
  2 < Z.of_nat 36 - Z.of_nat (length [13]) ∧
  fst (Responsive.chooseNextTile 12 8 36 [1; 25; 12; 14] {[ 13 ]} [13] zeroSource 2) = 25 ∧
  In (fst (Responsive.chooseNextTile 12 8 36 [1; 25; 12; 14] {[ 13 ]} [13] zeroSource 2))
     [1; 25; 12; 14] ∧
  (0 < lookaheadScore 12%Z 8%Z {[ 13%Z ]} [13%Z]
         (fst (Responsive.chooseNextTile 12%Z 8%Z 36 [1%Z; 25%Z; 12%Z; 14%Z] {[ 13%Z ]}
                 [13%Z] zeroSource 2)))%nat.
Proof.
  split; [simpl; lia |]. split; [simpl; lia |]. split; [vm_compute; reflexivity |].
  apply (chooseNextTile_avoids_dead_ends 12 8 36 [1; 25; 12; 14] {[ 13 ]} [13] zeroSource 2).
  - simpl. lia.
  - simpl. lia.
  - exists 25. split; [simpl; tauto |]. vm_compute. lia.
Defined.

(** X8. In part_000, once the path has two cells, the cell the walk came
    from is visited, so the current cell has at most three valid
    neighbours; the [slice(0, Math.min(3, viable.length))] of
    [chooseNextTile] then keeps every viable candidate, and the scores only
    decide the order in which the draw finds them.  Only at the start cell
    (four neighbours) can the slice drop a candidate. *)
Theorem top_three_keeps_all (W H : Z) (L : nat) (rng : source) (k n : nat)
    (s : Responsive.search) :
  2 ≤ W → 2 ≤ H →
  stateAt (Responsive.attemptStep W H L rng) n (Responsive.startState W H rng k) = Some s →
  (2 ≤ length (Responsive.path s))%nat →
  let neighbors :=
    getValidNeighbors W H (lastCell (Responsive.path s)) (Responsive.visited s)
                      (Responsive.path s) in
  let viable :=
    List.filter (Responsive.isViable L (Responsive.path s))
                (map (Responsive.scoreOf W H (Responsive.visited s) (Responsive.path s))
                     neighbors) in
  (length neighbors ≤ 3)%nat ∧
  take (Nat.min 3 (length (sortByScore viable))) (sortByScore viable) = sortByScore viable ∧
  sortByScore viable ≡ₚ viable.
Proof.
  intros HW HH Hat Hlen neighbors viable.
  pose proof (responsive_three_directions W H L HW HH rng k n s Hat Hlen) as H3.
  fold neighbors in H3.
  split; [done |]. split; [| apply sortByScore_perm].
  apply take_ge. rewrite sortByScore_length.
  assert (length viable ≤ length neighbors)%nat.
  { unfold viable. etransitivity; [apply filter_length_le |]. by rewrite length_map. }
  lia.
Qed.

(** X8 at the second state of the walk with all draws 0 on the 12 x 8 grid:
    the path is 13, 25. *)
Lemma top_three_keeps_all_witness :
  2 ≤ 12 ∧ 2 ≤ 8 ∧
  ∃ s,
    stateAt (Responsive.attemptStep 12 8 36 zeroSource) 1
            (Responsive.startState 12 8 zeroSource 0) = Some s ∧
    Responsive.path s = [13; 25] ∧
    (length (getValidNeighbors 12 8 (lastCell (Responsive.path s)) (Responsive.visited s)
               (Responsive.path s)) ≤ 3)%nat.
Proof.
  split; [lia |]. split; [lia |].
  assert (∃ s, stateAt (Responsive.attemptStep 12 8 36 zeroSource) 1
                       (Responsive.startState 12 8 zeroSource 0) = Some s ∧
               Responsive.path s = [13; 25]) as (s & Hat & Hp).
  { eexists. split; [vm_compute; reflexivity | reflexivity]. }
  exists s. split; [exact Hat |]. split; [exact Hp |].
  refine (proj1 (top_three_keeps_all 12 8 36 zeroSource 0 1 s ltac:(lia) ltac:(lia) Hat _)).
  rewrite Hp. simpl. lia.
Defined.

(** X9. Whatever the player does (start, peek, recall, clicks on tiles or
    elsewhere, reset, resizing the window, in any order and number), in
    either revision every listener returns and, after it, the selection
    [gameState.userSelected] has no tile twice and holds tiles of the
    pattern only, so at most [PATH_LENGTH] of them; the pattern is empty or
    [PATH_LENGTH] different tiles; every cell of the pattern is the index
    of a tile of the grid, which has 96 tiles. *)
Theorem selection_within_pattern (mobile : bool) (events : list Game.event) :
  (∃ p,
     Game.run ResponsiveGame.handle events (ResponsiveGame.init mobile) = Some p ∧
     NoDup (userSelected (Game.state p)) ∧
     (∀ c, c ∈ userSelected (Game.state p) → c ∈ pattern (Game.state p)) ∧
     (length (userSelected (Game.state p)) ≤ Game.PATH_LENGTH)%nat ∧
     (pattern (Game.state p) = [] ∨
      (length (pattern (Game.state p)) = Game.PATH_LENGTH ∧ NoDup (pattern (Game.state p)))) ∧
     (∀ c, c ∈ pattern (Game.state p) → 0 ≤ c < Z.of_nat (length (Game.tiles p))) ∧
     length (Game.tiles p) = 96%nat) ∧
  (∃ p,
     Game.run ClassicGame.handle events ClassicGame.init = Some p ∧
     NoDup (userSelected (Game.state p)) ∧
     (∀ c, c ∈ userSelected (Game.state p) → c ∈ pattern (Game.state p)) ∧
     (length (userSelected (Game.state p)) ≤ Game.PATH_LENGTH)%nat ∧
     (pattern (Game.state p) = [] ∨
      (length (pattern (Game.state p)) = Game.PATH_LENGTH ∧ NoDup (pattern (Game.state p)))) ∧
     (∀ c, c ∈ pattern (Game.state p) → 0 ≤ c < Z.of_nat (length (Game.tiles p))) ∧
     length (Game.tiles p) = 96%nat).
Proof.
  assert (∀ p, pageOk p →
            (length (userSelected (Game.state p)) ≤ Game.PATH_LENGTH)%nat) as Hcount.
  { intros p [Hnd Hsel Hpat _ _ _ _ _ _].
    assert (length (userSelected (Game.state p)) ≤ length (pattern (Game.state p)))%nat as Hle.
    { apply NoDup_ListNoDup in Hnd. apply (NoDup_incl_length Hnd).
      intros c Hc. apply list_elem_of_In, Hsel. by apply list_elem_of_In. }
    destruct Hpat as [Hnil | [Hlen _]]; [rewrite Hnil in Hle; simpl in Hle |]; lia. }
  split.
  - destruct (responsive_run_ok events _ (responsive_init_ok mobile)) as (p & Hrun & Hok).
    exists p. split; [exact Hrun |]. pose proof (Hcount p Hok).
    destruct Hok. done.
  - destruct (classic_run_ok events _ classic_init_ok) as (p & Hrun & Hok).
    exists p. split; [exact Hrun |]. pose proof (Hcount p Hok).
    destruct Hok. done.
Qed.

(** X10. Whatever the player does, in either revision at most one interval
    timer is running, it is the one [gameState.timerInterval] holds, and
    none is running when the mode is IDLE: [startGame] clears the timer of
    the round before, and a round that is won, lost or reset clears its
    own. *)
Theorem one_timer_at_most (mobile : bool) (events : list Game.event) :
  (∃ p,
     Game.run ResponsiveGame.handle events (ResponsiveGame.init mobile) = Some p ∧
     (∀ h1 h2, h1 ∈ Game.intervals p → h2 ∈ Game.intervals p → h1 = h2) ∧
     (∀ h, h ∈ Game.intervals p → timerInterval (Game.state p) = Some h) ∧
     (mode (Game.state p) = IDLE → Game.intervals p = ∅)) ∧
  (∃ p,
     Game.run ClassicGame.handle events ClassicGame.init = Some p ∧
     (∀ h1 h2, h1 ∈ Game.intervals p → h2 ∈ Game.intervals p → h1 = h2) ∧
     (∀ h, h ∈ Game.intervals p → timerInterval (Game.state p) = Some h) ∧
     (mode (Game.state p) = IDLE → Game.intervals p = ∅)).
Proof.
  assert (∀ p, pageOk p →
            (∀ h1 h2, h1 ∈ Game.intervals p → h2 ∈ Game.intervals p → h1 = h2) ∧
            (∀ h, h ∈ Game.intervals p → timerInterval (Game.state p) = Some h) ∧
            (mode (Game.state p) = IDLE → Game.intervals p = ∅)) as Hone.
  { intros p [_ _ _ _ _ _ Htm _ Hidle]. split; [| split; [| done]].
    - intros h1 h2 H1 H2. apply Htm in H1 as [H1 _]. apply Htm in H2 as [H2 _].
      rewrite H1 in H2. by injection H2.
    - intros h Hh. by apply Htm in Hh as [Hh _]. }
  split.
  - destruct (responsive_run_ok events _ (responsive_init_ok mobile)) as (p & Hrun & Hok).
    exists p. split; [exact Hrun | by apply Hone].
  - destruct (classic_run_ok events _ classic_init_ok) as (p & Hrun & Hok).
    exists p. split; [exact Hrun | by apply Hone].
Qed.

(** X11. Every round can be won.  On a page with its 96 tiles, [startGame]
    returns, in either revision, with a pattern of [PATH_LENGTH] tiles; and
    if the player then starts the recall and clicks tiles of the pattern,
    each once and in any order, every click is counted, the mode stays
    RECALL as long as a tile of the pattern is left, and the click on the
    last one ends the round in [winGame] (mode IDLE). *)
Theorem round_can_be_won (mobile : bool) (rng : source) (now : Z) (p0 : Game.page) :
  length (Game.tiles p0) = 96%nat →
  (∃ p1,
     ResponsiveGame.startGame mobile rng now p0 = Some p1 ∧
     length (pattern (Game.state p1)) = Game.PATH_LENGTH ∧
     ∀ q1 q2, q1 ++ q2 ≡ₚ pattern (Game.state p1) →
       ∃ p2,
         Game.run ResponsiveGame.handle (Game.StartRecall :: clicksOn q1) p1 = Some p2 ∧
         userSelected (Game.state p2) = q1 ∧
         mode (Game.state p2) = match q2 with [] => IDLE | _ => RECALL end) ∧
  (∃ p1,
     ClassicGame.startGame rng now p0 = Some p1 ∧
     length (pattern (Game.state p1)) = Game.PATH_LENGTH ∧
     ∀ q1 q2, q1 ++ q2 ≡ₚ pattern (Game.state p1) →
       ∃ p2,
         Game.run ClassicGame.handle (Game.StartRecall :: clicksOn q1) p1 = Some p2 ∧
         userSelected (Game.state p2) = q1 ∧
         mode (Game.state p2) = match q2 with [] => IDLE | _ => RECALL end).
Proof.
  intros Ht. split.
  - destruct (responsive_startGame mobile rng now p0) as (g & Hstart & Hlen & Hnd & Hin).
    eexists. split; [exact Hstart |]. split; [exact Hlen |].
    intros q1 q2 Hperm.
    destruct (started_round_won ResponsiveGame.handle g now
                (Game.createGrid (ResponsiveGame.setGridDimensions mobile p0)) q1 q2)
      as (p2 & Hrun & Hsel & _ & Hmode); try done.
    + unfold Game.createGrid, Game.withTiles. cbn [Game.tiles]. rewrite repeat_length.
      by destruct mobile.
    + by exists p2.
  - destruct (classic_startGame rng now p0) as (g & Hstart & Hlen & Hnd & Hin).
    eexists. split; [exact Hstart |]. split; [exact Hlen |].
    intros q1 q2 Hperm.
    destruct (started_round_won ClassicGame.handle g now p0 q1 q2)
      as (p2 & Hrun & Hsel & _ & Hmode); try done.
    by exists p2.
Qed.

(** X11 on the page of game.js after [init], with all draws 0. *)
Lemma round_can_be_won_witness :
  length (Game.tiles ClassicGame.init) = 96%nat ∧
  ∃ p1,
    ClassicGame.startGame zeroSource 0 ClassicGame.init = Some p1 ∧
    length (pattern (Game.state p1)) = Game.PATH_LENGTH ∧
    ∀ q1 q2, q1 ++ q2 ≡ₚ pattern (Game.state p1) →
      ∃ p2,
        Game.run ClassicGame.handle (Game.StartRecall :: clicksOn q1) p1 = Some p2 ∧
        userSelected (Game.state p2) = q1 ∧
        mode (Game.state p2) = match q2 with [] => IDLE | _ => RECALL end.
Proof.
  assert (length (Game.tiles ClassicGame.init) = 96%nat) as Ht by reflexivity.
  split; [exact Ht |].
  exact (proj2 (round_can_be_won false zeroSource 0 ClassicGame.init Ht)).
Defined.

(** X12. [handleTileClick] counts a click once: the same click again, right
    after, changes nothing, whatever the page and the target (a tile just
    selected is skipped, and a click that ended the round left the mode
    IDLE). *)
Theorem handleTileClick_idempotent (target : option nat) (p : Game.page) :
  Game.handleTileClick target (Game.handleTileClick target p) =
  Game.handleTileClick target p.
Proof.
  destruct target as [i |]; [| reflexivity].
  destruct (click_outcome i p) as [Hsame | [Hidle | Hsel]].
  - by rewrite !Hsame.
  - apply click_ignored_mode. rewrite Hidle. discriminate.
  - by apply click_ignored_selected.
Qed.
